(** * Music streaming application: playback queue, framing and audio transfer

    A shallow embedding of the parts of the client and the server that the
    specification's testable properties talk about:

    - [SongQueue] and the queue operations of [MediaPlayer]
      (Client/Application/mediaplayer.py),
    - [Player.set_progress] and [Player.stream_loop]
      (Client/Application/player.py),
    - [ClientHandler.slice_song_bytes], [_search_for_song] and
      [_send_song_data] (Server/Application/clienthandler.py),
    - [Controller._search_request_handler] (Client/Application/controller.py).

    Python objects that are mutated in place are modelled by explicit state
    passing in a state-and-exception monad: an exception leaves the state as
    it was when it was raised, exactly as in Python. *)

From Stdlib Require Import ZArith QArith Qround Qpower Qabs Lia Lqa.
From Stdlib Require Import Strings.String Strings.Byte DecimalString.
From stdpp Require Import base list.

Local Open Scope Z_scope.

(** ** Exceptions and the state-and-exception monad *)

Inductive exn : Type :=
| IndexError
| ValueError
| StopIteration
| ZeroDivisionError
| OverflowError
| RuntimeError
| ConnectionResetError.

Definition is_ConnectionResetError (e : exn) : bool :=
  match e with ConnectionResetError => true | _ => false end.

Definition is_IndexError (e : exn) : bool :=
  match e with IndexError => true | _ => false end.

Inductive outcome (S A : Type) : Type :=
| Ok (a : A) (s : S)
| Raise (e : exn) (s : S).
Arguments Ok {S A} a s.
Arguments Raise {S A} e s.

Definition M (S A : Type) : Type := S -> outcome S A.

Definition ret {S A} (a : A) : M S A := fun s => Ok a s.

Definition bind {S A B} (m : M S A) (f : A -> M S B) : M S B :=
  fun s => match m s with
           | Ok a s' => f a s'
           | Raise e s' => Raise e s'
           end.

Definition raise {S A} (e : exn) : M S A := fun s => Raise e s.
Definition gets {S A} (f : S -> A) : M S A := fun s => Ok (f s) s.
Definition modify {S} (f : S -> S) : M S unit := fun s => Ok tt (f s).

(** [x = o] where evaluating [o] may raise [e]. *)
Definition or_raise {S A} (e : exn) (o : option A) : M S A :=
  match o with Some a => ret a | None => raise e end.

(** The state a computation leaves behind, whether it returned or raised. *)
Definition final {S A} (o : outcome S A) : S :=
  match o with Ok _ s => s | Raise _ s => s end.

Definition returned {S A} (o : outcome S A) : bool :=
  match o with Ok _ _ => true | Raise _ _ => false end.

(** [try: m finally: fin]: [fin] runs on both exits; an exception of [m]
    is re-raised after it unless [fin] raises itself. *)
Definition finally {S A} (m : M S A) (fin : M S unit) : M S A :=
  fun s => match m s with
           | Ok a s' =>
               match fin s' with
               | Ok _ s'' => Ok a s''
               | Raise e s'' => Raise e s''
               end
           | Raise e s' =>
               match fin s' with
               | Ok _ s'' => Raise e s''
               | Raise e' s'' => Raise e' s''
               end
           end.

(** [try: m except E: handler], for the one exception class [E] given by
    [catches]. *)
Definition try_except {S A} (catches : exn -> bool) (m : M S A)
    (handler : M S A) : M S A :=
  fun s => match m s with
           | Ok a s' => Ok a s'
           | Raise e s' => if catches e then handler s' else Raise e s'
           end.

Declare Scope py_scope.
Delimit Scope py_scope with py.
Notation "x <- m ;; k" := (bind m (fun x => k))
  (at level 200, m at level 99, right associativity) : py_scope.
Notation "m ;;; k" := (bind m (fun _ => k))
  (at level 200, right associativity) : py_scope.

(** [for x in xs: body x] *)
Fixpoint for_each {S X} (xs : list X) (body : X -> M S unit) : M S unit :=
  match xs with
  | [] => ret tt
  | x :: xs' => bind (body x) (fun _ => for_each xs' body)
  end.

(** Run a computation on a component of a larger state. *)
Definition zoom {S T A} (get : T -> S) (set : S -> T -> T) (m : M S A) : M T A :=
  fun t => match m (get t) with
           | Ok a s => Ok a (set s t)
           | Raise e s => Raise e (set s t)
           end.

(** ** Python lists *)

Section PyList.
Context {A : Type}.

(** Index normalisation of [l[i]], [l.pop(i)]: a negative index counts
    from the end; [None] stands for IndexError. *)
Definition py_index (l : list A) (i : Z) : option nat :=
  let n := Z.of_nat (length l) in
  let j := if i <? 0 then i + n else i in
  if (0 <=? j) && (j <? n) then Some (Z.to_nat j) else None.

Definition py_getitem (l : list A) (i : Z) : option A :=
  j ← py_index l i; l !! j.

(** [l[i] = x] *)
Definition py_setitem (l : list A) (i : Z) (x : A) : option (list A) :=
  j ← py_index l i; Some (<[j := x]> l).

(** [l.insert(i, x)]: the index is clamped to [0 .. len(l)], never raises. *)
Definition py_insert (l : list A) (i : Z) (x : A) : list A :=
  let n := Z.of_nat (length l) in
  let j := if i <? 0 then Z.max 0 (i + n) else Z.min i n in
  take (Z.to_nat j) l ++ x :: drop (Z.to_nat j) l.

(** [l.pop(i)] *)
Definition py_pop (l : list A) (i : Z) : option (list A) :=
  j ← py_index l i; Some (delete j l).

(** [l.remove(x)] with [eqb y] standing for [y == x]: deletes the first
    equal element; [None] stands for ValueError. *)
Fixpoint py_remove (eqb : A -> bool) (l : list A) : option (list A) :=
  match l with
  | [] => None
  | y :: l' => if eqb y then Some l' else cons y <$> py_remove eqb l'
  end.

(** [a[i], a[j] = a[j], a[i]] on positions: the right-hand side is
    evaluated first (IndexError before anything is written), then [a[i]]
    and [a[j]] are assigned in this order. *)
Definition swap_items (i j : nat) : M (list A) unit :=
  fun l => match l !! j, l !! i with
           | Some x, Some y => Ok tt (<[j := y]> (<[i := x]> l))
           | _, _ => Raise IndexError l
           end.
End PyList.

(** [range(start, stop)] over ints *)
Definition py_range (start stop : Z) : list Z :=
  (fun k => start + Z.of_nat k) <$> seq 0 (Z.to_nat (stop - start)).

(** [range(start, stop, step)] over positions, for a positive step *)
Definition py_range3 (start stop step : nat) : list nat :=
  (fun k => start + k * step)%nat <$> seq 0 ((stop - start + step - 1) / step).


(** ** Bytes and fixed-width integers *)

#[global] Instance byte_eq_dec : EqDecision byte := Byte.byte_eq_dec.

Definition byte_of_Z (z : Z) : byte :=
  match Byte.of_N (Z.to_N (z mod 256)) with
  | Some b => b
  | None => x00
  end.

Definition Z_of_byte (b : byte) : Z := Z.of_N (Byte.to_N b).

(** [n.to_bytes(4, "little")]: OverflowError ([None]) unless [0 <= n < 2^32]. *)
Definition to_bytes4 (n : Z) : option (list byte) :=
  if (0 <=? n) && (n <? 2 ^ 32)
  then Some [byte_of_Z n; byte_of_Z (n / 2 ^ 8);
             byte_of_Z (n / 2 ^ 16); byte_of_Z (n / 2 ^ 24)]
  else None.

(** [int.from_bytes(l, "little")] *)
Fixpoint from_bytes (l : list byte) : Z :=
  match l with
  | [] => 0
  | b :: l' => Z_of_byte b + 256 * from_bytes l'
  end.

(** ["...".encode("utf-8")] of an ASCII literal. *)
Definition encode (s : string) : list byte := list_byte_of_string s.

(** ** Python floats

    A float is an IEEE-754 binary64 number; it is represented by its exact
    rational value, and every operation rounds the exact result to the
    nearest number with a 53-bit significand, ties to even.  The exponent
    range is the one thing left out: gradual underflow (magnitudes below
    2^-1022) does not occur for the quotients and products computed by the
    program, and overflow is modelled where Python raises for it. *)

Module PyFloat.
Local Open Scope Q_scope.

Definition pow2 (e : Z) : Q := 2 ^ e.

(** floor (log2 q), for [0 < q] *)
Definition ilog2 (q : Q) : Z :=
  if Qle_bool 1 q then Z.log2 (Qfloor q)
  else (- Z.log2_up (Qceiling (/ q)))%Z.

Definition round_half_even (q : Q) : Z :=
  let f := Qfloor q in
  match Qcompare (q - inject_Z f) (1 # 2) with
  | Lt => f
  | Gt => (f + 1)%Z
  | Eq => if Z.even f then f else (f + 1)%Z
  end.

Definition binary64_pos (q : Q) : Q :=
  let s := (52 - ilog2 q)%Z in
  inject_Z (round_half_even (q * pow2 s)) * pow2 (- s).

(** Rounding of an exact result to binary64. *)
Definition binary64 (q : Q) : Q :=
  match Qcompare q 0 with
  | Eq => 0
  | Gt => binary64_pos q
  | Lt => - binary64_pos (- q)
  end.

Definition overflows (x : Q) : bool := Qle_bool (pow2 1024) (Qabs x).

(** [a / b] on ints *)
Definition truediv (a b : Z) : exn + Q :=
  if (b =? 0)%Z then inl ZeroDivisionError
  else let x := binary64 (inject_Z a / inject_Z b) in
       if overflows x then inl OverflowError else inr x.

(** conversion of an int operand to float *)
Definition of_int (z : Z) : exn + Q :=
  let x := binary64 (inject_Z z) in
  if overflows x then inl OverflowError else inr x.

(** [x * y] on finite floats whose product stays finite *)
Definition mul (x y : Q) : Q := binary64 (x * y).

(** [round(x)] *)
Definition round (x : Q) : Z := round_half_even x.
(** [math.ceil(x)] *)
Definition ceil (x : Q) : Z := Qceiling x.
(** [int(x)]: truncation towards zero *)
Definition int (x : Q) : Z :=
  if Qle_bool 0 x then Qfloor x else Qceiling x.

(** [x % y] on floats, for [y] other than zero: the remainder of C's
    [fmod], which is exact and has the sign of [x], moved by [y] when its
    sign is not the sign of [y]. *)
Definition rem (x y : Q) : Q :=
  let m := x - y * inject_Z (int (x / y)) in
  if negb (Qeq_bool m 0)
     && negb (Bool.eqb (negb (Qle_bool 0 y)) (negb (Qle_bool 0 m)))
  then binary64 (m + y)
  else m.
End PyFloat.

Definition or_raise_sum {S A} (r : exn + A) : M S A :=
  match r with inl e => raise e | inr a => ret a end.

(** ** TCP connections

    A connection end holds the bytes written so far ([outbox]) and the bytes
    the peer sends before it closes ([inbox]).  One call of [socket.send] or
    [socket.recv] transfers as many bytes as the kernel grants at that call,
    at most what was asked for; a transfer of zero bytes is what the code
    takes for a broken connection. *)

Module Socket.
Record t : Type := mk {
  outbox : list byte;
  inbox : list byte;
  grant : nat -> nat;
  calls : nat
}.

(** [sock.send(data)] returns the number of bytes sent. *)
Definition send (data : list byte) : M t nat :=
  fun s =>
    let k := Nat.min (grant s (calls s)) (length data) in
    Ok k (mk (outbox s ++ take k data) (inbox s) (grant s) (S (calls s))).

(** [sock.recv(bufsize)] *)
Definition recv (bufsize : nat) : M t (list byte) :=
  fun s =>
    let k := Nat.min (grant s (calls s)) bufsize in
    Ok (take k (inbox s))
       (mk (outbox s) (drop k (inbox s)) (grant s) (S (calls s))).

(** [*_tcp_send(data, bufsize)]; [broken] is the exception class the
    caller's copy of the loop raises (ConnectionResetError on the server,
    RuntimeError on the client).  Every pass sends at least one byte or
    raises, so [bufsize] passes are enough. *)
Fixpoint tcp_send_loop (fuel : nat) (broken : exn) (data : list byte)
    (bufsize total_sent : nat) : M t unit :=
  if (total_sent <? bufsize)%nat then
    match fuel with
    | O => ret tt
    | S fuel' =>
        bind (send (drop total_sent data)) (fun sent =>
          if (sent =? 0)%nat then raise broken
          else tcp_send_loop fuel' broken data bufsize (total_sent + sent))
    end
  else ret tt.

Definition tcp_send (broken : exn) (data : list byte) (bufsize : nat)
    : M t unit :=
  tcp_send_loop bufsize broken data bufsize 0.

(** [*_tcp_recv(bufsize)]: [chunks] is kept joined. *)
Fixpoint tcp_recv_loop (fuel : nat) (broken : exn) (bufsize : nat)
    (chunks : list byte) (bytes_received : nat) : M t (list byte) :=
  if (bytes_received <? bufsize)%nat then
    match fuel with
    | O => ret chunks
    | S fuel' =>
        bind (recv (bufsize - bytes_received)) (fun chunk =>
          if decide (chunk = []) then raise broken
          else tcp_recv_loop fuel' broken bufsize (chunks ++ chunk)
                 (bytes_received + length chunk))
    end
  else ret chunks.

Definition tcp_recv (broken : exn) (bufsize : nat) : M t (list byte) :=
  tcp_recv_loop bufsize broken bufsize [] 0.

(** The connection stays up: every call transfers at least one byte. *)
Definition alive (s : t) : Prop := forall c, (1 <= grant s c)%nat.
End Socket.

(** ** Songs (song.py) *)

Record Song : Type := mkSong {
  song_id : Z;
  song_name : string;
  artist_name : string;
  duration : Z;
  image_binary : list byte
}.

(** [f"{n:0>2d}"]: the decimal digits of [n], with its sign, filled with
    zeros on the left to two characters. *)
Definition format_02d (n : Z) : string :=
  let s := NilZero.string_of_int (Z.to_int n) in
  if (String.length s <? 2)%nat then String.append "0" s else s.

Module SongMethods.
(** [Song._seconds_to_string], on the [int] that [Song.__init__] gives
    it. *)
Definition _seconds_to_string (seconds : Z) : exn + string :=
  match PyFloat.truediv seconds 60 with
  | inl e => inl e
  | inr x =>
      let minutes := PyFloat.int x in
      let seconds := seconds mod 60 in
      inr (String.append (format_02d minutes)
             (String.append ":" (format_02d seconds)))
  end.

(** The attribute [duration_string] that [__init__] computes. *)
Definition duration_string (s : Song) : exn + string :=
  _seconds_to_string (duration s).
End SongMethods.

(** ** SongQueue (mediaplayer.py) *)

Module SongQueue.
(** [_ordered_queue] is documented to store song ids; [insert_to_queue]
    stores the Song object itself, so an entry is one or the other. *)
Inductive entry : Type :=
| EId (i : Z)
| ESong (s : Song).

(** [value.song_id == entry]: Song defines no [__eq__], so an int never
    equals a Song object. *)
Definition entry_eq_id (e : entry) (i : Z) : bool :=
  match e with
  | EId j => i =? j
  | ESong _ => false
  end.

Record t : Type := mk {
  _queue : list Song;
  _ordered_queue : list entry
}.

Definition set_queue (l : list Song) (q : t) : t := mk l (_ordered_queue q).
Definition set_ordered (o : list entry) (q : t) : t := mk (_queue q) o.

(** [SongQueue()] *)
Definition empty : t := mk [] [].

Local Open Scope py_scope.

Definition clear_queue : M t unit := modify (fun _ => empty).

Definition insert_to_queue (index : Z) (song : Song) : M t unit :=
  modify (fun q => set_queue (py_insert (_queue q) index song) q) ;;;
  modify (fun q =>
            set_ordered (py_insert (_ordered_queue q) index (ESong song)) q).

Definition pop_from_queue (index : Z) : M t unit :=
  q <- gets id ;;
  s <- or_raise IndexError (py_getitem (_queue q) index) ;;
  o <- or_raise ValueError
         (py_remove (fun e => entry_eq_id e (song_id s)) (_ordered_queue q)) ;;
  modify (set_ordered o) ;;;
  l <- or_raise IndexError (py_pop (_queue q) index) ;;
  modify (set_queue l).

Definition append_to_queue (song : Song) : M t unit :=
  modify (fun q => set_queue (_queue q ++ [song]) q) ;;;
  modify (fun q => set_ordered (_ordered_queue q ++ [EId (song_id song)]) q).

(** The module-level random generator: [draws n] is the raw value behind
    the [n]-th call, [used] counts the calls made so far. *)
Record Random : Type := mkRandom {
  draws : nat -> nat;
  used : nat
}.

(** [random.choice(r)]: IndexError on an empty sequence. *)
Definition random_choice (r : list nat) : M Random nat :=
  fun g =>
    match r !! (draws g (used g) mod length r)%nat with
    | Some x => Ok x (mkRandom (draws g) (S (used g)))
    | None => Raise IndexError g
    end.

Definition on_queue {A} (m : M (list Song) A) : M (t * Random) A :=
  zoom (fun w => _queue (fst w)) (fun l w => (set_queue l (fst w), snd w)) m.
Definition on_random {A} (m : M Random A) : M (t * Random) A :=
  zoom snd (fun g w => (fst w, g)) m.

Definition shuffle_body (current_song_index : nat) (r : list nat) (i : nat)
    : M (t * Random) unit :=
  if (i =? current_song_index)%nat then ret tt
  else
    random_number <- on_random (random_choice r) ;;
    on_queue (swap_items i random_number).

Definition shuffle (current_song_index : nat) : M (t * Random) unit :=
  n <- gets (fun w => length (_queue (fst w))) ;;
  if (0 <? n)%nat then
    let r := seq 0 current_song_index
             ++ seq (S current_song_index) (n - S current_song_index) in
    for_each (seq 0 n) (shuffle_body current_song_index r)
  else ret tt.

(** [next(index for index, value in enumerate(queue)
          if value.song_id == e)]: StopIteration when no song matches. *)
Definition ordered_index_of (e : entry) (l : list Song) : option nat :=
  fst <$> list_find (fun s => entry_eq_id e (song_id s) = true) l.

Definition unshuffle_body (current_song_index : nat) (i : nat) : M t unit :=
  q <- gets id ;;
  e <- or_raise IndexError (_ordered_queue q !! i) ;;
  ordered_index <- or_raise StopIteration (ordered_index_of e (_queue q)) ;;
  if negb (i =? current_song_index)%nat
     && negb (ordered_index =? current_song_index)%nat
  then zoom _queue set_queue (swap_items i ordered_index)
  else ret tt.

Definition unshuffle (current_song_index : nat) : M t unit :=
  n <- gets (fun q => length (_queue q)) ;;
  if (0 <? n)%nat then for_each (seq 0 n) (unshuffle_body current_song_index)
  else ret tt.

(** The identifiers of the play-order list, as insertion-order entries. *)
Definition play_ids (q : t) : list entry :=
  (fun s => EId (song_id s)) <$> _queue q.
End SongQueue.

(** ** Player (player.py) *)

Module Player.
(** Where the thread running [stream_loop] stands. *)
Inductive phase : Type :=
| AtLoop    (* about to evaluate [while self._stream_loop_continue] *)
| Idle      (* in [_start_stream_flag.wait()] *)
| AtCond    (* about to evaluate the condition of the inner [while] *)
| AtWait    (* in [_play_pause.wait()], the packet at the cursor written *)
| Exited.   (* [stream_loop] has returned *)

Record t : Type := mk {
  _song_data : list (list byte);
  _song_data_length : Z;
  _current_index : Z;
  _last_index : Z;
  _stop : bool;
  _stream_has_started : bool;
  _stream_loop_continue : bool;
  _play_pause : bool;
  _start_stream_flag : bool;
  _end_of_stream_event : bool;
  _terminate_stream_event : bool;
  (* locals of [stream_loop] and its observable effects *)
  _previous_progress : Z;
  pc : phase;
  device : list (list byte);   (* packets given to [self._stream.write] *)
  progress_sent : list Z       (* arguments of [self.send_progress] *)
}.

Definition _STOP_CONDITION : list byte := encode "END_OF_FILE".

(** A player as [__init__] leaves it, with the events as
    [MediaPlayer.run] sets them. *)
Definition init : t :=
  mk [] 0 0 0 false false true false false false true (-1) AtLoop [] [].

Local Open Scope py_scope.

Definition set_song_data_length (length : Z) : M t unit :=
  modify (fun p =>
    mk (_song_data p) length (_current_index p) (length - 1) (_stop p)
       (_stream_has_started p) (_stream_loop_continue p) (_play_pause p)
       (_start_stream_flag p) (_end_of_stream_event p)
       (_terminate_stream_event p) (_previous_progress p) (pc p) (device p)
       (progress_sent p)).

Definition set_current_index (i : Z) (p : t) : t :=
  mk (_song_data p) (_song_data_length p) i (_last_index p) (_stop p)
     (_stream_has_started p) (_stream_loop_continue p) (_play_pause p)
     (_start_stream_flag p) (_end_of_stream_event p)
     (_terminate_stream_event p) (_previous_progress p) (pc p) (device p)
     (progress_sent p).

Definition set_pc (ph : phase) (p : t) : t :=
  mk (_song_data p) (_song_data_length p) (_current_index p) (_last_index p)
     (_stop p) (_stream_has_started p) (_stream_loop_continue p)
     (_play_pause p) (_start_stream_flag p) (_end_of_stream_event p)
     (_terminate_stream_event p) (_previous_progress p) ph (device p)
     (progress_sent p).

Definition set_progress (value : Z) : M t unit :=
  let value := if value <? 0 then 0 else if 1000 <? value then 1000 else value in
  p <- gets id ;;
  ratio <- or_raise_sum (PyFloat.truediv value 1000) ;;
  len <- or_raise_sum (PyFloat.of_int (_song_data_length p - 1)) ;;
  let index_from_percent := PyFloat.round (PyFloat.mul ratio len) in
  let index_from_percent :=
    if index_from_percent <? 0 then 0 else index_from_percent in
  modify (set_current_index index_from_percent).

Definition receive_packet (packet : list byte) : M t unit :=
  modify (fun p =>
    mk (_song_data p ++ [packet]) (_song_data_length p) (_current_index p)
       (_last_index p) (_stop p) (_stream_has_started p)
       (_stream_loop_continue p) (_play_pause p) (_start_stream_flag p)
       (_end_of_stream_event p) (_terminate_stream_event p)
       (_previous_progress p) (pc p) (device p) (progress_sent p)).

Definition _set_start_conditions (p : t) : t :=
  mk (_song_data p) (_song_data_length p) 0 (_last_index p) false true
     (_stream_loop_continue p) true (_start_stream_flag p)
     (_end_of_stream_event p) (_terminate_stream_event p)
     (_previous_progress p) (pc p) (device p) (progress_sent p).

Definition _set_end_conditions (p : t) : t :=
  mk [] (_song_data_length p) 0 (_last_index p) (_stop p) false
     (_stream_loop_continue p) (_play_pause p) (_start_stream_flag p)
     (_end_of_stream_event p) true (_previous_progress p) (pc p) (device p)
     (progress_sent p).

Definition start_stream : M t unit :=
  modify (fun p =>
    mk (_song_data p) (_song_data_length p) (_current_index p)
       (_last_index p) (_stop p) (_stream_has_started p)
       (_stream_loop_continue p) true true (_end_of_stream_event p) false
       (_previous_progress p) (pc p) (device p) (progress_sent p)).

Definition terminate_stream : M t unit :=
  modify (fun p =>
    mk (_song_data p) (_song_data_length p) (_current_index p)
       (_last_index p) true (_stream_has_started p)
       (_stream_loop_continue p) true (_start_stream_flag p)
       (_end_of_stream_event p) (_terminate_stream_event p)
       (_previous_progress p) (pc p) (device p) (progress_sent p)).

(** The part of the loop body before [_play_pause.wait()]: the packet at
    the cursor goes to the device, the progress is computed and sent when
    it changed. *)
Definition play_packet (packet : list byte) : M t unit :=
  p <- gets id ;;
  let p := mk (_song_data p) (_song_data_length p) (_current_index p)
              (_last_index p) (_stop p) (_stream_has_started p)
              (_stream_loop_continue p) (_play_pause p)
              (_start_stream_flag p) (_end_of_stream_event p)
              (_terminate_stream_event p) (_previous_progress p) (pc p)
              (device p ++ [packet]) (progress_sent p) in
  modify (fun _ => p) ;;;
  x <- or_raise_sum (PyFloat.truediv (_current_index p * 1000) (_last_index p)) ;;
  let progress_from_index := PyFloat.round x in
  if progress_from_index =? _previous_progress p then ret tt
  else
    modify (fun p =>
      mk (_song_data p) (_song_data_length p) (_current_index p)
         (_last_index p) (_stop p) (_stream_has_started p)
         (_stream_loop_continue p) (_play_pause p) (_start_stream_flag p)
         (_end_of_stream_event p) (_terminate_stream_event p)
         progress_from_index (pc p) (device p)
         (progress_sent p ++ [progress_from_index])).

(** One step of the thread that runs [stream_loop]; the other threads act
    between steps.  A step that finds the thread blocked (an event not
    set) or the buffer not yet filled (IndexError, caught, then
    [time.sleep(0.01)]) leaves the state as it is.  Errors of the audio
    device are not modelled. *)
Definition stream_step : M t unit :=
  p <- gets id ;;
  match pc p with
  | Exited => ret tt
  | AtLoop =>
      if _stream_loop_continue p then modify (set_pc Idle)
      else modify (set_pc Exited)
  | Idle =>
      if negb (_start_stream_flag p) then ret tt
      else
        modify (fun p =>
          mk (_song_data p) (_song_data_length p) (_current_index p)
             (_last_index p) (_stop p) (_stream_has_started p)
             (_stream_loop_continue p) (_play_pause p) false
             (_end_of_stream_event p) (_terminate_stream_event p)
             (-1) (pc p) (device p) (progress_sent p)) ;;;
        modify _set_start_conditions ;;;
        p <- gets id ;;
        if negb (_stream_loop_continue p) then modify (set_pc Exited)
        else modify (set_pc AtCond)
  | AtCond =>
      if _stop p then
        modify _set_end_conditions ;;; modify (set_pc AtLoop)
      else
        match py_getitem (_song_data p) (_current_index p) with
        | None => ret tt
        | Some packet =>
            if decide (packet = _STOP_CONDITION) then
              modify _set_end_conditions ;;; modify (set_pc AtLoop)
            else play_packet packet ;;; modify (set_pc AtWait)
        end
  | AtWait =>
      if negb (_play_pause p) then ret tt
      else
        modify (set_current_index (_current_index p + 1)) ;;;
        modify (set_pc AtCond) ;;;
        match py_getitem (_song_data p) (_current_index p + 1) with
        | None => ret tt
        | Some packet =>
            if decide (packet = _STOP_CONDITION) then
              modify (fun p =>
                mk (_song_data p) (_song_data_length p) (_current_index p)
                   (_last_index p) (_stop p) (_stream_has_started p)
                   (_stream_loop_continue p) (_play_pause p)
                   (_start_stream_flag p) true (_terminate_stream_event p)
                   (_previous_progress p) (pc p) (device p)
                   (progress_sent p))
            else ret tt
        end
  end.

(** [k] consecutive steps of the player thread. *)
Fixpoint stream_steps (k : nat) : M t unit :=
  match k with
  | O => ret tt
  | S k' => stream_step ;;; stream_steps k'
  end.

Definition set_play_pause (b : bool) (p : t) : t :=
  mk (_song_data p) (_song_data_length p) (_current_index p) (_last_index p)
     (_stop p) (_stream_has_started p) (_stream_loop_continue p) b
     (_start_stream_flag p) (_end_of_stream_event p)
     (_terminate_stream_event p) (_previous_progress p) (pc p) (device p)
     (progress_sent p).

Definition exit_stream_loop : M t unit :=
  modify (fun p =>
    mk (_song_data p) (_song_data_length p) (_current_index p)
       (_last_index p) (_stop p) (_stream_has_started p) false
       (_play_pause p) true (_end_of_stream_event p)
       (_terminate_stream_event p) (_previous_progress p) (pc p) (device p)
       (progress_sent p)).

Definition pause : M t unit := modify (set_play_pause false).
Definition play : M t unit := modify (set_play_pause true).
Definition get_play_state : M t bool := gets _play_pause.

Definition change_play_state : M t bool :=
  p <- gets id ;;
  (if _play_pause p then modify (set_play_pause false)
   else modify (set_play_pause true)) ;;;
  gets _play_pause.
End Player.

(** ** MediaPlayer (mediaplayer.py) *)

Module MediaPlayer.
Record t : Type := mk {
  _player : Player.t;
  _queue : SongQueue.t;
  _stream_client : Socket.t;
  _current_song_index : Z;
  _start_read_flag : bool;
  _currently_reading : bool;
  _reconnect : bool;
  window : list (Song * Z)   (* last argument of [send_queue_info] *)
}.

(** [self._currently_streaming] is the event handed to the player by
    [on_stream_terminate]: one object, read here and set by the player. *)
Definition _currently_streaming (mp : t) : bool :=
  Player._terminate_stream_event (_player mp).

Definition set_player (p : Player.t) (mp : t) : t :=
  mk p (_queue mp) (_stream_client mp) (_current_song_index mp)
     (_start_read_flag mp) (_currently_reading mp) (_reconnect mp) (window mp).
Definition set_songs (l : list Song) (mp : t) : t :=
  mk (_player mp) (SongQueue.set_queue l (_queue mp)) (_stream_client mp)
     (_current_song_index mp) (_start_read_flag mp) (_currently_reading mp)
     (_reconnect mp) (window mp).
Definition set_stream_client (c : Socket.t) (mp : t) : t :=
  mk (_player mp) (_queue mp) c (_current_song_index mp)
     (_start_read_flag mp) (_currently_reading mp) (_reconnect mp) (window mp).
Definition set_window (w : list (Song * Z)) (mp : t) : t :=
  mk (_player mp) (_queue mp) (_stream_client mp) (_current_song_index mp)
     (_start_read_flag mp) (_currently_reading mp) (_reconnect mp) w.
Definition set_reading (start_read_flag currently_reading : bool) (mp : t) : t :=
  mk (_player mp) (_queue mp) (_stream_client mp) (_current_song_index mp)
     start_read_flag currently_reading (_reconnect mp) (window mp).
Definition set_reconnect (b : bool) (mp : t) : t :=
  mk (_player mp) (_queue mp) (_stream_client mp) (_current_song_index mp)
     (_start_read_flag mp) (_currently_reading mp) b (window mp).

Definition songs (mp : t) : list Song := SongQueue._queue (_queue mp).

Definition on_player {A} (m : M Player.t A) : M t A := zoom _player set_player m.
Definition on_stream_client {A} (m : M Socket.t A) : M t A :=
  zoom _stream_client set_stream_client m.

Local Open Scope py_scope.

(** The first index [display_queue] shows: the song after the current one
    while a stream is running, the current one otherwise. *)
Definition queue_start (self_display : bool) (mp : t) : Z :=
  if negb (_currently_streaming mp) || self_display
  then _current_song_index mp + 1
  else _current_song_index mp.

Definition display_queue (self_display : bool) : M t unit :=
  mp <- gets id ;;
  let start := queue_start self_display mp in
  results <- or_raise IndexError
    (mapM (fun song_index =>
             s ← py_getitem (songs mp) song_index; Some (s, song_index))
          (py_range start (Z.of_nat (length (songs mp))))) ;;
  modify (set_window results).

(** [q[i], q[j] = (q[j], q[i])] through [SongQueue.__getitem__] and
    [__setitem__] *)
Definition exchange (i j : Z) : M t unit :=
  mp <- gets id ;;
  a <- or_raise IndexError (py_getitem (songs mp) j) ;;
  b <- or_raise IndexError (py_getitem (songs mp) i) ;;
  l <- or_raise IndexError (py_setitem (songs mp) i a) ;;
  modify (set_songs l) ;;;
  l <- or_raise IndexError (py_setitem l j b) ;;
  modify (set_songs l).

Definition move_up (song_index : Z) : M t unit :=
  mp <- gets id ;;
  let start := queue_start false mp in
  if start <? song_index then
    exchange song_index (song_index - 1) ;;; display_queue false
  else ret tt.

Definition move_down (song_index : Z) : M t unit :=
  mp <- gets id ;;
  if song_index <? Z.of_nat (length (songs mp)) - 1 then
    exchange song_index (song_index + 1) ;;; display_queue false
  else ret tt.

Definition streaming_tcp_send (data : list byte) (bufsize : nat) : M t unit :=
  on_stream_client (Socket.tcp_send RuntimeError data bufsize).
Definition streaming_tcp_recv (bufsize : nat) : M t (list byte) :=
  on_stream_client (Socket.tcp_recv RuntimeError bufsize).

(** [for i in range(song_data_length): ...] of [_read_from_server], with
    its [break]. *)
Fixpoint read_frames (remaining : nat) : M t unit :=
  match remaining with
  | O => ret tt
  | S remaining' =>
      current_type <- streaming_tcp_recv 4 ;;
      if decide (current_type = encode "data") then
        current_packet <- streaming_tcp_recv 4096 ;;
        on_player (Player.receive_packet current_packet) ;;;
        read_frames remaining'
      else if decide (current_type = encode "exit") then ret tt
      else read_frames remaining'
  end.

(** One pass of the loop of [_read_from_server], from the moment
    [_start_read_flag] is seen set. *)
Definition _read_from_server : M t unit :=
  modify (set_reading false false) ;;;
  finally
    (try_except is_ConnectionResetError
       (song_data_length_bytes <- streaming_tcp_recv 4 ;;
        let song_data_length := from_bytes song_data_length_bytes in
        on_player (Player.set_song_data_length song_data_length) ;;;
        read_frames (Z.to_nat song_data_length))
       (modify (set_reconnect true)))
    (on_player (Player.receive_packet (encode "END_OF_FILE")) ;;;
     mp <- gets id ;;
     modify (set_reading (_start_read_flag mp) true)).

Definition set_song_queue (q : SongQueue.t) (mp : t) : t :=
  mk (_player mp) q (_stream_client mp) (_current_song_index mp)
     (_start_read_flag mp) (_currently_reading mp) (_reconnect mp) (window mp).
Definition set_current_song_index (i : Z) (mp : t) : t :=
  mk (_player mp) (_queue mp) (_stream_client mp) i
     (_start_read_flag mp) (_currently_reading mp) (_reconnect mp) (window mp).

Definition on_song_queue {A} (m : M SongQueue.t A) : M t A :=
  zoom _queue set_song_queue m.

(** The message printed for an IndexError is not part of the state. *)
Definition remove_from_queue (song_index : Z) : M t unit :=
  try_except is_IndexError
    (on_song_queue (SongQueue.pop_from_queue song_index))
    (ret tt) ;;;
  display_queue false.

Definition delete_queue : M t unit :=
  mp <- gets id ;;
  (if negb (_currently_streaming mp) && negb (bool_decide (songs mp = [])) then
     current_song <- or_raise IndexError
                       (py_getitem (songs mp) (_current_song_index mp)) ;;
     on_song_queue SongQueue.clear_queue ;;;
     on_song_queue (SongQueue.append_to_queue current_song) ;;;
     modify (set_current_song_index 0)
   else if _currently_streaming mp && negb (bool_decide (songs mp = [])) then
     on_song_queue SongQueue.clear_queue
   else ret tt) ;;;
  display_queue false.

Definition add_playlist_songs_to_queue (playlist_songs : list Song)
    : M t unit :=
  for_each playlist_songs
    (fun song => on_song_queue (SongQueue.append_to_queue song)) ;;;
  display_queue false.

Definition add_to_queue (song : Song) : M t unit :=
  on_song_queue (SongQueue.append_to_queue song) ;;;
  display_queue false.

(** [set_progress], [play], [pause], [get_play_state] and
    [change_play_state] hand the call to the player. *)
Definition set_progress (value : Z) : M t unit :=
  on_player (Player.set_progress value).
Definition change_play_state : M t bool :=
  on_player Player.change_play_state.

(** [MediaPlayer._seconds_to_string], on the finite float that
    [_send_progress] gives it. *)
Definition _seconds_to_string (seconds : Q) : string :=
  let minutes := PyFloat.int (PyFloat.binary64 (seconds / 60)) in
  let seconds := PyFloat.int (PyFloat.rem seconds 60) in
  String.append (format_02d minutes) (String.append ":" (format_02d seconds)).

(** [_send_progress] returns what it hands to [send_progress_info].  A
    product beyond the range of floats is infinite, and
    [_seconds_to_string] raises OverflowError when it converts it. *)
Definition _send_progress (progress : Z) : M t (Z * string) :=
  mp <- gets id ;;
  s <- or_raise IndexError (py_getitem (songs mp) (_current_song_index mp)) ;;
  let duration_sec := duration s in
  ratio <- or_raise_sum (PyFloat.truediv progress 1000) ;;
  d <- or_raise_sum (PyFloat.of_int duration_sec) ;;
  let current_time_sec := PyFloat.mul d ratio in
  if PyFloat.overflows current_time_sec then raise OverflowError
  else ret (progress, _seconds_to_string current_time_sec).

(** [exit] up to the wait for the player thread: the two requests to
    the player. *)
Definition exit_requests : M t unit :=
  on_player Player.exit_stream_loop ;;;
  on_player Player.terminate_stream.
End MediaPlayer.

(** ** Calls that wait for another thread

    [Event.wait()] returns once the event is set, and never if it is not
    set.  A computation that waits ends as any other does, or it blocks
    for ever, in some state. *)

Inductive blocking (S A : Type) : Type :=
  | Ends (o : outcome S A)
  | Blocks (s : S).
Arguments Ends {S A} o.
Arguments Blocks {S A} s.

Definition MB (S A : Type) : Type := S -> blocking S A.

(** A computation that does not wait. *)
Definition run {S A} (m : M S A) : MB S A := fun s => Ends (m s).

Definition bind_wait {S A A'} (m : MB S A) (f : A -> MB S A') : MB S A' :=
  fun s => match m s with
           | Ends (Ok a s') => f a s'
           | Ends (Raise e s') => Ends (Raise e s')
           | Blocks s' => Blocks s'
           end.

(** The state in which a computation ends or blocks. *)
Definition left_in {S A} (b : blocking S A) : S :=
  match b with Ends o => final o | Blocks s => s end.

Declare Scope wait_scope.
Delimit Scope wait_scope with wait.
Notation "x <- m ;; k" := (bind_wait m (fun x => k))
  (at level 200, m at level 99, right associativity) : wait_scope.
Notation "m ;;; k" := (bind_wait m (fun _ => k))
  (at level 200, right associativity) : wait_scope.

(** ** MediaPlayer: choosing and starting a song (mediaplayer.py)

    The attributes of [MediaPlayer] that the queue operations above do not
    use, the calls it makes through its callbacks, and the methods that
    start a song.  [start_song] waits twice for other threads, for the
    reader to end its pass and for the player to end its stream: each
    wait returns if the event is set once the other threads have run, and
    blocks if it is not.  What the other threads do meanwhile is a
    parameter. *)

Module MediaPlayerControl.
Record t : Type := mk {
  mediaplayer : MediaPlayer.t;
  _repeat_state : Z;
  _connected : option bool;
  (* window.py: [RepeatButton._state] *)
  repeat_button : Z;
  (* calls of [terminate_song_data_recv_request] *)
  terminate_requests : nat;
  (* last arguments of the calls of [send_current_song_update] *)
  song_updates : list Song
}.

Definition set_mediaplayer (mp : MediaPlayer.t) (a : t) : t :=
  mk mp (_repeat_state a) (_connected a) (repeat_button a)
     (terminate_requests a) (song_updates a).

Definition on_mediaplayer {A} (m : M MediaPlayer.t A) : M t A :=
  zoom mediaplayer set_mediaplayer m.

Definition songs (a : t) : list Song := MediaPlayer.songs (mediaplayer a).
Definition _current_song_index (a : t) : Z :=
  MediaPlayer._current_song_index (mediaplayer a).

(** Truth value of [self._connected], which is None, False or True. *)
Definition connected (a : t) : bool :=
  match _connected a with Some true => true | _ => false end.

Local Open Scope py_scope.

Definition set_repeat_state (state : Z) : M t unit :=
  modify (fun a =>
    mk (mediaplayer a) state (_connected a) (repeat_button a)
       (terminate_requests a) (song_updates a)).

(** [RepeatButton.set_repeat_many_off], [set_repeat_many_on] and
    [set_repeat_one] of window.py: the state of the button, then the
    event "repeat_state", to which [Controller._set_repeat_state]
    listens and which it hands to [set_repeat_state]. *)
Definition button_set_repeat (state : Z) : M t unit :=
  modify (fun a =>
    mk (mediaplayer a) (_repeat_state a) (_connected a) state
       (terminate_requests a) (song_updates a)) ;;;
  set_repeat_state state.

(** [RepeatButton.change_state] *)
Definition button_change_state : M t Z :=
  a <- gets id ;;
  let state := if repeat_button a =? 2 then 0 else repeat_button a + 1 in
  modify (fun a =>
    mk (mediaplayer a) (_repeat_state a) (_connected a) state
       (terminate_requests a) (song_updates a)) ;;;
  ret state.

(** [RepeatButton.set_state(state)]; [None] is the click, without
    argument.  A state of 0 is taken for no state. *)
Definition button_set_state (state : option Z) : M t unit :=
  current_state <-
    match state with
    | Some s => if s =? 0 then button_change_state else ret s
    | None => button_change_state
    end ;;
  if current_state =? 0 then button_set_repeat 0
  else if current_state =? 1 then button_set_repeat 1
  else button_set_repeat 2.

(** The callback [update_repeat_state]: [Controller.update_repeat_state]
    calls [Window.update_repeat_state], which sets the button. *)
Definition update_repeat_state (state : Z) : M t unit :=
  button_set_state (Some state).

Definition _terminate_read : M t unit :=
  a <- gets id ;;
  if negb (MediaPlayer._currently_reading (mediaplayer a)) then
    modify (fun a =>
      mk (mediaplayer a) (_repeat_state a) (_connected a) (repeat_button a)
         (S (terminate_requests a)) (song_updates a))
  else ret tt.

Definition _start_read : M t unit :=
  on_mediaplayer (modify (MediaPlayer.set_reading true false)).

Definition _current_song_update : M t unit :=
  a <- gets id ;;
  song <- or_raise IndexError (py_getitem (songs a) (_current_song_index a)) ;;
  modify (fun a =>
    mk (mediaplayer a) (_repeat_state a) (_connected a) (repeat_button a)
       (terminate_requests a) (song_updates a ++ [song])).

(** [event.wait()]: [others] is what the other threads do to the state
    from the call until the event is set, or for good if it never is. *)
Definition wait (event : t -> bool) (others : t -> t) : MB t unit :=
  fun a => if event (others a) then Ends (Ok tt (others a))
           else Blocks (others a).

Definition currently_reading (a : t) : bool :=
  MediaPlayer._currently_reading (mediaplayer a).
Definition currently_streaming (a : t) : bool :=
  MediaPlayer._currently_streaming (mediaplayer a).

(** The [try] statement of [start_song]. *)
Definition request_song : M t unit :=
  try_except is_ConnectionResetError
    (a <- gets id ;;
     song <- or_raise IndexError
               (py_getitem (songs a) (_current_song_index a)) ;;
     let request_song_id := song_id song in
     request_song_id_bytes <-
       or_raise OverflowError (to_bytes4 request_song_id) ;;
     on_mediaplayer
       (MediaPlayer.streaming_tcp_send request_song_id_bytes 4) ;;;
     _start_read ;;;
     on_mediaplayer (MediaPlayer.on_player Player.start_stream) ;;;
     _current_song_update ;;;
     on_mediaplayer (MediaPlayer.display_queue true))
    (on_mediaplayer (modify (MediaPlayer.set_reconnect true))).


Definition set_index (i : Z) : M t unit :=
  on_mediaplayer (modify (MediaPlayer.set_current_song_index i)).

Section Threads.
(** What the other threads do while [start_song] waits for the reader
    ([_currently_reading.wait()]), respectively for the player
    ([_currently_streaming.wait()]). *)
Variables wait_reading wait_streaming : t -> t.

Definition start_song : MB t unit :=
  (a <- run (gets id) ;;
   if negb (bool_decide (songs a = [])) && connected a then
     run _terminate_read ;;;
     wait currently_reading wait_reading ;;;
     run (on_mediaplayer (MediaPlayer.on_player Player.terminate_stream)) ;;;
     wait currently_streaming wait_streaming ;;;
     run request_song
   else run (ret tt))%wait.


Definition next_song (repeat_one : bool) : MB t unit :=
  (a <- run (gets id) ;;
   if negb (bool_decide (songs a = [])) then
     run (if (_repeat_state a =? 2) && negb repeat_one
          then update_repeat_state 1 else ret tt) ;;;
     a <- run (gets id) ;;
     let last := Z.of_nat (length (songs a)) - 1 in
     if repeat_one then start_song
     else if _repeat_state a =? 0 then
       run (if negb (_current_song_index a =? last)
            then set_index (_current_song_index a + 1) else ret tt) ;;;
       start_song
     else if _repeat_state a =? 1 then
       run (if _current_song_index a =? last
            then set_index 0 else set_index (_current_song_index a + 1)) ;;;
       start_song
     else run (ret tt)
   else run (ret tt))%wait.

Definition previous_song : MB t unit :=
  (a <- run (gets id) ;;
   run (if _repeat_state a =? 2 then update_repeat_state 1 else ret tt) ;;;
   a <- run (gets id) ;;
   run (if negb (bool_decide (songs a = []))
           && negb (_current_song_index a =? 0)
        then set_index (_current_song_index a - 1) else ret tt) ;;;
   start_song)%wait.

(** [_auto_next_song], one pass from the moment the end-of-stream
    event is seen set to its clearing. *)
Definition _auto_next_song : MB t unit :=
  (a <- run (gets id) ;;
   (if _repeat_state a =? 2 then next_song true else next_song false) ;;;
   run (on_mediaplayer
    (MediaPlayer.on_player
       (modify (fun p =>
          Player.mk (Player._song_data p) (Player._song_data_length p)
            (Player._current_index p) (Player._last_index p)
            (Player._stop p) (Player._stream_has_started p)
            (Player._stream_loop_continue p) (Player._play_pause p)
            (Player._start_stream_flag p) false
            (Player._terminate_stream_event p)
            (Player._previous_progress p) (Player.pc p) (Player.device p)
            (Player.progress_sent p))))))%wait.
End Threads.
End MediaPlayerControl.

(** ** ClientHandler (clienthandler.py) *)

Module ClientHandler.
(** A WAV file as the [wave] module presents it. *)
Record Wave : Type := mkWave {
  nchannels : nat;
  sampwidth : nat;
  pcm : list byte
}.

Definition framesize (w : Wave) : nat := (nchannels w * sampwidth w)%nat.
Definition getnframes (w : Wave) : Z :=
  Z.of_nat (length (pcm w) / framesize w).

(** [readframes(n)] on a reader whose unread data is [rest]: the next
    [n] frames, or what is left of the file. *)
Definition readframes (w : Wave) (n : nat) (rest : list byte)
    : list byte * list byte :=
  (take (n * framesize w) rest, drop (n * framesize w) rest).

Record t : Type := mk {
  _streaming_socket : Socket.t;
  _communication_socket : Socket.t;
  _stop_send : bool;
  (* rows of the [songs] table with the audio file each one names *)
  songs : list (Z * Wave);
  (* the control loop: whether it ran [_terminate_song_data_send] since
     the audio loop last read [_stop_send], per read *)
  terminate_requested : nat -> bool;
  reads : nat
}.

Definition _chunk : nat := 1024.

Definition set_streaming_socket (s : Socket.t) (h : t) : t :=
  mk s (_communication_socket h) (_stop_send h) (songs h)
     (terminate_requested h) (reads h).
Definition set_communication_socket (s : Socket.t) (h : t) : t :=
  mk (_streaming_socket h) s (_stop_send h) (songs h)
     (terminate_requested h) (reads h).
Definition set_stop_send (b : bool) (h : t) : t :=
  mk (_streaming_socket h) (_communication_socket h) b (songs h)
     (terminate_requested h) (reads h).

Local Open Scope py_scope.

Definition streaming_tcp_send (data : list byte) (buf_size : nat) : M t unit :=
  zoom _streaming_socket set_streaming_socket
    (Socket.tcp_send ConnectionResetError data buf_size).
Definition communication_tcp_send (data : list byte) (buf_size : nat)
    : M t unit :=
  zoom _communication_socket set_communication_socket
    (Socket.tcp_send ConnectionResetError data buf_size).

(** The audio loop reads [self._stop_send]: it sees the flag set if it
    was left set or the control loop has set it since the last read. *)
Definition read_stop_send : M t bool :=
  fun h =>
    let v := _stop_send h || terminate_requested h (reads h) in
    Ok v (mk (_streaming_socket h) (_communication_socket h) v (songs h)
             (terminate_requested h) (S (reads h))).

(** [fetchone()] of the query by song id, the file opened, and
    [int(getnframes() / self._chunk)]. *)
Definition _get_song_and_length (song_id : Z) : M t (option (Wave * Z)) :=
  h <- gets id ;;
  match List.find (fun row => fst row =? song_id) (songs h) with
  | Some (_, song_bytes) =>
      x <- or_raise_sum (PyFloat.truediv (getnframes song_bytes) (Z.of_nat _chunk)) ;;
      ret (Some (song_bytes, PyFloat.int x))
  | None => ret None
  end.

(** The [while len(current_packet) == self._chunk * 4] loop.  Every pass
    reads a full packet from the file, so the length of the file bounds
    the passes. *)
Fixpoint send_packets (fuel : nat) (song_bytes : Wave)
    (current_packet rest : list byte) : M t unit :=
  match fuel with
  | O => ret tt
  | S fuel' =>
      if (length current_packet =? _chunk * 4)%nat then
        stop <- read_stop_send ;;
        if stop then
          modify (set_stop_send false) ;;;
          streaming_tcp_send (encode "exit") 4
        else
          streaming_tcp_send (encode "data") 4 ;;;
          streaming_tcp_send current_packet 4096 ;;;
          let '(current_packet, rest) := readframes song_bytes _chunk rest in
          send_packets fuel' song_bytes current_packet rest
      else ret tt
  end.

Definition _send_song_data (song_id : Z) : M t unit :=
  song_and_length <- _get_song_and_length song_id ;;
  match song_and_length with
  | Some (song_bytes, song_data_length) =>
      song_data_length_bytes <- or_raise OverflowError (to_bytes4 song_data_length) ;;
      streaming_tcp_send song_data_length_bytes 4 ;;;
      let '(current_packet, rest) := readframes song_bytes _chunk (pcm song_bytes) in
      send_packets (S (length (pcm song_bytes))) song_bytes current_packet rest
  | None =>
      song_data_length_bytes <- or_raise OverflowError (to_bytes4 0) ;;
      streaming_tcp_send song_data_length_bytes 4
  end.

(** A static method: no state, only the exception the float division
    could raise. *)
Definition slice_song_bytes (serialized_song : list byte)
    : exn + (list (list byte) * Z) :=
  let chunk := 1024%nat in
  let serialized_song_length := length serialized_song in
  match PyFloat.truediv (Z.of_nat serialized_song_length) (Z.of_nat chunk) with
  | inl e => inl e
  | inr x =>
      let data_length := PyFloat.ceil x in
      let data := (fun i => take chunk (drop i serialized_song))
                    <$> py_range3 0 serialized_song_length chunk in
      inr (data, data_length)
  end.

(** The body of the loop over the rows in [_search_for_song], from the
    pickled song on. *)
Definition send_serialized_song (serialized_song : list byte) : M t unit :=
  sliced <- or_raise_sum (slice_song_bytes serialized_song) ;;
  let '(data, data_length) := sliced in
  data_length_bytes <- or_raise OverflowError (to_bytes4 data_length) ;;
  communication_tcp_send data_length_bytes 4 ;;;
  for_each (py_range 0 (data_length - 1)) (fun i =>
    d <- or_raise IndexError (py_getitem data i) ;;
    communication_tcp_send d 1024) ;;;
  last <- or_raise IndexError (py_getitem data (-1)) ;;
  let last_packet_length := Z.of_nat (length last) in
  last_packet_length_bytes <- or_raise OverflowError (to_bytes4 last_packet_length) ;;
  communication_tcp_send last_packet_length_bytes 4 ;;;
  communication_tcp_send last (length last).

(** [_search_for_song] once the query has returned: [results] are the
    rows found, each already pickled with its image. *)
Definition _search_for_song (results : list (list byte)) : M t unit :=
  number_of_songs_found_bytes <-
    or_raise OverflowError (to_bytes4 (Z.of_nat (length results))) ;;
  communication_tcp_send number_of_songs_found_bytes 4 ;;;
  for_each results send_serialized_song.
End ClientHandler.

(** ** Controller (controller.py) *)

Module Controller.
Record t : Type := mk {
  _controller_client : Socket.t
}.

Local Open Scope py_scope.

Definition communication_tcp_recv (bufsize : nat) : M t (list byte) :=
  zoom _controller_client (fun s _ => mk s) (Socket.tcp_recv RuntimeError bufsize).

(** [for j in range(data_length - 1): serialized_song += recv(1024)] *)
Fixpoint recv_chunks (n : nat) (serialized_song : list byte)
    : M t (list byte) :=
  match n with
  | O => ret serialized_song
  | S n' =>
      c <- communication_tcp_recv 1024 ;;
      recv_chunks n' (serialized_song ++ c)
  end.

(** The body of the loop over the songs in [_search_request_handler], up
    to the unpickling. *)
Definition recv_serialized_song : M t (list byte) :=
  data_length_bytes <- communication_tcp_recv 4 ;;
  let data_length := from_bytes data_length_bytes in
  serialized_song <- recv_chunks (Z.to_nat (data_length - 1)) [] ;;
  last_packet_length_bytes <- communication_tcp_recv 4 ;;
  let last_packet_length := from_bytes last_packet_length_bytes in
  c <- communication_tcp_recv (Z.to_nat last_packet_length) ;;
  ret (serialized_song ++ c).

Fixpoint recv_songs (n : nat) (results : list (list byte))
    : M t (list (list byte)) :=
  match n with
  | O => ret results
  | S n' =>
      s <- recv_serialized_song ;;
      recv_songs n' (results ++ [s])
  end.

(** The receiving half of [_search_request_handler]. *)
Definition recv_search_results : M t (list (list byte)) :=
  number_of_songs_bytes <- communication_tcp_recv 4 ;;
  let number_of_songs := from_bytes number_of_songs_bytes in
  if 0 <? number_of_songs then recv_songs (Z.to_nat number_of_songs) []
  else ret [].
End Controller.

(** ** Vocabulary of the properties *)

(** *** Queue *)

Module QueueSpec.
Import SongQueue.

Definition entry_of (s : Song) : entry := EId (song_id s).

(** The insertion-order list holds exactly the identifiers of the
    play-order list, as multisets. *)
Definition queue_invariant (q : t) : Prop :=
  play_ids q ≡ₚ _ordered_queue q.

Inductive op : Type :=
| Append (s : Song)
| InsertAt (index : Z) (s : Song)
| PopAt (index : Z).

Definition run_op (o : op) : M t unit :=
  match o with
  | Append s => append_to_queue s
  | InsertAt i s => insert_to_queue i s
  | PopAt i => pop_from_queue i
  end.

(** A sequence of calls; a call that raises leaves the queue as it was
    at the raise and the next call goes on from there. *)
Definition run_ops (os : list op) (q : t) : t :=
  foldl (fun q o => final (run_op o q)) q os.

(** Position [i] of [q'] holds the song that the insertion order of [q]
    names at [i]. *)
Definition restored_at (q q' : t) (i : nat) : Prop :=
  entry_of <$> _queue q' !! i = _ordered_queue q !! i.

(** The property of [unshuffle] as the specification words it: all
    positions are restored but [k] and the position [p] that held the
    song named by the insertion order at [k]. *)
Definition unshuffle_restores_but_held (q : t) (k : nat) : Prop :=
  NoDup (song_id <$> _queue q) ->
  play_ids q ≡ₚ _ordered_queue q ->
  (k < length (_queue q))%nat ->
  forall p, entry_of <$> _queue q !! p = _ordered_queue q !! k ->
  forall i, (i < length (_queue q))%nat -> i <> k -> i <> p ->
            restored_at q (final (unshuffle k q)) i.

(** What the loop of [shuffle] keeps true of the queue and the generator
    it runs on. *)
Definition shuffle_inv (q : t) (k : nat) (w : t * Random) : Prop :=
  _ordered_queue (fst w) = _ordered_queue q
  /\ _queue (fst w) ≡ₚ _queue q
  /\ _queue (fst w) !! k = _queue q !! k.

(** [q'] has the insertion order of [q] and a permutation of its play
    order. *)
Definition permuted (q q' : t) : Prop :=
  _ordered_queue q' = _ordered_queue q /\ _queue q' ≡ₚ _queue q.

(** What holds in [unshuffle k] before position [i] is treated, [c] being
    the current song and [m] its place in the insertion order. *)
Definition unshuffle_inv (q : t) (k m : nat) (c : Song) (i : nat) (q1 : t)
    : Prop :=
  _ordered_queue q1 = _ordered_queue q
  /\ _queue q1 ≡ₚ _queue q
  /\ _queue q1 !! k = Some c
  /\ forall j, (j < i)%nat -> j <> k -> j <> m -> restored_at q q1 j.
End QueueSpec.

(** *** Moving songs in the queue *)

Module MoveSpec.
Import MediaPlayer.

(** The songs before the head of the displayed queue stay where they
    are. *)
Definition history_kept (mp mp' : t) : Prop :=
  forall j : nat, Z.of_nat j < queue_start false mp ->
                  songs mp' !! j = songs mp !! j.

(** The property as the specification words it, for both directions and
    every index. *)
Definition moves_keep_history (mp : t) (song_index : Z) : Prop :=
  history_kept mp (final (move_up song_index mp))
  /\ history_kept mp (final (move_down song_index mp)).
End MoveSpec.

(** *** Progress *)

Definition clamp_progress (value : Z) : Z :=
  if value <? 0 then 0 else if 1000 <? value then 1000 else value.

(** The cursor [set_progress] computes for a song of [n] frames. *)
Definition index_from_percent (n value : Z) : Z :=
  let ratio := PyFloat.binary64 (inject_Z (clamp_progress value) / inject_Z 1000) in
  let i := PyFloat.round (PyFloat.mul ratio (inject_Z (n - 1))) in
  if i <? 0 then 0 else i.

(** The cursor after [set_progress value]. *)
Definition cursor_after (value : Z) (p : Player.t) : Z :=
  Player._current_index (final (Player.set_progress value p)).

(** *** Transfers *)

(** What a transfer does to a connection end. *)
Definition wrote (s s' : Socket.t) (data : list byte) : Prop :=
  Socket.outbox s' = Socket.outbox s ++ data
  /\ Socket.inbox s' = Socket.inbox s
  /\ Socket.grant s' = Socket.grant s.

Definition consumed (s s' : Socket.t) (data : list byte) : Prop :=
  Socket.inbox s = data ++ Socket.inbox s'
  /\ Socket.outbox s' = Socket.outbox s
  /\ Socket.grant s' = Socket.grant s.

(** One frame on the audio channel: the type tag, then the packet. *)
Definition frame (packet : list byte) : list byte := encode "data" ++ packet.

(** The first [n] packets of 4096 bytes of [data]. *)
Fixpoint packets_of (n : nat) (data : list byte) : list (list byte) :=
  match n with
  | O => []
  | S n' => take 4096 data :: packets_of n' (drop 4096 data)
  end.

(** The complete packets of an audio file. *)
Definition full_packets (data : list byte) : list (list byte) :=
  packets_of (length data / 4096) data.

(** Whether the audio loop sees the stop flag set at its [i]-th read from
    now on, the earlier ones having seen it clear. *)
Definition stop_seen_at (h : ClientHandler.t) (i : nat) : bool :=
  (if (i =? 0)%nat then ClientHandler._stop_send h else false)
  || ClientHandler.terminate_requested h (ClientHandler.reads h + i).

(** The audio connection of a handler wrote [data]; the stop flag and the
    count of its reads apart, nothing else changed. *)
Definition streamed (h h' : ClientHandler.t) (data : list byte) : Prop :=
  wrote (ClientHandler._streaming_socket h) (ClientHandler._streaming_socket h') data
  /\ ClientHandler._communication_socket h' = ClientHandler._communication_socket h
  /\ ClientHandler.songs h' = ClientHandler.songs h
  /\ ClientHandler.terminate_requested h' = ClientHandler.terminate_requested h.

(** The buffer the network reader fills and the player plays. *)
Definition buffer (mp : MediaPlayer.t) : list (list byte) :=
  Player._song_data (MediaPlayer._player mp).

(** The chunk count of a payload of [len] bytes. *)
Definition chunk_count (len : nat) : nat := ((len + 1023) / 1024)%nat.

(** The chunk at index [k] of a payload. *)
Definition chunk_at (payload : list byte) (k : nat) : list byte :=
  take 1024 (drop (k * 1024) payload).

(** What the sender puts on the control connection for one payload whose
    chunk count and last length encode as [count] and [last_length]. *)
Definition chunked (payload count last_length : list byte) : list byte :=
  let n := chunk_count (length payload) in
  count ++ take ((n - 1) * 1024) payload
  ++ last_length ++ drop ((n - 1) * 1024) payload.

(** A payload survives the chunked transfer: on a connection that stays
    up the sender returns, and the receiver, given what the sender wrote,
    returns the payload. *)
Definition round_trips (payload : list byte) : Prop :=
  forall h, Socket.alive (ClientHandler._communication_socket h) ->
  exists h' wire,
    ClientHandler.send_serialized_song payload h = Ok tt h'
    /\ wrote (ClientHandler._communication_socket h)
             (ClientHandler._communication_socket h') wire
    /\ forall c rest,
         Socket.alive (Controller._controller_client c) ->
         Socket.inbox (Controller._controller_client c) = wire ++ rest ->
         exists c',
           Controller.recv_serialized_song c = Ok payload c'
           /\ Socket.inbox (Controller._controller_client c') = rest.

(** *** A reply with frame count zero, seen from the player *)

Module SkipSpec.
(** What the threads do to the player while such a reply is handled:
    steps of the player thread, [start_stream] by [start_song], the two
    calls of the network reader. *)
Inductive action : Type :=
| StepPlayer
| StartStream
| SetLength
| Sentinel.

Definition run_action (a : action) : M Player.t unit :=
  match a with
  | StepPlayer => Player.stream_step
  | StartStream => Player.start_stream
  | SetLength => Player.set_song_data_length 0
  | Sentinel => Player.receive_packet Player._STOP_CONDITION
  end.

(** The buffer holds nothing to play and the player thread is not in
    the middle of playing a packet. *)
Definition nothing_to_play (p : Player.t) : Prop :=
  Forall (fun packet => packet = Player._STOP_CONDITION) (Player._song_data p)
  /\ Player.pc p <> Player.AtWait.
End SkipSpec.

(** ** Sample inputs *)

Module Samples.
Definition song (i : Z) : Song := mkSong i EmptyString EmptyString 0 [].

(** Three songs appended in the order 1, 2, 3 and shuffled since. *)
Definition queue231 : SongQueue.t :=
  SongQueue.mk [song 2; song 3; song 1]
    [SongQueue.EId 1; SongQueue.EId 2; SongQueue.EId 3].

Definition random : SongQueue.Random := SongQueue.mkRandom (fun n => n) 0.

(** A connection that stays up and passes one to three bytes per call,
    with [inbox] still to come from the peer. *)
Definition socket (inbox : list byte) : Socket.t :=
  Socket.mk [] inbox (fun n => S (n mod 3)) 0.

(** A media player with the songs 1 and 2 queued; the first one is
    playing when [streaming] is set. *)
Definition mediaplayer (streaming : bool) : MediaPlayer.t :=
  MediaPlayer.mk
    (Player.mk [] 0 0 0 false streaming true true false false (negb streaming)
       (-1) (if streaming then Player.AtCond else Player.AtLoop) [] [])
    (SongQueue.mk [song 1; song 2] [SongQueue.EId 1; SongQueue.EId 2])
    (socket []) 0 false true false [].

(** A player that knows the song has 50 frames. *)
Definition player50 : Player.t :=
  final (Player.set_song_data_length 50 Player.init).

(** A player told that the song has 2^53 + 2 frames. *)
Definition player_huge : Player.t :=
  final (Player.set_song_data_length (2 ^ 53 + 2) Player.init).

(** 16-bit stereo audio of [n] bytes. *)
Definition wave (n : nat) : ClientHandler.Wave :=
  ClientHandler.mkWave 2 2 (replicate n x2a).

(** A handler whose catalog has song 7 with two complete packets and a
    rest; the control loop asks to stop before the second read of the
    flag. *)
Definition handler : ClientHandler.t :=
  ClientHandler.mk (socket []) (socket []) false [(7, wave (Z.to_nat 8200))]
    (fun n => (n =? 1)%nat) 0.

(** The same catalog with a song of three complete packets, and no
    request to stop. *)
Definition handler3 : ClientHandler.t :=
  ClientHandler.mk (socket []) (socket []) false [(7, wave (Z.to_nat 12290))]
    (fun _ => false) 0.

(** A 16-bit mono file of 6144 bytes, 3072 frames of two bytes, and a
    handler whose catalog has it as song 7, with no request to stop. *)
Definition wave_mono : ClientHandler.Wave :=
  ClientHandler.mkWave 1 2 (replicate (Z.to_nat 6144) x2a).

Definition handler_mono : ClientHandler.t :=
  ClientHandler.mk (socket []) (socket []) false [(7, wave_mono)]
    (fun _ => false) 0.

Definition mediaplayer_on (inbox : list byte) : MediaPlayer.t :=
  MediaPlayer.mk Player.init SongQueue.empty (socket inbox) 0 true true false [].

(** A player thread waiting for a stream that [start_stream] has asked
    for, with a song of [pkts] received in full. *)
Definition player_with (pkts : list (list byte)) : Player.t :=
  Player.mk (pkts ++ [Player._STOP_CONDITION]) (Z.of_nat (length pkts)) 0
    (Z.of_nat (length pkts) - 1) false false true true true false false
    (-1) Player.Idle [] [].

(** The same player in the middle of the stream, at the first packet,
    the music paused. *)
Definition player_paused (pkts : list (list byte)) : Player.t :=
  Player.mk (pkts ++ [Player._STOP_CONDITION]) (Z.of_nat (length pkts)) 0
    (Z.of_nat (length pkts) - 1) false true true false false false false
    (-1) Player.AtCond [] [].

(** The application with the songs 1 and 2 queued, the first one
    playing when [streaming] is set, connected to the server, repeat
    state [repeat_state]. *)
Definition session (streaming : bool) (repeat_state : Z)
    : MediaPlayerControl.t :=
  MediaPlayerControl.mk (mediaplayer streaming) repeat_state
    (Some true) repeat_state 0 [].

(** Nothing happens while [start_song] waits. *)
Definition no_wait (a : MediaPlayerControl.t) : MediaPlayerControl.t := a.


End Samples.
(** ** Python strings (str) *)

(** A [str] is the sequence of its code points, a [list Z]; the code
    points of a Python string are in [0, 0x10FFFF]. *)
Module Str.

(** A string literal of the source; the literals are ASCII. *)
Definition lit (s : string) : list Z := Z_of_byte <$> list_byte_of_string s.

(** What [split()] without arguments splits on: the characters for
    which [isspace()] holds. *)
Definition isspace (c : Z) : bool :=
  ((9 <=? c) && (c <=? 13)) || ((28 <=? c) && (c <=? 32))
  || (c =? 133) || (c =? 160) || (c =? 5760)
  || ((8192 <=? c) && (c <=? 8202)) || (c =? 8232) || (c =? 8233)
  || (c =? 8239) || (c =? 8287) || (c =? 12288).

(** [s.split()]: the maximal runs of characters that are not whitespace;
    [word] is the run being read. *)
Fixpoint split_words (word s : list Z) : list (list Z) :=
  match s with
  | [] => if decide (word = []) then [] else [word]
  | c :: s' =>
      if isspace c
      then (if decide (word = []) then split_words [] s'
            else word :: split_words [] s')
      else split_words (word ++ [c]) s'
  end.

Definition split_whitespace (s : list Z) : list (list Z) := split_words [] s.

(** [s.split(sep)] for a separator of one character. *)
Fixpoint split (sep : Z) (s : list Z) : list (list Z) :=
  match s with
  | [] => [[]]
  | c :: s' =>
      if c =? sep then [] :: split sep s'
      else match split sep s' with
           | word :: words => (c :: word) :: words
           | [] => [[c]]
           end
  end.

(** [sep.join(words)] *)
Fixpoint join (sep : list Z) (words : list (list Z)) : list Z :=
  match words with
  | [] => []
  | [word] => word
  | word :: words' => word ++ sep ++ join sep words'
  end.

(** The bytes of one character in UTF-8; a surrogate has none. *)
Definition encode_char (c : Z) : option (list byte) :=
  if (0 <=? c) && (c <? 128) then Some [byte_of_Z c]
  else if (128 <=? c) && (c <? 2048)
  then Some [byte_of_Z (192 + c / 64); byte_of_Z (128 + c mod 64)]
  else if (2048 <=? c) && (c <? 65536)
  then if (55296 <=? c) && (c <=? 57343) then None
       else Some [byte_of_Z (224 + c / 4096);
                  byte_of_Z (128 + (c / 64) mod 64);
                  byte_of_Z (128 + c mod 64)]
  else if (65536 <=? c) && (c <? 1114112)
  then Some [byte_of_Z (240 + c / 262144);
             byte_of_Z (128 + (c / 4096) mod 64);
             byte_of_Z (128 + (c / 64) mod 64);
             byte_of_Z (128 + c mod 64)]
  else None.

(** [s.encode("utf-8")]; [None] is UnicodeEncodeError. *)
Fixpoint encode (s : list Z) : option (list byte) :=
  match s with
  | [] => Some []
  | c :: s' =>
      match encode_char c, encode s' with
      | Some b, Some l => Some (b ++ l)
      | _, _ => None
      end
  end.

Definition continuation (x : Z) : bool := (128 <=? x) && (x <=? 191).

(** [b.decode("utf-8")]; [None] is UnicodeDecodeError.  The decoder is
    strict: it takes no overlong form, no surrogate and nothing above
    0x10FFFF. *)
Fixpoint decode (l : list byte) : option (list Z) :=
  match l with
  | [] => Some []
  | b0 :: l1 =>
      let x0 := Z_of_byte b0 in
      if x0 <? 128 then cons x0 <$> decode l1
      else if (194 <=? x0) && (x0 <=? 223) then
        match l1 with
        | b1 :: l2 =>
            let x1 := Z_of_byte b1 in
            if continuation x1
            then cons ((x0 - 192) * 64 + (x1 - 128)) <$> decode l2
            else None
        | _ => None
        end
      else if (224 <=? x0) && (x0 <=? 239) then
        match l1 with
        | b1 :: b2 :: l3 =>
            let x1 := Z_of_byte b1 in
            let x2 := Z_of_byte b2 in
            if ((if x0 =? 224 then 160 else 128) <=? x1)
               && (x1 <=? (if x0 =? 237 then 159 else 191))
               && continuation x2
            then cons ((x0 - 224) * 4096 + (x1 - 128) * 64 + (x2 - 128))
                   <$> decode l3
            else None
        | _ => None
        end
      else if (240 <=? x0) && (x0 <=? 244) then
        match l1 with
        | b1 :: b2 :: b3 :: l4 =>
            let x1 := Z_of_byte b1 in
            let x2 := Z_of_byte b2 in
            let x3 := Z_of_byte b3 in
            if ((if x0 =? 240 then 144 else 128) <=? x1)
               && (x1 <=? (if x0 =? 244 then 143 else 191))
               && continuation x2 && continuation x3
            then cons ((x0 - 240) * 262144 + (x1 - 128) * 4096
                       + (x2 - 128) * 64 + (x3 - 128))
                   <$> decode l4
            else None
        | _ => None
        end
      else None
  end.
End Str.

(** ** The requests of the control connection *)

(** *** The client's side (controller.py) *)

Module ControllerRequests.
Import Controller.
Local Open Scope py_scope.

Definition communication_tcp_send (data : list byte) (bufsize : nat)
    : M t unit :=
  zoom _controller_client (fun s _ => mk s)
    (Socket.tcp_send RuntimeError data bufsize).

(** [_search_request_handler]: the value is the list [results], which
    goes to the window or to the internal results as [search_type]
    says, each song as it arrived (still pickled). *)
Definition _search_request_handler (search_string : list Z)
    : M t (list (list byte)) :=
  let search_string_serialized :=
    Str.join [] (Str.split_whitespace search_string) in
  if decide (search_string_serialized = []) then ret []
  else
    let request := Str.lit "SEARCH@" ++ search_string_serialized in
    request_bytes <- or_raise ValueError (Str.encode request) ;;
    let length := length request_bytes in
    length_bytes <- or_raise OverflowError (to_bytes4 (Z.of_nat length)) ;;
    communication_tcp_send length_bytes 4 ;;;
    communication_tcp_send request_bytes length ;;;
    recv_search_results.

Definition _terminate_song_data_recv_request_handler : M t unit :=
  let network_request := Str.lit "TERMINATE_SONG_DATA_RECV@" in
  network_request_bytes <- or_raise ValueError (Str.encode network_request) ;;
  let length := length network_request_bytes in
  length_bytes <- or_raise OverflowError (to_bytes4 (Z.of_nat length)) ;;
  communication_tcp_send length_bytes 4 ;;;
  communication_tcp_send network_request_bytes length.
End ControllerRequests.

(** *** The server's side (clienthandler.py) *)

Module ClientHandlerRequests.
Import ClientHandler.
Local Open Scope py_scope.

Definition streaming_tcp_recv (buf_size : nat) : M t (list byte) :=
  zoom _streaming_socket set_streaming_socket
    (Socket.tcp_recv ConnectionResetError buf_size).
Definition communication_tcp_recv (buf_size : nat) : M t (list byte) :=
  zoom _communication_socket set_communication_socket
    (Socket.tcp_recv ConnectionResetError buf_size).

Definition _terminate_song_data_send : M t unit :=
  modify (set_stop_send true).

Section Catalogue.
(** The catalogue: [fetch] is the query for a search string
    ([execute] and [fetchall]), [pickle_song] what the loop does with
    a row before it slices (the image read, the [Song] pickled). *)
Variable Row : Type.
Variable fetch : list Z -> M t (list Row).
Variable pickle_song : Row -> M t (list byte).

Definition _search_for_song (search_string : list Z) : M t unit :=
  if decide (search_string = []) then ret tt
  else
    results <- fetch search_string ;;
    let number_of_songs_found := Z.of_nat (length results) in
    number_of_songs_found_bytes <-
      or_raise OverflowError (to_bytes4 number_of_songs_found) ;;
    communication_tcp_send number_of_songs_found_bytes 4 ;;;
    for_each results (fun row =>
      serialized_song <- pickle_song row ;;
      send_serialized_song serialized_song).

Definition _execute_request (request : list Z) : M t unit :=
  let translate := Str.split 64 request in
  t0 <- or_raise IndexError (py_getitem translate 0) ;;
  if decide (t0 = Str.lit "TERMINATE_SONG_DATA_RECV")
  then _terminate_song_data_send
  else if decide (t0 = Str.lit "SEARCH")
  then t1 <- or_raise IndexError (py_getitem translate 1) ;;
       _search_for_song t1
  else ret tt.

(** One pass of the [while True] of [_communication_loop]. *)
Definition communication_pass : M t unit :=
  length_bytes <- communication_tcp_recv 4 ;;
  let length_int := from_bytes length_bytes in
  request <- communication_tcp_recv (Z.to_nat length_int) ;;
  request <- or_raise ValueError (Str.decode request) ;;
  _execute_request request.
End Catalogue.

(** One pass of the [while True] of [_streaming_loop]. *)
Definition streaming_pass : M t unit :=
  song_id_bytes <- streaming_tcp_recv 4 ;;
  let song_id := from_bytes song_id_bytes in
  _send_song_data song_id.
End ClientHandlerRequests.
(** ** More vocabulary *)

(** The bytes of one found song on the control connection. *)
Definition song_wire (payload : list byte) : list byte :=
  let n := chunk_count (length payload) in
  chunked payload
    (default [] (to_bytes4 (Z.of_nat n)))
    (default [] (to_bytes4 (Z.of_nat (length (drop ((n - 1) * 1024) payload))))).

(** The reply to a search that found [results]. *)
Definition search_wire (results : list (list byte)) : list byte :=
  default [] (to_bytes4 (Z.of_nat (length results)))
  ++ concat (song_wire <$> results).

(** *** The player thread in a stream *)

(** The player thread is about to look at position [i] of a buffer that
    holds [pkts] and the sentinel, in a stream that nobody has stopped or
    paused. *)
Definition playing (pkts : list (list byte)) (i : nat) (p : Player.t) : Prop :=
  Player.pc p = Player.AtCond
  /\ Player._stop p = false
  /\ Player._play_pause p = true
  /\ Player._current_index p = Z.of_nat i
  /\ Player._song_data p = pkts ++ [Player._STOP_CONDITION].

(** The music is paused and no new stream is asked for. *)
Definition paused (p : Player.t) : Prop :=
  Player._play_pause p = false /\ Player._start_stream_flag p = false.

(** A stream is running: the player thread is in the inner loop of
    [stream_loop]. *)
Definition in_stream (p : Player.t) : Prop :=
  Player.pc p = Player.AtCond \/ Player.pc p = Player.AtWait.

(** *** The queue shown in the window *)

(** The songs of [l] from the position [start] on, each with its
    position. *)
Definition shown (start : Z) (l : list Song) : list (Song * Z) :=
  zip (drop (Z.to_nat start) l) (py_range start (Z.of_nat (length l))).

(** [mp'] is [mp] with the songs at the positions [i] and [j] of the play
    order exchanged and the window refreshed. *)
Definition moved (mp : MediaPlayer.t) (i j : nat) (mp' : MediaPlayer.t)
    : Prop :=
  exists a b,
    MediaPlayer.songs mp !! i = Some a
    /\ MediaPlayer.songs mp !! j = Some b
    /\ let l := <[j := a]> (<[i := b]> (MediaPlayer.songs mp)) in
       mp' = MediaPlayer.set_window
               (shown (MediaPlayer.queue_start false mp) l)
               (MediaPlayer.set_songs l mp).

(** *** Choosing the song to play *)

(** [a'] has the queue, the current index, the repeat state, the
    connection, the songs told to the window and the repeat button of
    [a]. *)
Definition same_session (a a' : MediaPlayerControl.t) : Prop :=
  MediaPlayerControl.songs a' = MediaPlayerControl.songs a
  /\ MediaPlayerControl._current_song_index a'
     = MediaPlayerControl._current_song_index a
  /\ MediaPlayerControl._repeat_state a' = MediaPlayerControl._repeat_state a
  /\ MediaPlayerControl._connected a' = MediaPlayerControl._connected a
  /\ MediaPlayer._stream_client (MediaPlayerControl.mediaplayer a')
     = MediaPlayer._stream_client (MediaPlayerControl.mediaplayer a)
  /\ MediaPlayerControl.song_updates a' = MediaPlayerControl.song_updates a
  /\ MediaPlayerControl.repeat_button a'
     = MediaPlayerControl.repeat_button a.

(** The other threads leave the queue, the current index, the repeat
    state, the repeat button and the connection as they are while
    [start_song] waits. *)
Definition wait_keeps (wait : MediaPlayerControl.t -> MediaPlayerControl.t)
    : Prop :=
  forall a,
    MediaPlayerControl.songs (wait a) = MediaPlayerControl.songs a
    /\ MediaPlayerControl._current_song_index (wait a)
       = MediaPlayerControl._current_song_index a
    /\ MediaPlayerControl._repeat_state (wait a)
       = MediaPlayerControl._repeat_state a
    /\ MediaPlayerControl._connected (wait a)
       = MediaPlayerControl._connected a
    /\ MediaPlayer._stream_client (MediaPlayerControl.mediaplayer (wait a))
       = MediaPlayer._stream_client (MediaPlayerControl.mediaplayer a)
    /\ MediaPlayerControl.song_updates (wait a)
       = MediaPlayerControl.song_updates a
    /\ MediaPlayerControl.repeat_button (wait a)
       = MediaPlayerControl.repeat_button a.

(** [a'] has the queue, the current index, the repeat state and the
    repeat button of [a]. *)
Definition same_selection (a a' : MediaPlayerControl.t) : Prop :=
  MediaPlayerControl.songs a' = MediaPlayerControl.songs a
  /\ MediaPlayerControl._current_song_index a'
     = MediaPlayerControl._current_song_index a
  /\ MediaPlayerControl._repeat_state a' = MediaPlayerControl._repeat_state a
  /\ MediaPlayerControl.repeat_button a' = MediaPlayerControl.repeat_button a.

(** A computation that leaves the selection as it is, however it ends. *)
Definition keeps_selection {A} (m : M MediaPlayerControl.t A) : Prop :=
  forall a, same_selection a (final (m a)).

(** The same for a computation that waits, whether it ends or blocks. *)
Definition keeps_selection_waiting {A} (m : MB MediaPlayerControl.t A)
    : Prop :=
  forall a, same_selection a (left_in (m a)).

(** Once the other threads have run, the event that the wait is for is
    set. *)
Definition sets_event (event : MediaPlayerControl.t -> bool)
    (others : MediaPlayerControl.t -> MediaPlayerControl.t) : Prop :=
  forall a, event (others a) = true.



(** * Proofs *)

Ltac unfold_monad :=
  unfold bind, gets, modify, or_raise, or_raise_sum, ret, raise, zoom in *.

(** ** The monad and its loops *)

Section MonadFacts.
Context {S : Type}.

Lemma bind_Ok {A B} (m : M S A) (f : A -> M S B) s a s' :
  m s = Ok a s' -> bind m f s = f a s'.
Proof. unfold bind. by intros ->. Qed.

Lemma bind_or_raise {A B} e (o : option A) (f : A -> M S B) s a :
  o = Some a -> bind (or_raise e o) f s = f a s.
Proof. by intros ->. Qed.

Lemma bind_or_raise_sum {A B} (r : exn + A) (f : A -> M S B) s a :
  r = inr a -> bind (or_raise_sum r) f s = f a s.
Proof. by intros ->. Qed.

(** A property that every pass keeps holds when the loop is left,
    by its end or by an exception. *)
Lemma for_each_final {X} (I : S -> Prop) (xs : list X) (body : X -> M S unit) :
  (forall x s, x ∈ xs -> I s -> I (final (body x s))) ->
  forall s, I s -> I (final (for_each xs body s)).
Proof.
  induction xs as [|x xs IH]; intros Hbody s Hs; simpl; [done|].
  unfold bind. pose proof (Hbody x s ltac:(left) Hs) as Hx.
  destruct (body x s) as [[] s'|e s']; simpl in *; [|done].
  apply IH; [|done]. intros y s'' Hy. apply Hbody. by right.
Qed.

(** A loop over [range(a, a + n)] whose passes all return. *)
Lemma for_each_seq_ok (I : nat -> S -> Prop) (body : nat -> M S unit) n :
  forall a s,
    (forall i s, (a <= i < a + n)%nat -> I i s ->
                 exists s', body i s = Ok tt s' /\ I (Datatypes.S i) s') ->
    I a s ->
    exists s', for_each (seq a n) body s = Ok tt s' /\ I (a + n)%nat s'.
Proof.
  induction n as [|n IH]; intros a s Hbody Hs; simpl.
  - exists s. rewrite Nat.add_0_r. done.
  - unfold bind. destruct (Hbody a s ltac:(lia) Hs) as (s' & -> & Hs').
    destruct (IH (Datatypes.S a) s') as (s'' & Hrun & Hs''); [|done|].
    + intros i s0 Hi. apply Hbody. lia.
    + exists s''. split; [done|].
      by replace (a + Datatypes.S n)%nat with (Datatypes.S a + n)%nat by lia.
Qed.
End MonadFacts.

(** ** Python lists *)

Section PyListFacts.
Context {A : Type}.
Implicit Types l : list A.

Lemma py_index_nonneg l i n :
  0 <= i -> py_index l i = Some n -> n = Z.to_nat i /\ (n < length l)%nat.
Proof.
  unfold py_index. intros Hi.
  destruct (Z.ltb_spec i 0) as [|_]; [lia|].
  destruct (Z.leb_spec 0 i), (Z.ltb_spec i (Z.of_nat (length l)));
    simpl; intros [= <-]; lia.
Qed.

Lemma py_index_lt_length l i n : py_index l i = Some n -> (n < length l)%nat.
Proof.
  unfold py_index.
  destruct (i <? 0);
    match goal with |- context [(0 <=? ?j) && (?j <? ?m)] =>
      destruct (Z.leb_spec 0 j), (Z.ltb_spec j m) end;
    simpl; intros [= <-]; lia.
Qed.

Lemma py_getitem_nonneg l (k : nat) : py_getitem l (Z.of_nat k) = l !! k.
Proof.
  unfold py_getitem, py_index.
  destruct (Z.ltb_spec (Z.of_nat k) 0) as [|_]; [lia|].
  destruct (Z.leb_spec 0 (Z.of_nat k)); [|lia]. simpl.
  destruct (Z.ltb_spec (Z.of_nat k) (Z.of_nat (length l))); simpl.
  - by rewrite Nat2Z.id.
  - symmetry. apply lookup_ge_None. lia.
Qed.

Lemma py_getitem_last l : py_getitem l (-1) = last l.
Proof.
  unfold py_getitem, py_index. simpl.
  destruct l as [|x l]; [done|].
  destruct (Z.leb_spec 0 (-1 + Z.of_nat (length (x :: l)))) as [_|H];
    [|simpl in H; lia].
  destruct (Z.ltb_spec (-1 + Z.of_nat (length (x :: l)))
              (Z.of_nat (length (x :: l)))); [|lia].
  simpl negb. cbn [andb mbind option_bind].
  rewrite last_lookup. f_equal. simpl. lia.
Qed.

Lemma py_getitem_elem l i x : py_getitem l i = Some x -> x ∈ l.
Proof.
  unfold py_getitem. destruct (py_index l i) as [j|]; simpl; [|done].
  apply list_elem_of_lookup_2.
Qed.

Lemma py_getitem_Some l i x :
  py_getitem l i = Some x -> exists j, py_index l i = Some j /\ l !! j = Some x.
Proof.
  unfold py_getitem. destruct (py_index l i) as [j|]; simpl; [|done].
  intros H. by exists j.
Qed.

Lemma py_insert_elem l i x : x ∈ py_insert l i x.
Proof. unfold py_insert. apply elem_of_app. right. by left. Qed.

Lemma py_insert_perm l i x : py_insert l i x ≡ₚ x :: l.
Proof.
  unfold py_insert. rewrite <- Permutation_middle. by rewrite take_drop.
Qed.

(** [l.remove(x)] takes out one element that equals [x]. *)
Lemma py_remove_perm (eqb : A -> bool) l l' :
  py_remove eqb l = Some l' -> exists y, eqb y = true /\ l ≡ₚ y :: l'.
Proof.
  revert l'. induction l as [|y l IH]; intros l'; simpl; [done|].
  destruct (eqb y) eqn:E.
  - intros [= <-]. by exists y.
  - destruct (py_remove eqb l) as [l0|]; simpl; [|done].
    intros [= <-]. destruct (IH l0 eq_refl) as (z & Hz & Hp).
    exists z. split; [done|]. rewrite Hp. apply Permutation_swap.
Qed.

Lemma py_remove_is_Some (eqb : A -> bool) l y :
  y ∈ l -> eqb y = true -> is_Some (py_remove eqb l).
Proof.
  induction 1 as [y l|y z l _ IH]; intros Hy; simpl.
  - rewrite Hy. by eexists.
  - destruct (eqb z); [by eexists|].
    destruct (IH Hy) as [l' ->]. by eexists.
Qed.
End PyListFacts.

(** ** Exchanging two positions *)

Section SwapFacts.
Context {A : Type}.
Implicit Types l : list A.

Lemma swap_items_final_perm i j l : final (swap_items i j l) ≡ₚ l.
Proof.
  unfold swap_items.
  destruct (l !! j) eqn:Hj, (l !! i) eqn:Hi; simpl; try done.
  by apply Permutation_insert_swap.
Qed.

Lemma swap_items_ok i j l :
  (i < length l)%nat -> (j < length l)%nat ->
  exists l', swap_items i j l = Ok tt l'
    /\ l' ≡ₚ l
    /\ l' !! i = l !! j
    /\ l' !! j = l !! i
    /\ forall k, k <> i -> k <> j -> l' !! k = l !! k.
Proof.
  intros Hi Hj. unfold swap_items.
  destruct (lookup_lt_is_Some_2 l i Hi) as [y Hy].
  destruct (lookup_lt_is_Some_2 l j Hj) as [x Hx].
  rewrite Hx, Hy. eexists. split; [done|].
  split; [by apply Permutation_insert_swap|].
  split; [|split].
  - destruct (decide (i = j)) as [->|Hne].
    + rewrite list_lookup_insert_eq by (by rewrite length_insert). congruence.
    + rewrite list_lookup_insert_ne by done.
      rewrite list_lookup_insert_eq by done. done.
  - rewrite list_lookup_insert_eq by (by rewrite length_insert). done.
  - intros k Hki Hkj. by rewrite !list_lookup_insert_ne.
Qed.
End SwapFacts.

(** ** The song queue *)

Section QueueFacts.
Import SongQueue QueueSpec.
Local Open Scope nat_scope.

Lemma entry_eq_id_true e x : entry_eq_id e x = true <-> e = EId x.
Proof.
  destruct e as [j|s]; simpl; [|by split].
  rewrite Z.eqb_eq. split; [by intros ->|by intros [= ->]].
Qed.

Lemma play_ids_only_ids q s : ESong s ∉ play_ids q.
Proof.
  unfold play_ids. intros (s' & H & _)%list_elem_of_fmap. done.
Qed.

(** *** [append_to_queue], [pop_from_queue], [insert_to_queue] *)

Lemma append_to_queue_invariant s q :
  queue_invariant q -> queue_invariant (final (append_to_queue s q)).
Proof.
  unfold queue_invariant, play_ids. intros H. simpl.
  rewrite fmap_app. by rewrite H.
Qed.

Lemma pop_from_queue_invariant i q :
  queue_invariant q -> queue_invariant (final (pop_from_queue i q)).
Proof.
  unfold queue_invariant. intros H. unfold pop_from_queue. unfold_monad. simpl.
  destruct (py_getitem (_queue q) i) as [s|] eqn:Eget; simpl; [|done].
  destruct (py_remove _ (_ordered_queue q)) as [o|] eqn:Erem; simpl; [|done].
  apply py_getitem_Some in Eget as (j & Ej & Hs).
  unfold py_pop. rewrite Ej. simpl.
  apply py_remove_perm in Erem as (e & He & Hp).
  apply entry_eq_id_true in He as ->.
  unfold play_ids in *. simpl.
  apply (inj (cons (EId (song_id s)))).
  rewrite <- Hp, <- H.
  change (EId (song_id s) :: ((fun s0 => EId (song_id s0)) <$> delete j (_queue q)))
    with ((fun s0 => EId (song_id s0)) <$> (s :: delete j (_queue q))).
  apply fmap_Permutation. symmetry. by apply delete_Permutation.
Qed.

(** With the invariant, removing at a valid index returns. *)
Lemma pop_from_queue_returns i q :
  queue_invariant q -> is_Some (py_index (_queue q) i) ->
  exists q', pop_from_queue i q = Ok tt q'.
Proof.
  unfold queue_invariant. intros H [j Ej].
  pose proof (py_index_lt_length _ _ _ Ej) as Hj.
  destruct (lookup_lt_is_Some_2 _ _ Hj) as [s Hs].
  unfold pop_from_queue. unfold_monad. simpl.
  unfold py_getitem, py_pop. rewrite Ej. simpl. rewrite Hs.
  destruct (py_remove_is_Some (fun e => entry_eq_id e (song_id s))
              (_ordered_queue q) (EId (song_id s))) as [o ->].
  - rewrite <- H. unfold play_ids. apply list_elem_of_fmap.
    exists s. split; [done|]. by eapply list_elem_of_lookup_2.
  - by apply entry_eq_id_true.
  - by eexists.
Qed.

(** [insert_to_queue] puts the song itself where the identifier belongs:
    the invariant cannot hold after it. *)
Lemma insert_to_queue_not_invariant i s q :
  ~ queue_invariant (final (insert_to_queue i s q)).
Proof.
  unfold queue_invariant. simpl. intros H.
  apply (play_ids_only_ids
           (set_ordered (py_insert (_ordered_queue q) i (ESong s))
              (set_queue (py_insert (_queue q) i s) q)) s).
  rewrite H. simpl. apply py_insert_elem.
Qed.

(** Sequences of [append_to_queue] and [pop_from_queue] keep it. *)
Lemma run_ops_invariant os :
  Forall (fun o => match o with InsertAt _ _ => False | _ => True end) os ->
  forall q, queue_invariant q -> queue_invariant (run_ops os q).
Proof.
  induction 1 as [|o os Ho _ IH]; intros q Hq; [done|].
  unfold run_ops. simpl. apply IH.
  destruct o as [s|i s|i]; simpl; [|done|].
  - by apply append_to_queue_invariant.
  - by apply pop_from_queue_invariant.
Qed.

(** *** [shuffle] *)

Lemma random_choice_ok (r : list nat) g :
  r <> [] ->
  exists x g', random_choice r g = Ok x g' /\ x ∈ r.
Proof.
  intros Hr. unfold random_choice.
  assert (Hlen : 0 < length r) by (destruct r; simpl; [done|lia]).
  destruct (lookup_lt_is_Some_2 r (draws g (used g) mod length r)) as [x Hx].
  { apply Nat.mod_upper_bound. lia. }
  rewrite Hx. eexists _, _. split; [done|].
  by eapply list_elem_of_lookup_2.
Qed.

Lemma elem_of_others k n x :
  x ∈ seq 0 k ++ seq (S k) (n - S k) -> k < n -> x < n /\ x <> k.
Proof. rewrite elem_of_app, !elem_of_seq. lia. Qed.

Lemma shuffle_body_ok q k i w :
  k < length (_queue q) -> i < length (_queue q) ->
  shuffle_inv q k w ->
  exists w',
    shuffle_body k (seq 0 k ++ seq (S k) (length (_queue q) - S k)) i w
      = Ok tt w'
    /\ shuffle_inv q k w'.
Proof.
  intros Hk Hi (Hord & Hperm & Hcur). unfold shuffle_body.
  destruct (Nat.eqb_spec i k) as [->|Hik]; [by exists w|].
  unfold bind, on_random, on_queue, zoom.
  destruct (random_choice_ok
              (seq 0 k ++ seq (S k) (length (_queue q) - S k)) (snd w))
    as (x & g' & -> & Hx).
  { destruct k; simpl; [|done].
    destruct (length (_queue q)) as [|[|n]] eqn:E; simpl; try done; lia. }
  apply elem_of_others in Hx as [Hxn Hxk]; [|done]. simpl.
  destruct (swap_items_ok i x (_queue (fst w))) as (l' & -> & Hp & _ & _ & Hoth).
  { by rewrite Hperm. } { by rewrite Hperm. }
  eexists. split; [done|]. repeat split; simpl.
  - done.
  - by etrans.
  - rewrite Hoth by done. done.
Qed.

Lemma shuffle_ok q k g :
  k < length (_queue q) ->
  exists w', shuffle k (q, g) = Ok tt w' /\ shuffle_inv q k w'.
Proof.
  intros Hk. unfold shuffle, bind, gets. simpl.
  destruct (Nat.ltb_spec 0 (length (_queue q))) as [_|]; [|lia].
  destruct (for_each_seq_ok (fun _ => shuffle_inv q k)
              (shuffle_body k (seq 0 k ++ seq (S k) (length (_queue q) - S k)))
              (length (_queue q)) 0 (q, g)) as (w' & Hrun & Hinv).
  - intros i w Hi Hw. apply shuffle_body_ok; [done|lia|done].
  - done.
  - by exists w'.
Qed.

(** *** [unshuffle] *)

Lemma unshuffle_body_permuted q k i q1 :
  permuted q q1 -> permuted q (final (unshuffle_body k i q1)).
Proof.
  intros [Hord Hperm]. unfold unshuffle_body, bind, gets, or_raise. simpl.
  destruct (_ordered_queue q1 !! i) as [e|]; simpl; [|done].
  destruct (ordered_index_of e (_queue q1)) as [oi|]; simpl; [|done].
  destruct (negb (i =? k) && negb (oi =? k)); simpl; [|done].
  unfold zoom.
  pose proof (swap_items_final_perm i oi (_queue q1)) as Hp.
  destruct (swap_items i oi (_queue q1)) as [[] l'|e' l']; simpl in *;
    (split; [done|by etrans]).
Qed.

Lemma unshuffle_permuted q k : permuted q (final (unshuffle k q)).
Proof.
  unfold unshuffle, bind, gets.
  destruct (0 <? length (_queue q)); [|done].
  apply (for_each_final (permuted q)); [|done].
  intros i q1 _. apply unshuffle_body_permuted.
Qed.

Lemma ordered_index_of_Some e l oi :
  ordered_index_of e l = Some oi ->
  exists s, l !! oi = Some s /\ e = entry_of s.
Proof.
  unfold ordered_index_of. intros H.
  destruct (list_find _ l) as [[i s]|] eqn:Hf; simplify_eq/=.
  apply list_find_Some in Hf as (Hs & He & _).
  exists s. split; [done|]. by apply entry_eq_id_true.
Qed.

Lemma ordered_index_of_is_Some e l :
  e ∈ entry_of <$> l -> is_Some (ordered_index_of e l).
Proof.
  intros (s & -> & Hs)%list_elem_of_fmap. unfold ordered_index_of.
  destruct (list_find_elem_of
              (fun s' => entry_eq_id (entry_of s) (song_id s') = true) l s)
    as [[i s'] ->]; [done| |done].
  by apply entry_eq_id_true.
Qed.

Section Loop.
Variables (q : t) (k m : nat) (c : Song).
Hypothesis Hdistinct : NoDup (song_id <$> _queue q).
Hypothesis Hsame : play_ids q ≡ₚ _ordered_queue q.
Hypothesis Hcur : _queue q !! k = Some c.
Hypothesis Hslot : _ordered_queue q !! m = Some (entry_of c).

Lemma ordered_NoDup : NoDup (_ordered_queue q).
Proof.
  rewrite <- Hsame. unfold play_ids.
  rewrite (list_fmap_compose song_id EId).
  apply NoDup_fmap_2; [|done]. by intros x y [= ->].
Qed.

Lemma ordered_length : length (_ordered_queue q) = length (_queue q).
Proof. rewrite <- Hsame. unfold play_ids. by rewrite length_fmap. Qed.

Lemma unshuffle_body_ok i q1 :
  i < length (_queue q) ->
  unshuffle_inv q k m c i q1 ->
  exists q2, unshuffle_body k i q1 = Ok tt q2
             /\ unshuffle_inv q k m c (S i) q2.
Proof.
  intros Hi (Hord & Hperm & Hk & Hdone).
  unfold unshuffle_body, bind, gets. simpl. rewrite Hord.
  destruct (lookup_lt_is_Some_2 (_ordered_queue q) i) as [e He].
  { by rewrite ordered_length. }
  rewrite He. simpl.
  destruct (ordered_index_of_is_Some e (_queue q1)) as [oi Hoi].
  { rewrite Hperm. fold (play_ids q). rewrite Hsame.
    by eapply list_elem_of_lookup_2. }
  rewrite Hoi. simpl.
  apply ordered_index_of_Some in Hoi as (s & Hs & ->).
  assert (Hlen : length (_queue q1) = length (_queue q)) by by rewrite Hperm.
  destruct (Nat.eqb_spec i k) as [->|Hik]; simpl.
  { exists q1. split; [done|]. repeat split; try done.
    intros j Hj ? ?. apply Hdone; [lia|done..]. }
  destruct (Nat.eqb_spec oi k) as [->|Hok]; simpl.
  { exists q1. split; [done|]. repeat split; try done.
    intros j Hj Hjk Hjm.
    destruct (decide (j = i)) as [->|]; [|apply Hdone; [lia|done..]].
    exfalso. apply Hjm. rewrite Hk in Hs. simplify_eq.
    by eapply NoDup_lookup; [apply ordered_NoDup|..]. }
  unfold zoom.
  destruct (swap_items_ok i oi (_queue q1)) as (l' & -> & Hp & Hli & _ & Hoth).
  { lia. } { by eapply lookup_lt_Some. }
  eexists. split; [done|]. repeat split; simpl.
  - done.
  - by etrans.
  - rewrite Hoth by done. done.
  - intros j Hj Hjk Hjm. unfold restored_at. simpl.
    destruct (decide (j = i)) as [->|Hji].
    + rewrite Hli, Hs. simpl. done.
    + assert (Hprev : restored_at q q1 j) by (apply Hdone; [lia|done..]).
      rewrite Hoth; [done|done|].
      intros ->. unfold restored_at in Hprev. rewrite Hs in Hprev.
      simpl in Hprev. apply Hji. symmetry in Hprev.
      by eapply NoDup_lookup; [apply ordered_NoDup|..].
Qed.

Lemma unshuffle_ok :
  exists q', unshuffle k q = Ok tt q'
             /\ unshuffle_inv q k m c (length (_queue q)) q'.
Proof.
  unfold unshuffle, bind, gets.
  destruct (Nat.ltb_spec 0 (length (_queue q))) as [_|Hn].
  - apply (for_each_seq_ok (unshuffle_inv q k m c) (unshuffle_body k)
             (length (_queue q)) 0 q).
    + intros i q1 Hi. apply unshuffle_body_ok. lia.
    + repeat split; try done. intros j Hj. lia.
  - apply lookup_lt_Some in Hcur. lia.
Qed.
End Loop.
End QueueFacts.

(** *** The claims about the queue *)

Section QueueClaims.
Import SongQueue QueueSpec.
Local Open Scope nat_scope.

(** C1 (defect of the code).  The claim: after any sequence of
    [append_to_queue], [insert_to_queue] and [pop_from_queue] from an
    empty queue the identifiers of the play-order list are, as a
    multiset, the entries of the insertion-order list.  On the code one
    [insert_to_queue] refutes it: the insertion-order list receives the
    Song object, not its identifier, and the song can no longer be
    removed, [list.remove] raising ValueError. *)
Theorem insert_to_queue_stores_the_song :
  let q := run_ops [InsertAt 0 (Samples.song 7)] empty in
  _queue q = [Samples.song 7]
  /\ _ordered_queue q = [ESong (Samples.song 7)]
  /\ ~ queue_invariant q
  /\ pop_from_queue 0 q = Raise ValueError q.
Proof.
  simpl. split; [done|]. split; [done|]. split; [|done].
  apply (insert_to_queue_not_invariant 0 (Samples.song 7) empty).
Qed.

(** C4.  For a non-empty queue, an index [k] in range and any sequence
    of random draws, [shuffle k] returns and the song at position [k] is
    the one that was there. *)
Theorem shuffle_keeps_current_song (q : t) (k : nat) (g : Random) :
  k < length (_queue q) ->
  exists w', shuffle k (q, g) = Ok tt w'
             /\ _queue (fst w') !! k = _queue q !! k.
Proof.
  intros Hk. destruct (shuffle_ok q k g Hk) as (w' & Hrun & _ & _ & Hcur).
  by exists w'.
Qed.

Lemma shuffle_keeps_current_song_witness :
  1 < length (_queue Samples.queue231)
  /\ exists w', shuffle 1 (Samples.queue231, Samples.random) = Ok tt w'
                /\ _queue (fst w') !! 1 = _queue Samples.queue231 !! 1.
Proof.
  assert (H : 1 < length (_queue Samples.queue231)) by (simpl; lia).
  exact (conj H (shuffle_keeps_current_song _ _ Samples.random H)).
Defined.

(** C10.  For an index [k] in range, [shuffle k] returns, and both
    [shuffle k] and [unshuffle k] leave the insertion-order list as it
    is and the play-order list a permutation of what it was; for
    [unshuffle] this is so as well when it stops on an exception. *)
Theorem shuffle_and_unshuffle_permute (q : t) (k : nat) (g : Random) :
  k < length (_queue q) ->
  (exists w', shuffle k (q, g) = Ok tt w' /\ permuted q (fst w'))
  /\ permuted q (final (unshuffle k q)).
Proof.
  intros Hk. split.
  - destruct (shuffle_ok q k g Hk) as (w' & Hrun & Hord & Hperm & _).
    exists w'. by repeat split.
  - apply unshuffle_permuted.
Qed.

Lemma shuffle_and_unshuffle_permute_witness :
  2 < length (_queue Samples.queue231)
  /\ (exists w', shuffle 2 (Samples.queue231, Samples.random) = Ok tt w'
                 /\ permuted Samples.queue231 (fst w'))
  /\ permuted Samples.queue231 (final (unshuffle 2 Samples.queue231)).
Proof.
  assert (H : 2 < length (_queue Samples.queue231)) by (simpl; lia).
  exact (conj H (shuffle_and_unshuffle_permute _ _ Samples.random H)).
Defined.

(** C3, as the specification words it, fails: with the insertion order
    1, 2, 3, the play order 2, 3, 1 and [k = 0], the position that held
    the song named by the insertion order at 0 is position 2, and
    [unshuffle 0] leaves song 1 at position 1, which is neither. *)
Lemma unshuffle_leaves_another_position :
  ~ unshuffle_restores_but_held Samples.queue231 0.
Proof.
  intros H.
  assert (Hnodup : NoDup (song_id <$> _queue Samples.queue231)).
  { apply (bool_decide_unpack _). vm_compute. exact I. }
  assert (Hperm : play_ids Samples.queue231 ≡ₚ _ordered_queue Samples.queue231).
  { apply (Permutation_app_comm [EId 2; EId 3] [EId 1]). }
  specialize (H Hnodup Hperm ltac:(simpl; lia) 2 eq_refl 1
                ltac:(simpl; lia) ltac:(lia) ltac:(lia)).
  vm_compute in H. discriminate H.
Qed.

(** C3, amended.  For a queue whose songs have distinct identifiers and
    whose play order is a permutation of its insertion order, with the
    song [c] at the index [k] and [m] the place of [c] in the insertion
    order: [unshuffle k] returns, [c] stays at [k], and every position
    but [k] and [m] holds the song the insertion order names there. *)
Theorem unshuffle_restores_but_current (q : t) (k m : nat) (c : Song) :
  NoDup (song_id <$> _queue q) ->
  play_ids q ≡ₚ _ordered_queue q ->
  _queue q !! k = Some c ->
  _ordered_queue q !! m = Some (entry_of c) ->
  exists q', unshuffle k q = Ok tt q'
             /\ permuted q q'
             /\ _queue q' !! k = Some c
             /\ forall i, i < length (_queue q) -> i <> k -> i <> m ->
                          restored_at q q' i.
Proof.
  intros Hdistinct Hsame Hcur Hslot.
  destruct (unshuffle_ok q k m c Hdistinct Hsame Hcur Hslot)
    as (q' & Hrun & Hord & Hperm & Hk & Hrest).
  exists q'. split; [done|]. split; [done|]. split; [done|].
  intros i Hi. by apply Hrest.
Qed.

Lemma unshuffle_restores_but_current_witness :
  exists q', unshuffle 0 Samples.queue231 = Ok tt q'
             /\ permuted Samples.queue231 q'
             /\ _queue q' !! 0 = Some (Samples.song 2)
             /\ forall i, i < 3 -> i <> 0 -> i <> 1 ->
                          restored_at Samples.queue231 q' i.
Proof.
  apply (unshuffle_restores_but_current Samples.queue231 0 1 (Samples.song 2)).
  - apply (bool_decide_unpack _). vm_compute. exact I.
  - apply (Permutation_app_comm [EId 2; EId 3] [EId 1]).
  - reflexivity.
  - reflexivity.
Defined.
End QueueClaims.

(** ** Moving a song up or down *)

Section MoveFacts.
Import MediaPlayer MoveSpec.

Lemma display_queue_songs b mp : songs (final (display_queue b mp)) = songs mp.
Proof.
  unfold display_queue. unfold_monad. simpl.
  destruct (mapM _ _); done.
Qed.

Lemma exchange_songs i j mp n :
  0 <= i -> 0 <= j -> n <> Z.to_nat i -> n <> Z.to_nat j ->
  songs (final (exchange i j mp)) !! n = songs mp !! n.
Proof.
  intros Hi Hj Hni Hnj. unfold exchange. unfold_monad. simpl.
  destruct (py_getitem (songs mp) j) as [a|]; simpl; [|done].
  destruct (py_getitem (songs mp) i) as [b|]; simpl; [|done].
  unfold py_setitem.
  destruct (py_index (songs mp) i) as [ni|] eqn:Ei; simpl; [|done].
  apply py_index_nonneg in Ei as [-> _]; [|done].
  unfold songs at 1. simpl.
  destruct (py_index _ j) as [nj|] eqn:Ej; simpl.
  - apply py_index_nonneg in Ej as [-> _]; [|done].
    by rewrite !list_lookup_insert_ne.
  - by rewrite list_lookup_insert_ne.
Qed.

Lemma move_up_history mp song_index :
  history_kept mp (final (move_up song_index mp)).
Proof.
  intros n Hn. unfold move_up. unfold_monad. simpl.
  destruct (Z.ltb_spec (queue_start false mp) song_index) as [Hlt|]; [|done].
  pose proof (exchange_songs song_index (song_index - 1) mp n) as Hex.
  destruct (exchange song_index (song_index - 1) mp) as [[] mp1|e mp1];
    simpl in *.
  - change (songs (final (display_queue false mp1)) !! n = songs mp !! n).
    rewrite display_queue_songs. apply Hex; lia.
  - apply Hex; lia.
Qed.

Lemma move_up_guard mp song_index :
  song_index <= queue_start false mp -> move_up song_index mp = Ok tt mp.
Proof.
  intros H. unfold move_up. unfold_monad. simpl.
  destruct (Z.ltb_spec (queue_start false mp) song_index); [lia|done].
Qed.

Lemma move_down_history mp song_index :
  queue_start false mp <= song_index ->
  history_kept mp (final (move_down song_index mp)).
Proof.
  intros Hge n Hn. unfold move_down. unfold_monad. simpl.
  destruct (song_index <? _); [|done].
  pose proof (exchange_songs song_index (song_index + 1) mp n) as Hex.
  destruct (exchange song_index (song_index + 1) mp) as [[] mp1|e mp1];
    simpl in *.
  - change (songs (final (display_queue false mp1)) !! n = songs mp !! n).
    rewrite display_queue_songs. apply Hex; lia.
  - apply Hex; lia.
Qed.

(** C5, as the specification words it, fails for [move_down]: while
    song 1 is playing at index 0, [move_down 0] exchanges it with the
    song after it, so the playing song is moved into the queue still to
    come. *)
Lemma move_down_moves_the_playing_song :
  ~ moves_keep_history (Samples.mediaplayer true) 0.
Proof.
  intros [_ H]. specialize (H 0%nat ltac:(reflexivity)).
  vm_compute in H. discriminate H.
Qed.
End MoveFacts.

(** ** Python floats *)

Section FloatFacts.
Import PyFloat.
Local Open Scope Q_scope.

Lemma pow2_pos e : 0 < pow2 e.
Proof. unfold pow2. by apply Qpower_0_lt. Qed.

Lemma pow2_add a b : pow2 (a + b) == pow2 a * pow2 b.
Proof. unfold pow2. by apply Qpower_plus. Qed.

Lemma pow2_le a b : (a <= b)%Z -> pow2 a <= pow2 b.
Proof. intros H. unfold pow2. by apply Qpower_le_compat_l. Qed.

Lemma pow2_lt a b : (a < b)%Z -> pow2 a < pow2 b.
Proof. intros H. unfold pow2. by apply Qpower_lt_compat_l. Qed.

Lemma pow2_inject e : (0 <= e)%Z -> pow2 e == inject_Z (2 ^ e).
Proof. intros H. unfold pow2. by rewrite Zpower_Qpower. Qed.

Lemma pow2_cancel e : pow2 e * pow2 (- e) == 1.
Proof. rewrite <- pow2_add. by rewrite Z.add_opp_diag_r. Qed.

Lemma pow2_lt_inv a b : pow2 a < pow2 b -> (a < b)%Z.
Proof.
  intros H. destruct (Z.lt_ge_cases a b) as [|Hge]; [done|].
  apply pow2_le in Hge. lra.
Qed.

(** ** Rounding to an integer *)

Lemma round_half_even_comp q q' :
  q == q' -> round_half_even q = round_half_even q'.
Proof.
  intros H. unfold round_half_even.
  assert (Hf : Qfloor q = Qfloor q') by (by apply Qfloor_comp).
  rewrite <- Hf.
  replace (Qcompare (q' - inject_Z (Qfloor q)) (1 # 2))
    with (Qcompare (q - inject_Z (Qfloor q)) (1 # 2)); [done|].
  apply Qcompare_comp; [|done]. lra.
Qed.

Lemma round_half_even_Z z : round_half_even (inject_Z z) = z.
Proof.
  unfold round_half_even. rewrite Qfloor_Z.
  destruct (Qcompare_spec (inject_Z z - inject_Z z) (1 # 2)) as [H|H|H];
    [lra|done|lra].
Qed.

Lemma round_half_even_bounds q :
  inject_Z (Qfloor q) <= inject_Z (round_half_even q)
  /\ inject_Z (round_half_even q) <= inject_Z (Qfloor q) + 1.
Proof.
  unfold round_half_even.
  destruct (Qcompare _ _); [destruct (Z.even _)|..];
    rewrite ?inject_Z_plus; change (inject_Z 1) with 1; lra.
Qed.

Lemma round_half_even_mono q1 q2 :
  q1 <= q2 -> (round_half_even q1 <= round_half_even q2)%Z.
Proof.
  intros Hle.
  pose proof (Qfloor_resp_le _ _ Hle) as Hf.
  destruct (Z.eq_dec (Qfloor q1) (Qfloor q2)) as [Heq|Hne].
  - unfold round_half_even. rewrite Heq.
    destruct (Qcompare_spec (q1 - inject_Z (Qfloor q2)) (1 # 2)) as [H1|H1|H1];
      destruct (Qcompare_spec (q2 - inject_Z (Qfloor q2)) (1 # 2)) as [H2|H2|H2];
      try lia; try (destruct (Z.even _); lia); lra.
  - assert (Qfloor q1 + 1 <= Qfloor q2)%Z as H by lia.
    pose proof (round_half_even_bounds q1) as [_ Hu].
    pose proof (round_half_even_bounds q2) as [Hl _].
    rewrite Zle_Qle in H |- *. rewrite inject_Z_plus in H.
    change (inject_Z 1) with 1 in H. lra.
Qed.

(** ** The binary exponent *)

Lemma ilog2_spec q : 0 < q -> pow2 (ilog2 q) <= q /\ q < pow2 (ilog2 q + 1).
Proof.
  intros Hq. unfold ilog2.
  destruct (Qle_bool 1 q) eqn:E.
  - apply Qle_bool_iff in E.
    assert (Hf : (1 <= Qfloor q)%Z).
    { rewrite <- (Qfloor_Z 1). by apply Qfloor_resp_le. }
    destruct (Z.log2_spec (Qfloor q)) as [Hl Hu]; [lia|].
    pose proof (Z.log2_nonneg (Qfloor q)) as Hnn.
    rewrite !pow2_inject by lia.
    pose proof (Qfloor_le q) as H1. pose proof (Qlt_floor q) as H2.
    split.
    + apply Qle_trans with (inject_Z (Qfloor q)); [|done].
      by rewrite <- Zle_Qle.
    + apply Qlt_le_trans with (inject_Z (Qfloor q + 1)); [done|].
      rewrite <- Zle_Qle. unfold Z.succ in Hu. lia.
  - assert (Hlt : q < 1).
    { apply Qnot_le_lt. intros H. apply Qle_bool_iff in H. congruence. }
    assert (Hinv : 1 < / q).
    { apply Qlt_shift_inv_l; [done|lra]. }
    set (c := Qceiling (/ q)).
    pose proof (Qle_ceiling (/ q)) as H1. pose proof (Qceiling_lt (/ q)) as H2.
    fold c in H1, H2.
    assert (Hc : (1 < c)%Z).
    { rewrite Zlt_Qlt. change (inject_Z 1) with 1. lra. }
    destruct (Z.log2_up_spec c Hc) as [Hl Hu].
    pose proof (Z.log2_up_nonneg c) as Hnn.
    assert (Hpos : (0 < Z.log2_up c)%Z) by (by apply Z.log2_up_pos).
    replace (- Z.log2_up c + 1)%Z with (- (Z.log2_up c - 1))%Z by lia.
    unfold pow2. rewrite !Qpower_opp. fold (pow2 (Z.log2_up c)).
    fold (pow2 (Z.log2_up c - 1)).
    rewrite !pow2_inject by lia.
    assert (Ha : / q <= inject_Z (2 ^ Z.log2_up c)).
    { apply Qle_trans with (inject_Z c); [done|]. by rewrite <- Zle_Qle. }
    assert (Hb : inject_Z (2 ^ (Z.log2_up c - 1)) < / q).
    { apply Qle_lt_trans with (inject_Z (c - 1)); [|done].
      rewrite <- Zle_Qle. rewrite <- Z.sub_1_r in Hl. lia. }
    assert (Hp1 : 0 < inject_Z (2 ^ Z.log2_up c)).
    { rewrite <- pow2_inject by lia. apply pow2_pos. }
    assert (Hp2 : 0 < inject_Z (2 ^ (Z.log2_up c - 1))).
    { rewrite <- pow2_inject by lia. apply pow2_pos. }
    assert (Hone : q * / q == 1) by (apply Qmult_inv_r; lra).
    split.
    + apply Qle_shift_inv_r; [done|].
      apply (Qmult_le_l _ _ q Hq) in Ha. lra.
    + apply Qlt_shift_inv_l; [done|].
      apply (Qmult_lt_l _ _ q Hq) in Hb. lra.
Qed.

Lemma ilog2_unique q e : pow2 e <= q -> q < pow2 (e + 1) -> ilog2 q = e.
Proof.
  intros Hl Hu.
  assert (Hq : 0 < q) by (pose proof (pow2_pos e); lra).
  destruct (ilog2_spec q Hq) as [Hl' Hu'].
  assert (e < ilog2 q + 1)%Z by (apply pow2_lt_inv; lra).
  assert (ilog2 q < e + 1)%Z by (apply pow2_lt_inv; lra).
  lia.
Qed.

Lemma ilog2_comp q q' : 0 < q -> q == q' -> ilog2 q = ilog2 q'.
Proof.
  intros Hq H. destruct (ilog2_spec q Hq) as [Hl Hu].
  symmetry. apply ilog2_unique; lra.
Qed.

Lemma ilog2_mono q1 q2 : 0 < q1 -> q1 <= q2 -> (ilog2 q1 <= ilog2 q2)%Z.
Proof.
  intros H1 Hle.
  destruct (ilog2_spec q1 H1) as [Hl1 Hu1].
  destruct (ilog2_spec q2) as [Hl2 Hu2]; [lra|].
  assert (ilog2 q1 < ilog2 q2 + 1)%Z by (apply pow2_lt_inv; lra). lia.
Qed.

(** ** Rounding to binary64 *)

Lemma binary64_pos_bounds q :
  0 < q ->
  pow2 (ilog2 q) <= binary64_pos q /\ binary64_pos q <= pow2 (ilog2 q + 1).
Proof.
  intros Hq. destruct (ilog2_spec q Hq) as [Hl Hu]. unfold binary64_pos.
  set (e := ilog2 q) in *. set (s := (52 - e)%Z).
  pose proof (pow2_pos s) as Hs. pose proof (pow2_pos (- s)) as Hs'.
  assert (H52 : pow2 e * pow2 s == inject_Z (2 ^ 52)).
  { rewrite <- pow2_add, <- pow2_inject by lia. unfold s.
    by replace (e + (52 - e))%Z with 52%Z by lia. }
  assert (H53 : pow2 (e + 1) * pow2 s == inject_Z (2 ^ 53)).
  { rewrite <- pow2_add, <- pow2_inject by lia. unfold s.
    by replace (e + 1 + (52 - e))%Z with 53%Z by lia. }
  assert (Hlo : (2 ^ 52 <= round_half_even (q * pow2 s))%Z).
  { rewrite <- (round_half_even_Z (2 ^ 52)). apply round_half_even_mono.
    rewrite <- H52. apply Qmult_le_compat_r; lra. }
  assert (Hhi : (round_half_even (q * pow2 s) <= 2 ^ 53)%Z).
  { rewrite <- (round_half_even_Z (2 ^ 53)). apply round_half_even_mono.
    rewrite <- H53. apply Qmult_le_compat_r; lra. }
  rewrite Zle_Qle in Hlo, Hhi.
  assert (He : pow2 e == inject_Z (2 ^ 52) * pow2 (- s)).
  { rewrite <- H52, <- Qmult_assoc, pow2_cancel. ring. }
  assert (He1 : pow2 (e + 1) == inject_Z (2 ^ 53) * pow2 (- s)).
  { rewrite <- H53, <- Qmult_assoc, pow2_cancel. ring. }
  rewrite He, He1. split; apply Qmult_le_compat_r; lra.
Qed.

Lemma binary64_pos_mono q1 q2 :
  0 < q1 -> q1 <= q2 -> binary64_pos q1 <= binary64_pos q2.
Proof.
  intros H1 Hle. assert (H2 : 0 < q2) by lra.
  pose proof (ilog2_mono q1 q2 H1 Hle) as He.
  destruct (Z.eq_dec (ilog2 q1) (ilog2 q2)) as [Heq|Hne].
  - unfold binary64_pos. rewrite Heq.
    pose proof (pow2_pos (52 - ilog2 q2)). pose proof (pow2_pos (- (52 - ilog2 q2))).
    apply Qmult_le_compat_r; [|lra]. rewrite <- Zle_Qle.
    apply round_half_even_mono. apply Qmult_le_compat_r; lra.
  - destruct (binary64_pos_bounds q1 H1) as [_ Hu].
    destruct (binary64_pos_bounds q2 H2) as [Hl _].
    assert (pow2 (ilog2 q1 + 1) <= pow2 (ilog2 q2)) by (apply pow2_le; lia).
    lra.
Qed.

Lemma binary64_pos_comp q q' :
  0 < q -> q == q' -> binary64_pos q = binary64_pos q'.
Proof.
  intros Hq H. unfold binary64_pos. rewrite (ilog2_comp q q' Hq H).
  f_equal. f_equal. apply round_half_even_comp. by rewrite H.
Qed.

Lemma binary64_comp q q' : q == q' -> binary64 q = binary64 q'.
Proof.
  intros H. unfold binary64.
  assert (Hc : Qcompare q 0 = Qcompare q' 0) by (by apply Qcompare_comp).
  rewrite <- Hc.
  destruct (Qcompare_spec q 0) as [H0|H0|H0]; [done|..].
  - f_equal. apply binary64_pos_comp; lra.
  - apply binary64_pos_comp; lra.
Qed.

Lemma binary64_zero q : q == 0 -> binary64 q = 0.
Proof.
  intros H. unfold binary64.
  destruct (Qcompare_spec q 0) as [H0|H0|H0]; [done|lra|lra].
Qed.

Lemma binary64_gt q : 0 < q -> binary64 q = binary64_pos q.
Proof.
  intros H. unfold binary64.
  destruct (Qcompare_spec q 0) as [H0|H0|H0]; [lra|lra|done].
Qed.

Lemma binary64_nonneg q : 0 <= q -> 0 <= binary64 q.
Proof.
  intros H. destruct (Qlt_le_dec 0 q) as [Hpos|Hle].
  - rewrite binary64_gt by done.
    destruct (binary64_pos_bounds q Hpos) as [Hl _].
    pose proof (pow2_pos (ilog2 q)). lra.
  - rewrite binary64_zero by lra. lra.
Qed.

Lemma binary64_mono q1 q2 : 0 <= q1 -> q1 <= q2 -> binary64 q1 <= binary64 q2.
Proof.
  intros H1 Hle. destruct (Qlt_le_dec 0 q1) as [Hpos|H0].
  - rewrite !binary64_gt by lra. by apply binary64_pos_mono.
  - rewrite (binary64_zero q1) by lra. apply binary64_nonneg. lra.
Qed.

(** A number that fits in 53 bits at its own exponent is not changed. *)
Lemma binary64_pos_exact q m :
  0 < q -> q * pow2 (52 - ilog2 q) == inject_Z m -> binary64_pos q == q.
Proof.
  intros Hq Hm. unfold binary64_pos.
  rewrite (round_half_even_comp _ _ Hm), round_half_even_Z, <- Hm.
  rewrite <- Qmult_assoc, pow2_cancel. ring.
Qed.

Lemma binary64_dyadic a k :
  (0 <= a < 2 ^ 53)%Z -> (0 <= k)%Z ->
  binary64 (inject_Z a / inject_Z (2 ^ k)) == inject_Z a / inject_Z (2 ^ k).
Proof.
  intros Ha Hk.
  assert (Hden : inject_Z (2 ^ k) == pow2 k) by (by rewrite pow2_inject).
  pose proof (pow2_pos k) as Hkpos. pose proof (pow2_pos (- k)) as Hkpos'.
  assert (Hq : inject_Z a / inject_Z (2 ^ k) == inject_Z a * pow2 (- k)).
  { rewrite Hden. unfold pow2 at 2. rewrite Qpower_opp. fold (pow2 k). done. }
  destruct (Z.eq_dec a 0%Z) as [->|Hne].
  { rewrite binary64_zero; [|by rewrite Hq; ring]. rewrite Hq. ring. }
  assert (Hapos : 0 < inject_Z a * pow2 (- k)).
  { apply Qmult_lt_0_compat; [|done]. rewrite <- (Zlt_Qlt 0). lia. }
  rewrite (binary64_comp _ _ Hq), Hq, binary64_gt by done.
  destruct (Z.log2_spec a) as [Hl Hu]; [lia|].
  pose proof (Z.log2_nonneg a) as Hnn.
  assert (Hlog : (Z.log2 a < 53)%Z) by (apply Z.log2_lt_pow2; lia).
  assert (He : ilog2 (inject_Z a * pow2 (- k)) = (Z.log2 a - k)%Z).
  { apply ilog2_unique.
    - replace (Z.log2 a - k)%Z with (Z.log2 a + - k)%Z by lia.
      rewrite pow2_add, (pow2_inject (Z.log2 a)) by lia.
      apply Qmult_le_compat_r; [|lra]. by rewrite <- Zle_Qle.
    - replace (Z.log2 a - k + 1)%Z with (Z.succ (Z.log2 a) + - k)%Z by lia.
      rewrite pow2_add, (pow2_inject (Z.succ (Z.log2 a))) by lia.
      apply Qmult_lt_compat_r; [done|]. by rewrite <- Zlt_Qlt. }
  apply (binary64_pos_exact _ (a * 2 ^ (52 - Z.log2 a))); [done|].
  rewrite He, inject_Z_mult, <- (pow2_inject (52 - Z.log2 a)) by lia.
  replace (52 - (Z.log2 a - k))%Z with (k + (52 - Z.log2 a))%Z by lia.
  rewrite pow2_add.
  transitivity (inject_Z a * (pow2 k * pow2 (- k)) * pow2 (52 - Z.log2 a)); [ring|].
  rewrite pow2_cancel. ring.
Qed.

(** ** The operations the program uses *)

Lemma not_overflows x : Qabs x < pow2 1024 -> overflows x = false.
Proof.
  intros H. unfold overflows.
  destruct (Qle_bool (pow2 1024) (Qabs x)) eqn:E; [|done].
  apply Qle_bool_iff in E. lra.
Qed.

Lemma small_not_overflows x :
  0 <= x -> x <= inject_Z (2 ^ 53) -> overflows x = false.
Proof.
  intros H0 H1. apply not_overflows. rewrite Qabs_pos by done.
  apply Qle_lt_trans with (pow2 53).
  - by rewrite pow2_inject.
  - by apply pow2_lt.
Qed.

Lemma of_int_exact z :
  (0 <= z < 2 ^ 53)%Z ->
  exists x, of_int z = inr x /\ x == inject_Z z.
Proof.
  intros Hz. unfold of_int.
  assert (Hz1 : inject_Z z == inject_Z z / inject_Z (2 ^ 0)).
  { change (inject_Z (2 ^ 0)) with 1. field. }
  assert (Hx : binary64 (inject_Z z) == inject_Z z).
  { rewrite (binary64_comp _ _ Hz1), binary64_dyadic by (done || lia).
    by symmetry. }
  exists (binary64 (inject_Z z)). split; [|done].
  rewrite small_not_overflows; [done|..]; rewrite Hx, <- ?Zle_Qle; try lia.
  rewrite <- (Zle_Qle 0). lia.
Qed.

Lemma truediv_pow2 a k :
  (0 <= a < 2 ^ 53)%Z -> (0 <= k)%Z ->
  exists x, truediv a (2 ^ k) = inr x
            /\ x == inject_Z a / inject_Z (2 ^ k).
Proof.
  intros Ha Hk. unfold truediv.
  assert (H2k : (0 < 2 ^ k)%Z) by (by apply Z.pow_pos_nonneg).
  destruct (Z.eqb_spec (2 ^ k) 0) as [|_]; [lia|].
  pose proof (binary64_dyadic a k Ha Hk) as Hx.
  eexists. split; [|exact Hx].
  assert (H1 : 0 < inject_Z (2 ^ k)) by (rewrite <- (Zlt_Qlt 0); lia).
  assert (H1' : 1 <= inject_Z (2 ^ k)) by (rewrite <- (Zle_Qle 1); lia).
  assert (Ha0 : 0 <= inject_Z a) by (rewrite <- (Zle_Qle 0); lia).
  assert (Ha1 : inject_Z a <= inject_Z (2 ^ 53)) by (rewrite <- Zle_Qle; lia).
  assert (Hq0 : 0 <= inject_Z a / inject_Z (2 ^ k)).
  { apply Qle_shift_div_l; [done|]. lra. }
  assert (Hq1 : inject_Z a / inject_Z (2 ^ k) <= inject_Z a).
  { apply Qle_shift_div_r; [done|].
    assert (inject_Z a * 1 <= inject_Z a * inject_Z (2 ^ k))
      by (apply Qmult_le_compat_nonneg; split; lra).
    lra. }
  rewrite small_not_overflows; [done|..]; rewrite Hx; lra.
Qed.
End FloatFacts.

Section FloatUses.
Import PyFloat.
Local Open Scope Q_scope.

Lemma int_of_quotient x a b :
  (0 <= a)%Z -> (0 < b)%Z -> x == inject_Z a / inject_Z b ->
  int x = (a / b)%Z.
Proof.
  intros Ha Hb Hx. unfold int.
  assert (H0 : 0 <= x).
  { rewrite Hx. apply Qle_shift_div_l; [by rewrite <- (Zlt_Qlt 0)|].
    rewrite Qmult_0_l, <- (Zle_Qle 0). done. }
  apply Qle_bool_iff in H0. rewrite H0.
  rewrite (Qfloor_comp _ _ Hx). symmetry. apply Zdiv_Qdiv.
Qed.

Lemma ceil_of_quotient x a b :
  (0 <= a)%Z -> (0 < b)%Z -> x == inject_Z a / inject_Z b ->
  ceil x = ((a + b - 1) / b)%Z.
Proof.
  intros Ha Hb Hx. unfold ceil, Qceiling.
  assert (Hn : - x == inject_Z (- a) / inject_Z b).
  { rewrite Hx, inject_Z_opp. field. intros H.
    apply (inject_Z_injective b 0) in H. lia. }
  rewrite (Qfloor_comp _ _ Hn), <- Zdiv_Qdiv.
  Z.div_mod_to_equations. nia.
Qed.
End FloatUses.

(** ** The progress bar *)

Section ProgressFacts.
Import PyFloat.
Local Open Scope Q_scope.

Lemma clamp_progress_range v : (0 <= clamp_progress v <= 1000)%Z.
Proof.
  unfold clamp_progress.
  destruct (Z.ltb_spec v 0); [lia|]. destruct (Z.ltb_spec 1000 v); lia.
Qed.

Lemma clamp_progress_mono v1 v2 :
  (v1 <= v2)%Z -> (clamp_progress v1 <= clamp_progress v2)%Z.
Proof.
  unfold clamp_progress. intros H.
  destruct (Z.ltb_spec v1 0), (Z.ltb_spec v2 0),
    (Z.ltb_spec 1000 v1), (Z.ltb_spec 1000 v2); lia.
Qed.

Lemma clamp_progress_idem v :
  clamp_progress (clamp_progress v) = clamp_progress v.
Proof.
  pose proof (clamp_progress_range v) as H. unfold clamp_progress at 1.
  destruct (Z.ltb_spec (clamp_progress v) 0); [lia|].
  destruct (Z.ltb_spec 1000 (clamp_progress v)); [lia|done].
Qed.

Lemma binary64_one : binary64 1 == 1.
Proof.
  rewrite (binary64_comp 1 (inject_Z 1 / inject_Z (2 ^ 0))) by reflexivity.
  rewrite binary64_dyadic by lia. reflexivity.
Qed.

Lemma ratio_range c :
  (0 <= c <= 1000)%Z ->
  0 <= binary64 (inject_Z c / inject_Z 1000)
  /\ binary64 (inject_Z c / inject_Z 1000) <= 1.
Proof.
  intros Hc.
  assert (H0 : 0 <= inject_Z c) by (rewrite <- (Zle_Qle 0); lia).
  assert (H1 : inject_Z c <= inject_Z 1000) by (rewrite <- Zle_Qle; lia).
  assert (Hq : 0 <= inject_Z c / inject_Z 1000)
    by (apply Qle_shift_div_l; [reflexivity|lra]).
  assert (Hq1 : inject_Z c / inject_Z 1000 <= 1).
  { apply Qle_shift_div_r; [reflexivity|]. lra. }
  split; [by apply binary64_nonneg|].
  rewrite <- binary64_one. by apply binary64_mono.
Qed.

Lemma set_progress_run p v :
  (1 <= Player._song_data_length p <= 2 ^ 53)%Z ->
  Player.set_progress v p
  = Ok tt (Player.set_current_index
             (index_from_percent (Player._song_data_length p) v) p).
Proof.
  intros Hn. unfold Player.set_progress.
  fold (clamp_progress v). unfold bind, gets, or_raise_sum. simpl.
  pose proof (clamp_progress_range v) as Hc.
  destruct (ratio_range _ Hc) as [Hr0 Hr1].
  unfold truediv. simpl.
  rewrite small_not_overflows; [|done|].
  2:{ apply Qle_trans with 1; [done|]. by rewrite <- (Zle_Qle 1). }
  simpl.
  destruct (of_int_exact (Player._song_data_length p - 1)) as (len & -> & Hlen);
    [lia|].
  unfold ret, modify, index_from_percent, mul. simpl.
  do 3 f_equal.
  assert (E : binary64 (binary64 (inject_Z (clamp_progress v) / inject_Z 1000) * len)
              = binary64 (binary64 (inject_Z (clamp_progress v) / inject_Z 1000)
                          * inject_Z (Player._song_data_length p - 1))).
  { apply binary64_comp. by rewrite Hlen. }
  by rewrite E.
Qed.

Lemma index_from_percent_mono n v1 v2 :
  (1 <= n)%Z -> (v1 <= v2)%Z ->
  (index_from_percent n v1 <= index_from_percent n v2)%Z.
Proof.
  intros Hn Hv. unfold index_from_percent, round, mul.
  pose proof (clamp_progress_range v1) as Hc1.
  pose proof (clamp_progress_range v2) as Hc2.
  pose proof (clamp_progress_mono _ _ Hv) as Hc.
  destruct (ratio_range _ Hc1) as [Hr1 _].
  assert (HN : 0 <= inject_Z (n - 1)) by (rewrite <- (Zle_Qle 0); lia).
  assert (Hx : binary64 (inject_Z (clamp_progress v1) / inject_Z 1000)
               <= binary64 (inject_Z (clamp_progress v2) / inject_Z 1000)).
  { apply binary64_mono.
    - apply Qle_shift_div_l; [reflexivity|]. rewrite Qmult_0_l.
      rewrite <- (Zle_Qle 0). lia.
    - apply Qmult_le_compat_r; [by rewrite <- Zle_Qle|]. by compute. }
  match goal with |- ((if ?a <? 0 then 0 else ?a) <= (if ?b <? 0 then 0 else ?b))%Z =>
    assert (a <= b)%Z as Hab;
    [|destruct (Z.ltb_spec a 0), (Z.ltb_spec b 0); lia] end.
  apply round_half_even_mono, binary64_mono.
  - by apply Qmult_le_0_compat.
  - by apply Qmult_le_compat_r.
Qed.

Lemma index_from_percent_zero n v : (v <= 0)%Z -> index_from_percent n v = 0%Z.
Proof.
  intros Hv. unfold index_from_percent, round, mul.
  assert (Hc : clamp_progress v = 0%Z).
  { unfold clamp_progress. destruct (Z.ltb_spec v 0); [done|].
    destruct (Z.ltb_spec 1000 v); lia. }
  rewrite Hc. rewrite (binary64_zero (inject_Z 0 / inject_Z 1000)) by reflexivity.
  rewrite (binary64_zero (0 * _)) by ring. done.
Qed.

Lemma index_from_percent_full n v :
  (1 <= n <= 2 ^ 53)%Z -> (1000 <= v)%Z ->
  index_from_percent n v = (n - 1)%Z.
Proof.
  intros Hn Hv. unfold index_from_percent, round, mul.
  assert (Hc : clamp_progress v = 1000%Z).
  { unfold clamp_progress. destruct (Z.ltb_spec v 0); [lia|].
    destruct (Z.ltb_spec 1000 v); lia. }
  rewrite Hc.
  assert (E1 : binary64 (inject_Z 1000 / inject_Z 1000) == 1).
  { rewrite (binary64_comp _ 1) by reflexivity. apply binary64_one. }
  assert (E2 : binary64 (binary64 (inject_Z 1000 / inject_Z 1000) * inject_Z (n - 1))
               == inject_Z (n - 1)).
  { rewrite (binary64_comp _ (inject_Z (n - 1) / inject_Z (2 ^ 0))).
    - rewrite binary64_dyadic by lia. change (inject_Z (2 ^ 0)) with 1. field.
    - rewrite E1. change (inject_Z (2 ^ 0)) with 1. field. }
  rewrite (round_half_even_comp _ _ E2), round_half_even_Z.
  destruct (Z.ltb_spec (n - 1) 0); lia.
Qed.
End ProgressFacts.

Section ErrorFacts.
Import PyFloat.
Local Open Scope Q_scope.

Lemma round_half_even_error q :
  q - (1 # 2) <= inject_Z (round_half_even q)
  /\ inject_Z (round_half_even q) <= q + (1 # 2).
Proof.
  unfold round_half_even.
  pose proof (Qfloor_le q) as Hl. pose proof (Qlt_floor q) as Hu.
  rewrite inject_Z_plus in Hu. change (inject_Z 1) with 1 in Hu.
  destruct (Qcompare_spec (q - inject_Z (Qfloor q)) (1 # 2)) as [H|H|H];
    [destruct (Z.even _)|..];
    rewrite ?inject_Z_plus; change (inject_Z 1) with 1; lra.
Qed.

Lemma pow2_half e : pow2 (e - 1) == pow2 e * (1 # 2).
Proof.
  replace (e - 1)%Z with (e + -1)%Z by lia. rewrite pow2_add. reflexivity.
Qed.

(** The relative error of one rounding is at most 2^-53. *)
Lemma binary64_pos_error q :
  0 < q ->
  q - q * pow2 (-53) <= binary64_pos q /\ binary64_pos q <= q + q * pow2 (-53).
Proof.
  intros Hq. destruct (ilog2_spec q Hq) as [Hl _]. unfold binary64_pos.
  set (e := ilog2 q) in *. set (s := (52 - e)%Z).
  pose proof (pow2_pos s) as Hs. pose proof (pow2_pos (- s)) as Hs'.
  destruct (round_half_even_error (q * pow2 s)) as [Hlo Hhi].
  set (m := inject_Z (round_half_even (q * pow2 s))) in *.
  assert (Hq' : q * pow2 s * pow2 (- s) == q).
  { rewrite <- Qmult_assoc, pow2_cancel. ring. }
  assert (Hu : pow2 (- s) * (1 # 2) <= q * pow2 (-53)).
  { rewrite <- pow2_half.
    apply Qle_trans with (pow2 e * pow2 (-53)).
    - rewrite <- pow2_add. apply pow2_le. unfold s. lia.
    - apply Qmult_le_compat_r; [done|]. pose proof (pow2_pos (-53)). lra. }
  assert (H1 : (q * pow2 s - (1 # 2)) * pow2 (- s) <= m * pow2 (- s))
    by (apply Qmult_le_compat_r; lra).
  assert (H2 : m * pow2 (- s) <= (q * pow2 s + (1 # 2)) * pow2 (- s))
    by (apply Qmult_le_compat_r; lra).
  split; lra.
Qed.

Lemma binary64_error q :
  0 <= q ->
  q - q * pow2 (-53) <= binary64 q /\ binary64 q <= q + q * pow2 (-53).
Proof.
  intros H. destruct (Qlt_le_dec 0 q) as [Hpos|Hle].
  - rewrite binary64_gt by done. by apply binary64_pos_error.
  - rewrite binary64_zero by lra.
    assert (q == 0) as -> by lra. lra.
Qed.

(** The cursor is within a half of the exact [value * (n - 1) / 1000]
    for every frame count that fits the 4-byte header. *)
Lemma index_from_percent_linear n v :
  (1 <= n <= 2 ^ 32)%Z ->
  (Z.abs (1000 * index_from_percent n v - clamp_progress v * (n - 1)) <= 500)%Z.
Proof.
  intros Hn. unfold index_from_percent, round, mul.
  pose proof (clamp_progress_range v) as Hc.
  set (c := clamp_progress v) in *.
  destruct (ratio_range c Hc) as [Hx0 Hx1].
  set (a := inject_Z c / inject_Z 1000) in *.
  assert (Ha : 0 <= a /\ a <= 1).
  { unfold a. split.
    - apply Qle_shift_div_l; [reflexivity|]. rewrite Qmult_0_l.
      rewrite <- (Zle_Qle 0). lia.
    - apply Qle_shift_div_r; [reflexivity|]. rewrite Qmult_1_l.
      rewrite <- Zle_Qle. lia. }
  assert (Hac : inject_Z c == a * 1000).
  { unfold a. change (inject_Z 1000) with 1000. field. }
  destruct (binary64_error a (proj1 Ha)) as [Hxl Hxu].
  set (x := binary64 a) in *.
  set (N := inject_Z (n - 1)).
  assert (HN : 0 <= N /\ N <= 4294967295).
  { unfold N. split; [rewrite <- (Zle_Qle 0)|rewrite <- (Zle_Qle _ 4294967295)];
      change (2 ^ 32)%Z with 4294967296%Z in Hn; lia. }
  assert (HxN : 0 <= x * N) by (apply Qmult_le_0_compat; lra).
  destruct (binary64_error (x * N) HxN) as [Hyl Hyu].
  set (y := binary64 (x * N)) in *.
  destruct (round_half_even_error y) as [Hil Hiu].
  assert (Hy0 : 0 <= y) by (by apply binary64_nonneg).
  assert (Hi0 : (0 <= round_half_even y)%Z).
  { rewrite <- (round_half_even_Z 0). by apply round_half_even_mono. }
  destruct (Z.ltb_spec (round_half_even y) 0) as [|_]; [lia|].
  set (i := round_half_even y) in *.
  set (u := pow2 (-53)) in *.
  assert (Hu : u == 1 # 9007199254740992) by reflexivity.
  assert (Hdiff : inject_Z (1000 * i - c * (n - 1))
                  == 1000 * (inject_Z i - a * N)).
  { rewrite <- (Z.add_opp_r (1000 * i)).
    rewrite inject_Z_plus, inject_Z_opp, !inject_Z_mult.
    fold N. rewrite Hac. change (inject_Z 1000) with 1000. ring. }
  assert (HaN : 0 <= a * N /\ a * N <= N).
  { split; [apply Qmult_le_0_compat; lra|].
    assert (a * N <= 1 * N) by (apply Qmult_le_compat_r; lra). lra. }
  assert (HxN1 : x * N <= N).
  { assert (x * N <= 1 * N) by (apply Qmult_le_compat_r; lra). lra. }
  assert (H1 : (a - a * u) * N <= x * N) by (apply Qmult_le_compat_r; lra).
  assert (H2 : x * N <= (a + a * u) * N) by (apply Qmult_le_compat_r; lra).
  assert (H3 : x * N * u <= N * u).
  { apply Qmult_le_compat_r; [done|]. rewrite Hu. done. }
  assert (H4 : a * N * u <= N * u).
  { apply Qmult_le_compat_r; [lra|]. rewrite Hu. done. }
  assert (H5 : N * u <= 4294967295 * u).
  { apply Qmult_le_compat_r; [lra|]. rewrite Hu. done. }
  assert (Hbound : -501 < inject_Z (1000 * i - c * (n - 1))
                   /\ inject_Z (1000 * i - c * (n - 1)) < 501).
  { rewrite Hdiff. rewrite Hu in *. split; lra. }
  destruct Hbound as [Hb1 Hb2].
  change (-501) with (inject_Z (-501)) in Hb1.
  change 501 with (inject_Z 501) in Hb2.
  rewrite <- Zlt_Qlt in Hb1, Hb2. lia.
Qed.
End ErrorFacts.

Section ProgressClaim.
Local Open Scope Z_scope.

Lemma cursor_after_index p v :
  1 <= Player._song_data_length p <= 2 ^ 53 ->
  cursor_after v p = index_from_percent (Player._song_data_length p) v.
Proof.
  intros Hn. unfold cursor_after. by rewrite set_progress_run.
Qed.

Lemma index_from_percent_clamp n v :
  index_from_percent n (clamp_progress v) = index_from_percent n v.
Proof. unfold index_from_percent. by rewrite clamp_progress_idem. Qed.

(** C6, as the specification words it, for every frame count, fails
    where the frame count no longer fits a float: with 2^53 + 2 frames
    the last index 2^53 + 1 is rounded to 2^53 when it is multiplied by
    the ratio 1.0, and [set_progress 1000] sets the cursor to 2^53. *)
Lemma set_progress_misses_the_end_of_a_huge_song :
  Player._song_data_length Samples.player_huge = 2 ^ 53 + 2
  /\ cursor_after 1000 Samples.player_huge = 2 ^ 53
  /\ cursor_after 1000 Samples.player_huge
     <> Player._song_data_length Samples.player_huge - 1.
Proof. vm_compute. split; [done|]. split; [done|discriminate]. Qed.

(** C6, amended.  For a song of [n] frames with [1 <= n <= 2^53] (the
    frame count arrives in a 4-byte header, so it is below 2^32),
    [set_progress] returns and sets the cursor to a value that depends
    on [value] through its clamping to 0..1000 only, grows with [value]
    and lies in [0 .. n - 1]; it is 0 for 0, [n - 1] for 1000, and 24
    for 500 when [n = 50].  For [n <= 2^32] the cursor is within a half
    of [value * (n - 1) / 1000]. *)
Theorem set_progress_maps_linearly (p : Player.t) (n : Z) :
  Player._song_data_length p = n -> 1 <= n <= 2 ^ 53 ->
  (forall v, Player.set_progress v p
             = Ok tt (Player.set_current_index (cursor_after v p) p))
  /\ (forall v, cursor_after v p = cursor_after (clamp_progress v) p)
  /\ (forall v1 v2, v1 <= v2 -> cursor_after v1 p <= cursor_after v2 p)
  /\ (forall v, 0 <= cursor_after v p <= n - 1)
  /\ cursor_after 0 p = 0
  /\ cursor_after 1000 p = n - 1
  /\ (n = 50 -> cursor_after 500 p = 24)
  /\ (n <= 2 ^ 32 ->
      forall v, Z.abs (1000 * cursor_after v p - clamp_progress v * (n - 1))
                <= 500).
Proof.
  intros Hlen Hn53.
  assert (Hcur : forall v, cursor_after v p = index_from_percent n v).
  { intros v. rewrite cursor_after_index by (by rewrite Hlen).
    by rewrite Hlen. }
  split; [intros v; rewrite Hcur, <- Hlen; apply set_progress_run;
          by rewrite Hlen|].
  split; [intros v; by rewrite !Hcur, index_from_percent_clamp|].
  split; [intros v1 v2 Hv; rewrite !Hcur; apply index_from_percent_mono;
          [lia|done]|].
  split.
  { intros v. rewrite Hcur. split.
    - rewrite <- (index_from_percent_zero n 0) by lia.
      rewrite <- (index_from_percent_clamp n v).
      apply index_from_percent_mono; [lia|]. apply clamp_progress_range.
    - rewrite <- (index_from_percent_full n 1000) by (done || lia).
      rewrite <- (index_from_percent_clamp n v).
      apply index_from_percent_mono; [lia|]. apply clamp_progress_range. }
  split; [rewrite Hcur; by apply index_from_percent_zero|].
  split; [rewrite Hcur; by apply index_from_percent_full|].
  split; [intros ->; rewrite Hcur; by vm_compute|].
  intros Hn32 v. rewrite Hcur. apply index_from_percent_linear. lia.
Qed.

Lemma set_progress_maps_linearly_witness :
  cursor_after 0 Samples.player50 = 0
  /\ cursor_after 1000 Samples.player50 = 49
  /\ cursor_after 500 Samples.player50 = 24.
Proof.
  destruct (set_progress_maps_linearly Samples.player50 50)
    as (_ & _ & _ & _ & H0 & H1000 & H500 & _).
  - reflexivity.
  - vm_compute. split; discriminate.
  - split; [exact H0|]. split; [exact H1000|]. by apply H500.
Defined.
End ProgressClaim.

(** ** Connections *)

Section SocketFacts.
Import Socket.
Local Open Scope nat_scope.

Lemma alive_grant s s' : grant s' = grant s -> alive s -> alive s'.
Proof. unfold alive. by intros ->. Qed.

Lemma wrote_refl s : wrote s s [].
Proof. unfold wrote. by rewrite app_nil_r. Qed.

Lemma wrote_trans s1 s2 s3 d1 d2 :
  wrote s1 s2 d1 -> wrote s2 s3 d2 -> wrote s1 s3 (d1 ++ d2).
Proof.
  intros (H1 & H2 & H3) (H4 & H5 & H6). unfold wrote.
  rewrite H4, H1, H5, H2, H6, H3. by rewrite app_assoc.
Qed.

Lemma wrote_alive s s' d : wrote s s' d -> alive s -> alive s'.
Proof. intros (_ & _ & H). by apply alive_grant. Qed.

Lemma consumed_alive s s' d : consumed s s' d -> alive s -> alive s'.
Proof. intros (_ & _ & H). by apply alive_grant. Qed.

Lemma tcp_send_loop_ok broken data bufsize fuel :
  forall total_sent s,
    alive s -> length data = bufsize ->
    total_sent <= bufsize -> bufsize - total_sent <= fuel ->
    exists s', tcp_send_loop fuel broken data bufsize total_sent s = Ok tt s'
               /\ wrote s s' (drop total_sent data).
Proof.
  induction fuel as [|fuel IH]; intros total s Hal Hlen Hle Hfuel; simpl.
  - destruct (Nat.ltb_spec total bufsize); [lia|].
    exists s. split; [done|]. rewrite drop_ge by lia. apply wrote_refl.
  - destruct (Nat.ltb_spec total bufsize) as [Hlt|].
    2:{ exists s. split; [done|]. rewrite drop_ge by lia. apply wrote_refl. }
    unfold bind, send.
    set (k := Nat.min (grant s (calls s)) (length (drop total data))).
    assert (Hk : 1 <= k <= bufsize - total).
    { unfold k. rewrite length_drop. pose proof (Hal (calls s)). lia. }
    destruct (Nat.eqb_spec k 0) as [|_]; [lia|].
    destruct (IH (total + k)
                (mk (outbox s ++ take k (drop total data)) (inbox s)
                    (grant s) (S (calls s))))
      as (s' & -> & (Ho & Hi & Hg)); [done|done|lia|lia|].
    exists s'. split; [done|]. repeat split; simpl in *; [|done..].
    rewrite Ho, <- app_assoc. f_equal.
    rewrite <- (take_drop k (drop total data)) at 2.
    by rewrite drop_drop.
Qed.

Lemma tcp_send_ok broken data bufsize s :
  alive s -> length data = bufsize ->
  exists s', tcp_send broken data bufsize s = Ok tt s' /\ wrote s s' data.
Proof.
  intros Hal Hlen.
  destruct (tcp_send_loop_ok broken data bufsize bufsize 0 s)
    as (s' & H & Hw); [done|done|lia|lia|].
  exists s'. by split.
Qed.

Lemma tcp_recv_loop_ok broken bufsize fuel :
  forall chunks bytes_received s,
    alive s ->
    bytes_received <= bufsize -> bufsize - bytes_received <= fuel ->
    bufsize - bytes_received <= length (inbox s) ->
    exists s',
      tcp_recv_loop fuel broken bufsize chunks bytes_received s
        = Ok (chunks ++ take (bufsize - bytes_received) (inbox s)) s'
      /\ consumed s s' (take (bufsize - bytes_received) (inbox s)).
Proof.
  induction fuel as [|fuel IH]; intros chunks got s Hal Hle Hfuel Hin; simpl.
  - destruct (Nat.ltb_spec got bufsize); [lia|].
    replace (bufsize - got) with 0 by lia. simpl.
    exists s. rewrite app_nil_r. done.
  - destruct (Nat.ltb_spec got bufsize) as [Hlt|].
    2:{ replace (bufsize - got) with 0 by lia. simpl.
        exists s. rewrite app_nil_r. done. }
    unfold bind, recv.
    set (k := Nat.min (grant s (calls s)) (bufsize - got)).
    assert (Hk : 1 <= k <= bufsize - got).
    { unfold k. pose proof (Hal (calls s)). lia. }
    assert (Hlenk : length (take k (inbox s)) = k).
    { rewrite length_take. lia. }
    destruct (decide (take k (inbox s) = [])) as [E|_].
    { rewrite E in Hlenk. simpl in Hlenk. lia. }
    destruct (IH (chunks ++ take k (inbox s)) (got + length (take k (inbox s)))
                (mk (outbox s) (drop k (inbox s)) (grant s) (S (calls s))))
      as (s' & -> & (Hi & Ho & Hg)); simpl; [done|lia|lia| |].
    { rewrite length_drop. lia. }
    simpl in *. rewrite Hlenk in *.
    assert (Hsplit : take (bufsize - got) (inbox s)
                     = take k (inbox s)
                       ++ take (bufsize - (got + k)) (drop k (inbox s))).
    { replace (bufsize - got) with (k + (bufsize - (got + k))) at 1 by lia.
      by rewrite take_take_drop. }
    exists s'. split.
    + by rewrite Hsplit, app_assoc.
    + repeat split; [|done..].
      rewrite Hsplit, <- app_assoc, <- Hi. by rewrite take_drop.
Qed.

Lemma tcp_recv_ok broken bufsize s :
  alive s -> bufsize <= length (inbox s) ->
  exists s', tcp_recv broken bufsize s = Ok (take bufsize (inbox s)) s'
             /\ consumed s s' (take bufsize (inbox s)).
Proof.
  intros Hal Hin.
  destruct (tcp_recv_loop_ok broken bufsize bufsize [] 0 s)
    as (s' & H & Hc); [done|lia|lia|lia|].
  rewrite Nat.sub_0_r in *. exists s'. by split.
Qed.

(** Reading a known prefix of the incoming bytes. *)
Lemma tcp_recv_prefix broken data rest s :
  alive s -> inbox s = data ++ rest ->
  exists s', tcp_recv broken (length data) s = Ok data s'
             /\ inbox s' = rest /\ outbox s' = outbox s /\ grant s' = grant s.
Proof.
  intros Hal Hin.
  destruct (tcp_recv_ok broken (length data) s) as (s' & H & (Hi & Ho & Hg));
    [done|rewrite Hin, length_app; lia|].
  rewrite Hin, take_app_length in H, Hi.
  exists s'. split; [done|]. repeat split; [|done..].
  by apply app_inv_head in Hi.
Qed.
End SocketFacts.

Section BytesFacts.
Local Open Scope Z_scope.

Lemma Z_of_byte_of_Z z : Z_of_byte (byte_of_Z z) = z mod 256.
Proof.
  unfold Z_of_byte, byte_of_Z.
  assert (Hr : 0 <= z mod 256 < 256) by (apply Z.mod_pos_bound; lia).
  destruct (Byte.of_N (Z.to_N (z mod 256))) as [b|] eqn:E.
  - apply Byte.to_of_N in E. rewrite E. lia.
  - apply Byte.of_N_None_iff in E. lia.
Qed.

Lemma to_bytes4_length n l : to_bytes4 n = Some l -> length l = 4%nat.
Proof.
  unfold to_bytes4. destruct (_ && _); [|done]. by intros [= <-].
Qed.

Lemma to_bytes4_is_Some n : 0 <= n < 2 ^ 32 -> is_Some (to_bytes4 n).
Proof.
  intros H. unfold to_bytes4.
  destruct (Z.leb_spec 0 n), (Z.ltb_spec n (2 ^ 32)); simpl; try lia.
  by eexists.
Qed.

Lemma from_to_bytes4 n l : to_bytes4 n = Some l -> from_bytes l = n.
Proof.
  unfold to_bytes4.
  destruct (Z.leb_spec 0 n), (Z.ltb_spec n (2 ^ 32)); simpl; try done.
  intros [= <-]. simpl. rewrite !Z_of_byte_of_Z.
  change (2 ^ 8) with 256. change (2 ^ 16) with 65536.
  change (2 ^ 24) with 16777216. change (2 ^ 32) with 4294967296 in *.
  Z.div_mod_to_equations. lia.
Qed.
End BytesFacts.

Section PacketFacts.
Local Open Scope nat_scope.

Lemma div_4096_drop n : 4096 <= n -> (n - 4096) / 4096 = n / 4096 - 1.
Proof.
  intros H.
  pose proof (Nat.div_mod_eq n 4096). pose proof (Nat.div_mod_eq (n - 4096) 4096).
  pose proof (Nat.mod_upper_bound n 4096). pose proof (Nat.mod_upper_bound (n - 4096) 4096).
  nia.
Qed.

Lemma div_4096_pos n : 4096 <= n <-> 1 <= n / 4096.
Proof.
  pose proof (Nat.div_mod_eq n 4096). pose proof (Nat.mod_upper_bound n 4096).
  split; intros; nia.
Qed.

Lemma full_packets_cons (data : list byte) :
  4096 <= length data ->
  full_packets data = take 4096 data :: full_packets (drop 4096 data).
Proof.
  intros H. unfold full_packets. rewrite length_drop, div_4096_drop by done.
  apply div_4096_pos in H.
  destruct (length data / 4096) as [|n]; [lia|]. simpl.
  by rewrite Nat.sub_0_r.
Qed.

Lemma full_packets_short (data : list byte) :
  length data < 4096 -> full_packets data = [].
Proof.
  intros H. unfold full_packets. by rewrite Nat.div_small.
Qed.

Lemma packets_of_length n (data : list byte) :
  n * 4096 <= length data ->
  Forall (fun p => length p = 4096) (packets_of n data).
Proof.
  revert data. induction n as [|n IH]; intros data H; simpl; [done|].
  constructor.
  - rewrite length_take. lia.
  - apply IH. rewrite length_drop. lia.
Qed.

Lemma full_packets_length (data : list byte) :
  Forall (fun p => length p = 4096) (full_packets data).
Proof.
  apply packets_of_length.
  pose proof (Nat.div_mod_eq (length data) 4096). lia.
Qed.

Lemma length_full_packets (data : list byte) :
  length (full_packets data) = length data / 4096.
Proof.
  unfold full_packets. generalize (length data / 4096). intros n.
  revert data. induction n as [|n IH]; intros data; simpl; [done|].
  by rewrite IH.
Qed.
End PacketFacts.

(** ** The audio loop of the server *)

Section HandlerFacts.
Import ClientHandler.
Local Open Scope nat_scope.
Local Arguments Nat.div : simpl never.
Local Arguments Nat.mul : simpl never.

Lemma streaming_tcp_send_ok data n h :
  Socket.alive (_streaming_socket h) -> length data = n ->
  exists h', streaming_tcp_send data n h = Ok tt h'
             /\ streamed h h' data
             /\ _stop_send h' = _stop_send h /\ reads h' = reads h.
Proof.
  intros Hal Hlen. unfold streaming_tcp_send, zoom.
  destruct (tcp_send_ok ConnectionResetError data n (_streaming_socket h))
    as (s' & -> & Hw); [done|done|].
  eexists. split; [done|]. unfold streamed. simpl.
  destruct Hw as (? & ? & ?). by repeat split.
Qed.

Lemma streamed_trans h1 h2 h3 d1 d2 :
  streamed h1 h2 d1 -> streamed h2 h3 d2 -> streamed h1 h3 (d1 ++ d2).
Proof.
  intros (Hw1 & Hc1 & Hs1 & Ht1) (Hw2 & Hc2 & Hs2 & Ht2).
  split; [by eapply wrote_trans|]. by rewrite Hc2, Hs2, Ht2.
Qed.

Lemma streamed_alive h h' d :
  streamed h h' d -> Socket.alive (_streaming_socket h) ->
  Socket.alive (_streaming_socket h').
Proof. intros (Hw & _). by eapply wrote_alive. Qed.

Lemma send_packets_spec w fuel :
  framesize w = 4 ->
  forall data h j,
    Socket.alive (_streaming_socket h) ->
    length data / 4096 < fuel ->
    (forall i, i < j -> stop_seen_at h i = false) ->
    (j < length data / 4096 /\ stop_seen_at h j = true)
    \/ j = length data / 4096 ->
    exists h',
      send_packets fuel w (take 4096 data) (drop 4096 data) h = Ok tt h'
      /\ streamed h h'
           (concat (frame <$> take j (full_packets data))
            ++ (if j <? length data / 4096 then encode "exit" else []))
      /\ _stop_send h'
         = (if 0 <? length data / 4096 then false else _stop_send h).
Proof.
  intros Hfs. induction fuel as [|fuel IH]; intros data h j Hal Hfuel Hclear Hj;
    [lia|].
  simpl. rewrite length_take.
  match goal with |- context [(?a =? ?b)] =>
    destruct (Nat.eqb_spec a b) as [Hfull|Hshort] end.
  2:{ assert (Hlt : length data < 4096) by (unfold _chunk in *; lia).
      rewrite (Nat.div_small _ _ Hlt) in *.
      assert (j = 0) as -> by lia. simpl.
      exists h. split; [done|]. split; [|done].
      split; [apply wrote_refl|done]. }
  assert (Hge : 4096 <= length data) by (unfold _chunk in *; lia).
  pose proof (proj1 (div_4096_pos _) Hge) as HN.
  unfold bind at 1. unfold read_stop_send.
  assert (Hseen0 : _stop_send h || terminate_requested h (reads h)
                   = stop_seen_at h 0).
  { unfold stop_seen_at. simpl. by rewrite Nat.add_0_r. }
  rewrite Hseen0.
  destruct j as [|j].
  - destruct Hj as [[_ Hset]|Hj]; [|lia]. rewrite Hset.
    unfold bind, modify, set_stop_send. simpl.
    match goal with |- context [streaming_tcp_send ?d ?n ?h0] =>
      destruct (streaming_tcp_send_ok d n h0) as (h' & -> & Hst & Hstop & _);
        [done|done|] end.
    exists h'. split; [done|].
    destruct (Nat.ltb_spec 0 (length data / 4096)); [|lia].
    split; [|done]. simpl.
    destruct Hst as (Hw & ? & ? & ?). simpl in *.
    split; [exact Hw|by repeat split].
  - rewrite (Hclear 0) by lia.
    unfold bind.
    match goal with |- context [streaming_tcp_send ?d 4 ?h0] =>
      destruct (streaming_tcp_send_ok d 4 h0) as (h1 & -> & Hst1 & Hstop1 & Hr1);
        [done|done|] end.
    destruct (streaming_tcp_send_ok (take 4096 data) 4096 h1)
      as (h2 & -> & Hst2 & Hstop2 & Hr2).
    { by eapply streamed_alive. } { rewrite length_take. lia. }
    unfold readframes. rewrite Hfs. change (_chunk * 4) with 4096.
    assert (Hseen : forall i, stop_seen_at h2 i = stop_seen_at h (S i)).
    { intros i. unfold stop_seen_at. rewrite Hstop2, Hstop1, Hr2, Hr1.
      destruct Hst1 as (_ & _ & _ & Ht1). destruct Hst2 as (_ & _ & _ & Ht2).
      rewrite Ht2, Ht1. simpl.
      replace (reads h + S i) with (S (reads h + i)) by lia.
      by destruct (i =? 0). }
    destruct (IH (drop 4096 data) h2 j) as (h' & -> & Hst & Hstop).
    + eapply streamed_alive; [done|]. by eapply streamed_alive.
    + rewrite length_drop, div_4096_drop by done. lia.
    + intros i Hi. rewrite Hseen. apply Hclear. lia.
    + rewrite length_drop, div_4096_drop by done.
      rewrite Hseen. destruct Hj as [[? ?]|?]; [left|right]; [split|]; lia || done.
    + exists h'. split; [done|]. split.
      * rewrite full_packets_cons by done. simpl.
        rewrite length_drop, div_4096_drop in Hst by done.
        replace (j <? length data / 4096 - 1) with (S j <? length data / 4096)
          in Hst.
        2:{ destruct (Nat.ltb_spec (S j) (length data / 4096)),
              (Nat.ltb_spec j (length data / 4096 - 1)); lia || done. }
        unfold frame at 1. rewrite <- !app_assoc.
        assert (Hst12 : streamed h h2 (encode "data" ++ take 4096 data)).
        { eapply streamed_trans; [|done].
          destruct Hst1 as (Hw & ? & ? & ?). simpl in *.
          split; [exact Hw|by repeat split]. }
        pose proof (streamed_trans _ _ _ _ _ Hst12 Hst) as Hall.
        by rewrite <- !app_assoc in Hall.
      * rewrite Hstop, Hstop2, Hstop1. simpl.
        destruct (Nat.ltb_spec 0 (length data / 4096)); [|lia].
        by destruct (0 <? _).
Qed.
End HandlerFacts.

Section SendSongFacts.
Import ClientHandler.
Local Open Scope nat_scope.
Local Arguments Nat.div : simpl never.
Local Arguments Nat.mul : simpl never.
Local Arguments send_packets : simpl never.

Lemma frame_count w :
  framesize w = 4 -> (Z.of_nat (length (pcm w) / 4096) < 2 ^ 32)%Z ->
  exists x, PyFloat.truediv (getnframes w) (Z.of_nat _chunk) = inr x
            /\ PyFloat.int x = Z.of_nat (length (pcm w) / 4096).
Proof.
  intros Hfs Hsmall. unfold getnframes. rewrite Hfs.
  assert (Hn : (0 <= Z.of_nat (length (pcm w) / 4) < 2 ^ 53)%Z).
  { split; [apply Nat2Z.is_nonneg|].
    assert (H : (Z.of_nat (length (pcm w) / 4 / 1024) < 4294967296)%Z)
      by (by rewrite Nat.Div0.div_div).
    rewrite (Nat2Z.inj_div _ 1024) in H.
    change (2 ^ 53)%Z with 9007199254740992%Z.
    revert H. generalize (Z.of_nat (length (pcm w) / 4)). intros z H.
    Z.div_mod_to_equations. lia. }
  destruct (truediv_pow2 _ 10 Hn) as (x & Hx & Hval); [lia|].
  change (Z.of_nat _chunk) with (2 ^ 10)%Z.
  exists x. split; [done|].
  rewrite (int_of_quotient x _ (2 ^ 10) (proj1 Hn) eq_refl Hval).
  change (2 ^ 10)%Z with (Z.of_nat 1024).
  rewrite <- Nat2Z.inj_div, Nat.Div0.div_div. done.
Qed.

(** A song the server holds: the count, then whole frames up to the
    read at which the stop flag is seen, then the exit tag. *)
Lemma send_song_data_found h song_id w j :
  List.find (fun row => (fst row =? song_id)%Z) (songs h) = Some (song_id, w) ->
  framesize w = 4 -> (Z.of_nat (length (pcm w) / 4096) < 2 ^ 32)%Z ->
  Socket.alive (_streaming_socket h) ->
  (forall i, i < j -> stop_seen_at h i = false) ->
  (j < length (pcm w) / 4096 /\ stop_seen_at h j = true)
  \/ j = length (pcm w) / 4096 ->
  exists h' count,
    to_bytes4 (Z.of_nat (length (pcm w) / 4096)) = Some count
    /\ _send_song_data song_id h = Ok tt h'
    /\ streamed h h'
         (count ++ concat (frame <$> take j (full_packets (pcm w)))
          ++ (if j <? length (pcm w) / 4096 then encode "exit" else []))
    /\ _stop_send h'
       = (if 0 <? length (pcm w) / 4096 then false else _stop_send h).
Proof.
  intros Hfind Hfs Hsmall Hal Hclear Hj.
  destruct (frame_count w Hfs Hsmall) as (x & Hx & Hint).
  destruct (to_bytes4_is_Some (Z.of_nat (length (pcm w) / 4096)))
    as [count Hcount].
  { lia. }
  unfold _send_song_data, _get_song_and_length. unfold_monad. simpl.
  rewrite Hfind, Hx. simpl. rewrite Hint, Hcount. simpl.
  destruct (streaming_tcp_send_ok count 4 h) as (h1 & -> & Hst1 & Hstop1 & Hr1);
    [done|by eapply to_bytes4_length|].
  unfold readframes. rewrite Hfs. change (_chunk * 4) with 4096.
  destruct (send_packets_spec w (S (length (pcm w))) Hfs (pcm w) h1 j)
    as (h' & -> & Hst & Hstop).
  - by eapply streamed_alive.
  - pose proof (Nat.div_mod_eq (length (pcm w)) 4096). lia.
  - intros i Hi. rewrite <- (Hclear i Hi). unfold stop_seen_at.
    destruct Hst1 as (_ & _ & _ & Ht). by rewrite Hstop1, Hr1, Ht.
  - destruct Hj as [[? Hset]|?]; [left; split; [done|]|by right].
    rewrite <- Hset. unfold stop_seen_at.
    destruct Hst1 as (_ & _ & _ & Ht). by rewrite Hstop1, Hr1, Ht.
  - exists h', count. split; [done|]. split; [done|]. split.
    + by eapply streamed_trans.
    + by rewrite Hstop, Hstop1.
Qed.

Lemma send_song_data_absent h song_id :
  List.find (fun row => (fst row =? song_id)%Z) (songs h) = None ->
  Socket.alive (_streaming_socket h) ->
  exists h', _send_song_data song_id h = Ok tt h'
             /\ streamed h h' [x00; x00; x00; x00]
             /\ _stop_send h' = _stop_send h.
Proof.
  intros Hfind Hal. unfold _send_song_data, _get_song_and_length.
  unfold_monad. simpl. rewrite Hfind. simpl.
  change (byte_of_Z 0) with x00. change (byte_of_Z (0 / _)) with x00.
  match goal with |- context [streaming_tcp_send ?d 4 ?h0] =>
    destruct (streaming_tcp_send_ok d 4 h0) as (h' & -> & Hst & Hstop & _);
      [done|done|] end.
  by exists h'.
Qed.
End SendSongFacts.

Section StopFlagClaim.
Import ClientHandler.
Local Open Scope nat_scope.
Local Arguments Nat.div : simpl never.

(** C9.  While the server sends a song it holds, on a connection that
    stays up, it reads the stop flag once before every frame and nowhere
    else.  If the reads before the [j]-th see it clear and the [j]-th
    sees it set, what goes on the audio channel after the frame count is
    [j] whole frames, each the 4-byte tag and a packet of 4096 bytes,
    then the 4-byte exit tag, and nothing more; the flag is clear
    afterwards.  If no read sees it set, all frames are sent. *)
Theorem stop_flag_is_seen_between_frames
    (h : t) (song_id : Z) (w : Wave) (j : nat) :
  List.find (fun row => (fst row =? song_id)%Z) (songs h) = Some (song_id, w) ->
  framesize w = 4 ->
  (Z.of_nat (length (pcm w) / 4096) < 2 ^ 32)%Z ->
  Socket.alive (_streaming_socket h) ->
  (forall i, i < j -> stop_seen_at h i = false) ->
  (j < length (pcm w) / 4096 /\ stop_seen_at h j = true)
  \/ j = length (pcm w) / 4096 ->
  exists h' count,
    to_bytes4 (Z.of_nat (length (pcm w) / 4096)) = Some count
    /\ _send_song_data song_id h = Ok tt h'
    /\ Socket.outbox (_streaming_socket h')
       = Socket.outbox (_streaming_socket h)
         ++ count ++ concat (frame <$> take j (full_packets (pcm w)))
         ++ (if j <? length (pcm w) / 4096 then encode "exit" else [])
    /\ Forall (fun packet => length packet = 4096) (full_packets (pcm w))
    /\ (j < length (pcm w) / 4096 -> _stop_send h' = false).
Proof.
  intros Hfind Hfs Hsmall Hal Hclear Hj.
  destruct (send_song_data_found h song_id w j Hfind Hfs Hsmall Hal Hclear Hj)
    as (h' & count & Hcount & Hrun & ((Hout & _) & _) & Hstop).
  exists h', count. split; [done|]. split; [done|]. split; [done|].
  split; [apply full_packets_length|].
  intros Hlt. rewrite Hstop.
  destruct (Nat.ltb_spec 0 (length (pcm w) / 4096)); [done|lia].
Qed.

Lemma stop_flag_is_seen_between_frames_witness :
  exists h' count,
    to_bytes4 2 = Some count
    /\ _send_song_data 7 Samples.handler = Ok tt h'
    /\ Socket.outbox (_streaming_socket h')
       = count ++ frame (replicate 4096 x2a) ++ encode "exit"
    /\ _stop_send h' = false.
Proof.
  destruct (stop_flag_is_seen_between_frames Samples.handler 7
              (Samples.wave (Z.to_nat 8200)) 1)
    as (h' & count & Hcount & Hrun & Hout & _ & Hstop).
  - reflexivity.
  - reflexivity.
  - vm_compute. reflexivity.
  - intros c. simpl. lia.
  - intros [|i] Hi; [reflexivity|lia].
  - left. split; [vm_compute; lia|reflexivity].
  - exists h', count. split; [exact Hcount|]. split; [exact Hrun|].
    split; [|apply Hstop; vm_compute; lia].
    rewrite Hout. vm_compute. reflexivity.
Defined.
End StopFlagClaim.

(** ** The network reader of the client *)

Section ReaderFacts.
Import MediaPlayer.
Local Open Scope nat_scope.

Lemma streaming_tcp_recv_prefix data rest mp :
  Socket.alive (_stream_client mp) ->
  Socket.inbox (_stream_client mp) = data ++ rest ->
  exists s', streaming_tcp_recv (length data) mp = Ok data (set_stream_client s' mp)
             /\ Socket.inbox s' = rest /\ Socket.alive s'.
Proof.
  intros Hal Hin. unfold streaming_tcp_recv, on_stream_client, zoom.
  destruct (tcp_recv_prefix RuntimeError data rest (_stream_client mp))
    as (s' & -> & Hi & _ & Hg); [done|done|].
  exists s'. split; [done|]. split; [done|]. by eapply alive_grant.
Qed.

Lemma read_frames_ok pkts :
  Forall (fun p => length p = 4096) pkts ->
  forall mp rest,
    Socket.alive (_stream_client mp) ->
    Socket.inbox (_stream_client mp) = concat (frame <$> pkts) ++ rest ->
    exists mp',
      read_frames (length pkts) mp = Ok tt mp'
      /\ buffer mp' = buffer mp ++ pkts
      /\ Socket.inbox (_stream_client mp') = rest
      /\ Socket.alive (_stream_client mp')
      /\ Player._song_data_length (_player mp')
         = Player._song_data_length (_player mp).
Proof.
  induction 1 as [|pkt pkts Hlen _ IH]; intros mp rest Hal Hin; simpl.
  - exists mp. unfold buffer. rewrite app_nil_r. done.
  - simpl in Hin. unfold frame at 1 in Hin. rewrite <- !app_assoc in Hin.
    unfold bind at 1.
    destruct (streaming_tcp_recv_prefix (encode "data") _ mp Hal Hin)
      as (s1 & Hrun1 & Hin1 & Hal1).
    change (length (encode "data")) with 4 in Hrun1. rewrite Hrun1.
    destruct (decide (encode "data" = encode "data")) as [_|]; [|done].
    unfold bind at 1.
    destruct (streaming_tcp_recv_prefix pkt _ (set_stream_client s1 mp) Hal1 Hin1)
      as (s2 & Hrun2 & Hin2 & Hal2).
    rewrite Hlen in Hrun2. rewrite Hrun2.
    unfold bind, on_player, zoom, Player.receive_packet, modify. simpl.
    match goal with |- context [read_frames _ ?m] =>
      destruct (IH m rest) as (mp' & -> & Hbuf & Hrest & Halive & Hlength);
        [done|done|] end.
    exists mp'. split; [done|]. unfold buffer in *. simpl in *.
    rewrite Hbuf, <- app_assoc. done.
Qed.

(** The reader appends the sentinel on every exit. *)
Lemma read_from_server_sentinel mp :
  last (buffer (final (_read_from_server mp))) = Some (encode "END_OF_FILE").
Proof.
  unfold _read_from_server, finally. unfold bind at 1. unfold modify at 1.
  match goal with |- context [try_except ?c ?b ?hd ?m] =>
    destruct (try_except c b hd m) as [[] mp1|e mp1] end;
    unfold bind, on_player, zoom, Player.receive_packet, modify, gets;
    simpl; unfold buffer; simpl; apply last_snoc.
Qed.

Lemma read_from_server_ok pkts mp count rest :
  Forall (fun p => length p = 4096) pkts ->
  to_bytes4 (Z.of_nat (length pkts)) = Some count ->
  Socket.alive (_stream_client mp) ->
  Socket.inbox (_stream_client mp) = count ++ concat (frame <$> pkts) ++ rest ->
  exists mp',
    _read_from_server mp = Ok tt mp'
    /\ buffer mp' = buffer mp ++ pkts ++ [encode "END_OF_FILE"]
    /\ Player._song_data_length (_player mp') = Z.of_nat (length pkts)
    /\ Socket.inbox (_stream_client mp') = rest
    /\ _currently_reading mp' = true.
Proof.
  intros Hlen Hcount Hal Hin.
  unfold _read_from_server, finally, try_except. unfold bind at 1.
  unfold modify at 1.
  set (mp0 := set_reading false false mp).
  destruct (streaming_tcp_recv_prefix count _ mp0 Hal Hin)
    as (s1 & Hrun1 & Hin1 & Hal1).
  rewrite (to_bytes4_length _ _ Hcount) in Hrun1.
  unfold bind at 1. rewrite Hrun1.
  rewrite (from_to_bytes4 _ _ Hcount). rewrite Nat2Z.id.
  unfold bind at 1. unfold on_player at 1, zoom, Player.set_song_data_length, modify.
  match goal with |- context [read_frames _ ?m] =>
    destruct (read_frames_ok pkts Hlen m rest)
      as (mp1 & -> & Hbuf & Hrest & Halive & Hlength); [done|done|] end.
  unfold bind, on_player, zoom, Player.receive_packet, modify, gets. simpl.
  eexists. split; [done|]. unfold buffer in *. simpl in *.
  rewrite Hbuf, <- app_assoc. done.
Qed.
End ReaderFacts.

(** ** The player on a reply without frames *)

Section SkipFacts.
Import Player SkipSpec.

Lemma stream_step_nothing_to_play p :
  nothing_to_play p ->
  exists p', stream_step p = Ok tt p'
             /\ nothing_to_play p' /\ device p' = device p.
Proof.
  intros [Hbuf Hpc]. unfold stream_step. unfold_monad. simpl.
  destruct (pc p) eqn:Epc; try done.
  - destruct (_stream_loop_continue p); eexists; (split; [done|]);
      by repeat split.
  - destruct (_start_stream_flag p); simpl.
    + destruct (_stream_loop_continue p); simpl; eexists; (split; [done|]);
        by repeat split.
    + exists p. split; [done|]. split; [|done]. split; [done|]. by rewrite Epc.
  - destruct (_stop p).
    { eexists. split; [done|]. by repeat split. }
    destruct (py_getitem (_song_data p) (_current_index p)) as [packet|] eqn:Eget.
    + apply py_getitem_elem in Eget.
      rewrite Forall_forall in Hbuf. rewrite (Hbuf _ Eget).
      destruct (decide (_STOP_CONDITION = _STOP_CONDITION)) as [_|]; [|done].
      eexists. split; [done|]. by repeat split.
    + exists p. split; [done|]. split; [|done]. split; [done|]. by rewrite Epc.
  - exists p. split; [done|]. split; [|done]. split; [done|]. by rewrite Epc.
Qed.

Lemma run_action_nothing_to_play a p :
  nothing_to_play p ->
  exists p', run_action a p = Ok tt p'
             /\ nothing_to_play p' /\ device p' = device p.
Proof.
  intros Hp. destruct a; simpl.
  - by apply stream_step_nothing_to_play.
  - destruct Hp as [Hbuf Hpc]. eexists. split; [done|]. by repeat split.
  - destruct Hp as [Hbuf Hpc]. eexists. split; [done|]. by repeat split.
  - destruct Hp as [Hbuf Hpc]. eexists. split; [done|].
    split; [|done]. split; [|done]. simpl.
    apply Forall_app. split; [done|]. by constructor.
Qed.

Lemma run_actions_nothing_to_play acts :
  forall p, nothing_to_play p ->
  exists p', for_each acts run_action p = Ok tt p'
             /\ nothing_to_play p' /\ device p' = device p.
Proof.
  induction acts as [|a acts IH]; intros p Hp; simpl.
  - by exists p.
  - unfold bind.
    destruct (run_action_nothing_to_play a p Hp) as (p1 & -> & Hp1 & Hd1).
    destruct (IH p1 Hp1) as (p2 & -> & Hp2 & Hd2).
    exists p2. split; [done|]. split; [done|]. congruence.
Qed.

(** Once the stream has started and the sentinel is first in the buffer,
    the next step of the player ends the stream without the
    end-of-stream event. *)
Lemma stream_step_skips p rest :
  pc p = AtCond -> _stop p = false -> _current_index p = 0%Z ->
  _song_data p = _STOP_CONDITION :: rest ->
  exists p', stream_step p = Ok tt p'
             /\ _terminate_stream_event p' = true
             /\ _stream_has_started p' = false
             /\ _end_of_stream_event p' = _end_of_stream_event p
             /\ _song_data p' = []
             /\ device p' = device p.
Proof.
  intros Hpc Hstop Hcur Hbuf. unfold stream_step. unfold_monad. simpl.
  rewrite Hpc, Hstop, Hcur, Hbuf. simpl.
  eexists. split; [done|]. by repeat split.
Qed.
End SkipFacts.

(** ** From the server to the buffer of the player *)

Section EndToEndClaims.
Import ClientHandler.
Local Open Scope nat_scope.
Local Arguments Nat.div : simpl never.
Local Arguments Nat.mul : simpl never.

Lemma full_packets_three (data : list byte) :
  length data / 4096 = 3 ->
  full_packets data
  = [take 4096 (drop (0 * 4096) data); take 4096 (drop (1 * 4096) data);
     take 4096 (drop (2 * 4096) data)].
Proof.
  intros H. unfold full_packets. rewrite H. simpl.
  rewrite drop_drop. by rewrite drop_0.
Qed.

Lemma get_song_and_length_found h song_id w :
  List.find (fun row => (fst row =? song_id)%Z) (songs h) = Some (song_id, w) ->
  framesize w = 4 ->
  (Z.of_nat (length (pcm w) / 4096) < 2 ^ 32)%Z ->
  _get_song_and_length song_id h
  = Ok (Some (w, Z.of_nat (length (pcm w) / 4096))) h.
Proof.
  intros Hfind Hfs Hsmall. unfold _get_song_and_length. unfold_monad. simpl.
  rewrite Hfind. destruct (frame_count w Hfs Hsmall) as (x & -> & ->). done.
Qed.

(** C7, as the specification words it, for every song of frame
    count 3, fails for audio that has not four bytes per frame.  For a
    16-bit mono file of 6144 bytes the frame count is 3, no stop is
    requested, and the server writes the count and no frame: the first
    read of 1024 frames has 2048 bytes, not the 4096 of a packet. *)
Lemma mono_song_of_three_frames_sends_no_frame :
  _get_song_and_length 7 Samples.handler_mono
  = Ok (Some (Samples.wave_mono, 3%Z)) Samples.handler_mono
  /\ _stop_send Samples.handler_mono = false
  /\ exists h',
       _send_song_data 7 Samples.handler_mono = Ok tt h'
       /\ Socket.outbox (_streaming_socket h') = [x03; x00; x00; x00]
       /\ forall pkt0 pkt1 pkt2,
            Socket.outbox (_streaming_socket h')
            <> [x03; x00; x00; x00]
               ++ frame pkt0 ++ frame pkt1 ++ frame pkt2.
Proof.
  split; [vm_compute; reflexivity|]. split; [reflexivity|].
  eexists. split; [vm_compute; reflexivity|]. split; [reflexivity|].
  intros pkt0 pkt1 pkt2 E. simpl in E. discriminate E.
Qed.

(** C7, amended.  The server holds the requested song as audio of four
    bytes per frame (16-bit stereo) with three complete packets, no
    stop is requested and the connections stay up.  Then the frame
    count is 3, the server writes
    [3][data][pkt0][data][pkt1][data][pkt2] on the audio channel, and
    the client's reader, given these bytes, returns with the three
    packets and the END_OF_FILE sentinel appended to the buffer.  The
    sentinel is the last entry of the buffer after every pass of the
    reader, whatever arrives and however the pass ends. *)
Theorem three_frames_end_to_end (h : t) (song_id : Z) (w : Wave) :
  List.find (fun row => (fst row =? song_id)%Z) (songs h) = Some (song_id, w) ->
  framesize w = 4 ->
  length (pcm w) / 4096 = 3 ->
  _stop_send h = false ->
  (forall i, terminate_requested h i = false) ->
  Socket.alive (_streaming_socket h) ->
  let pkt i := take 4096 (drop (i * 4096) (pcm w)) in
  let reply := [x03; x00; x00; x00]
               ++ frame (pkt 0) ++ frame (pkt 1) ++ frame (pkt 2) in
  _get_song_and_length song_id h = Ok (Some (w, 3%Z)) h
  /\ (exists h',
        _send_song_data song_id h = Ok tt h'
        /\ Socket.outbox (_streaming_socket h')
           = Socket.outbox (_streaming_socket h) ++ reply)
  /\ (forall mp rest,
        Socket.alive (MediaPlayer._stream_client mp) ->
        Socket.inbox (MediaPlayer._stream_client mp) = reply ++ rest ->
        exists mp',
          MediaPlayer._read_from_server mp = Ok tt mp'
          /\ buffer mp'
             = buffer mp ++ [pkt 0; pkt 1; pkt 2; encode "END_OF_FILE"]
          /\ Socket.inbox (MediaPlayer._stream_client mp') = rest)
  /\ (forall mp,
        last (buffer (final (MediaPlayer._read_from_server mp)))
        = Some (encode "END_OF_FILE")).
Proof.
  intros Hfind Hfs Hthree Hstop Hnone Hal pkt reply.
  assert (Hsmall : (Z.of_nat (length (pcm w) / 4096) < 2 ^ 32)%Z)
    by (rewrite Hthree; reflexivity).
  assert (Hpkts : full_packets (pcm w) = [pkt 0; pkt 1; pkt 2])
    by (by apply full_packets_three).
  split; [|split; [|split]].
  - rewrite (get_song_and_length_found h song_id w Hfind Hfs Hsmall).
    by rewrite Hthree.
  - destruct (send_song_data_found h song_id w 3 Hfind Hfs Hsmall Hal)
      as (h' & count & Hcount & Hrun & ((Hout & _) & _) & _).
    + intros i _. unfold stop_seen_at. rewrite Hstop, Hnone.
      by destruct (i =? 0).
    + right. by rewrite Hthree.
    + exists h'. split; [done|]. rewrite Hout. f_equal.
      rewrite Hthree in Hcount. injection Hcount as <-.
      rewrite Hpkts, Hthree. unfold reply, frame.
      cbn [fmap list_fmap concat take Nat.ltb Nat.leb].
      rewrite <- ?app_assoc, !app_nil_r. reflexivity.
  - intros mp rest Halive Hin.
    destruct (read_from_server_ok [pkt 0; pkt 1; pkt 2] mp
                [x03; x00; x00; x00] rest)
      as (mp' & Hrun & Hbuf & _ & Hrest & _).
    + rewrite <- Hpkts. apply full_packets_length.
    + reflexivity.
    + done.
    + rewrite Hin. unfold reply, frame. cbn [fmap list_fmap concat].
      rewrite <- ?app_assoc, ?app_nil_r. reflexivity.
    + exists mp'. by repeat split.
  - apply read_from_server_sentinel.
Qed.

Lemma three_frames_end_to_end_witness :
  _get_song_and_length 7 Samples.handler3
  = Ok (Some (Samples.wave (Z.to_nat 12290), 3%Z)) Samples.handler3
  /\ exists h',
       _send_song_data 7 Samples.handler3 = Ok tt h'
       /\ Socket.outbox (_streaming_socket h')
          = [x03; x00; x00; x00]
            ++ frame (replicate 4096 x2a) ++ frame (replicate 4096 x2a)
            ++ frame (replicate 4096 x2a).
Proof.
  destruct (three_frames_end_to_end Samples.handler3 7
              (Samples.wave (Z.to_nat 12290)))
    as (Hcount & (h' & Hrun & Hout) & _).
  - reflexivity.
  - reflexivity.
  - vm_compute. reflexivity.
  - reflexivity.
  - intros i. reflexivity.
  - intros c. simpl. lia.
  - split; [exact Hcount|]. exists h'. split; [exact Hrun|].
    rewrite Hout. vm_compute. reflexivity.
Defined.

(** C8.  For a song identifier the catalog does not hold, on
    connections that stay up: the server writes the four bytes of a
    zero frame count on the audio channel and nothing else; the client's
    reader, given them, returns, having set the song length to 0 and
    appended the sentinel to the buffer; and with nothing but sentinels
    in the buffer, whatever way the steps of the player thread, of the
    reader and of [start_stream] interleave, every step returns and no
    packet goes to the audio device.  The step of the player that finds
    the sentinel at the cursor ends the stream: it sets the terminate
    event and leaves the end-of-stream event as it is. *)
Theorem absent_song_is_skipped (h : t) (song_id : Z) :
  List.find (fun row => (fst row =? song_id)%Z) (songs h) = None ->
  Socket.alive (_streaming_socket h) ->
  (exists h',
     _send_song_data song_id h = Ok tt h'
     /\ Socket.outbox (_streaming_socket h')
        = Socket.outbox (_streaming_socket h) ++ [x00; x00; x00; x00])
  /\ (forall mp rest,
        Socket.alive (MediaPlayer._stream_client mp) ->
        Socket.inbox (MediaPlayer._stream_client mp)
        = [x00; x00; x00; x00] ++ rest ->
        exists mp',
          MediaPlayer._read_from_server mp = Ok tt mp'
          /\ buffer mp' = buffer mp ++ [Player._STOP_CONDITION]
          /\ Player._song_data_length (MediaPlayer._player mp') = 0%Z
          /\ Socket.inbox (MediaPlayer._stream_client mp') = rest)
  /\ (forall acts p,
        SkipSpec.nothing_to_play p ->
        exists p',
          for_each acts SkipSpec.run_action p = Ok tt p'
          /\ Player.device p' = Player.device p
          /\ SkipSpec.nothing_to_play p')
  /\ (forall p rest,
        Player.pc p = Player.AtCond -> Player._stop p = false ->
        Player._current_index p = 0%Z ->
        Player._song_data p = Player._STOP_CONDITION :: rest ->
        exists p',
          Player.stream_step p = Ok tt p'
          /\ Player._terminate_stream_event p' = true
          /\ Player._end_of_stream_event p' = Player._end_of_stream_event p
          /\ Player.device p' = Player.device p).
Proof.
  intros Hfind Hal. split; [|split; [|split]].
  - destruct (send_song_data_absent h song_id Hfind Hal)
      as (h' & Hrun & ((Hout & _) & _) & _).
    by exists h'.
  - intros mp rest Halive Hin.
    destruct (read_from_server_ok [] mp [x00; x00; x00; x00] rest)
      as (mp' & Hrun & Hbuf & Hlen & Hrest & _); [done|reflexivity|done|done|].
    exists mp'. by repeat split.
  - intros acts p Hp.
    destruct (run_actions_nothing_to_play acts p Hp) as (p' & Hrun & Hp' & Hd).
    by exists p'.
  - intros p rest Hpc Hstop Hcur Hbuf.
    destruct (stream_step_skips p rest Hpc Hstop Hcur Hbuf)
      as (p' & Hrun & Hterm & _ & Hend & _ & Hdev).
    by exists p'.
Qed.
Lemma absent_song_is_skipped_witness :
  exists h',
    _send_song_data 9 Samples.handler3 = Ok tt h'
    /\ Socket.outbox (_streaming_socket h') = [x00; x00; x00; x00].
Proof.
  destruct (absent_song_is_skipped Samples.handler3 9)
    as ((h' & Hrun & Hout) & _).
  - reflexivity.
  - intros c. simpl. lia.
  - exists h'. split; [exact Hrun|]. rewrite Hout. reflexivity.
Defined.
End EndToEndClaims.

(** ** The chunked transfer of a search result *)

Section ChunkFacts.
Local Open Scope nat_scope.
Local Arguments Nat.div : simpl never.
Local Arguments Nat.mul : simpl never.

Lemma chunk_count_spec len :
  (chunk_count len - 1) * 1024 <= len /\ len <= chunk_count len * 1024
  /\ (1 <= len -> 1 <= chunk_count len /\ (chunk_count len - 1) * 1024 < len).
Proof.
  unfold chunk_count.
  pose proof (Nat.div_mod_eq (len + 1023) 1024).
  pose proof (Nat.mod_upper_bound (len + 1023) 1024). lia.
Qed.

Lemma slice_song_bytes_spec (payload : list byte) :
  (Z.of_nat (chunk_count (length payload)) < 2 ^ 32)%Z ->
  ClientHandler.slice_song_bytes payload
  = inr (chunk_at payload <$> seq 0 (chunk_count (length payload)),
         Z.of_nat (chunk_count (length payload))).
Proof.
  intros Hsmall. unfold ClientHandler.slice_song_bytes.
  pose proof (chunk_count_spec (length payload)) as (_ & Hup & _).
  assert (Hn : (0 <= Z.of_nat (length payload) < 2 ^ 53)%Z).
  { change (2 ^ 32)%Z with 4294967296%Z in *.
    change (2 ^ 53)%Z with 9007199254740992%Z. lia. }
  destruct (truediv_pow2 _ 10 Hn) as (x & Hx & Hval); [lia|].
  change (Z.of_nat 1024) with (2 ^ 10)%Z. rewrite Hx.
  rewrite (ceil_of_quotient x _ (2 ^ 10) (proj1 Hn) eq_refl Hval).
  f_equal. f_equal.
  - unfold py_range3. rewrite <- list_fmap_compose.
    replace (length payload - 0 + 1024 - 1) with (length payload + 1023) by lia.
    fold (chunk_count (length payload)). apply list_fmap_ext.
    intros i k _. unfold chunk_at. simpl. done.
  - unfold chunk_count. rewrite Nat2Z.inj_div. f_equal. lia.
Qed.

Lemma chunk_at_full payload k :
  (k + 1) * 1024 <= length payload -> length (chunk_at payload k) = 1024.
Proof.
  intros H. unfold chunk_at. rewrite length_take, length_drop. lia.
Qed.

Lemma chunks_concat payload n a :
  (a + n) * 1024 <= length payload ->
  concat (chunk_at payload <$> seq a n) = take (n * 1024) (drop (a * 1024) payload).
Proof.
  revert a. induction n as [|n IH]; intros a H; simpl.
  - by rewrite Nat.mul_0_l, take_0.
  - rewrite IH by lia. unfold chunk_at.
    replace (S n * 1024) with (1024 + n * 1024) by lia.
    rewrite <- take_take_drop. f_equal. rewrite drop_drop. f_equal. f_equal. lia.
Qed.
End ChunkFacts.

Section RoundTripFacts.
Local Open Scope nat_scope.
Local Arguments Nat.div : simpl never.
Local Arguments Nat.mul : simpl never.

Lemma communication_tcp_send_ok data n h :
  Socket.alive (ClientHandler._communication_socket h) -> length data = n ->
  exists s', ClientHandler.communication_tcp_send data n h
             = Ok tt (ClientHandler.set_communication_socket s' h)
             /\ wrote (ClientHandler._communication_socket h) s' data.
Proof.
  intros Hal Hlen. unfold ClientHandler.communication_tcp_send, zoom.
  destruct (tcp_send_ok ConnectionResetError data n
              (ClientHandler._communication_socket h))
    as (s' & -> & Hw); [done|done|].
  by exists s'.
Qed.

(** The loop that sends the chunks before the last one. *)
Lemma send_chunks_ok payload n :
  forall a h,
    Socket.alive (ClientHandler._communication_socket h) ->
    (a + n + 1) * 1024 <= length payload + 1023 ->
    (a + n) * 1024 <= length payload ->
    exists s',
      for_each ((fun k => (0 + Z.of_nat k)%Z) <$> seq a n)
        (fun i => bind (or_raise IndexError
                          (py_getitem (chunk_at payload
                                         <$> seq 0 (chunk_count (length payload))) i))
                       (fun d => ClientHandler.communication_tcp_send d 1024)) h
      = Ok tt (ClientHandler.set_communication_socket s' h)
      /\ wrote (ClientHandler._communication_socket h) s'
           (concat (chunk_at payload <$> seq a n)).
Proof.
  induction n as [|n IH]; intros a h Hal Hcnt Hlen.
  - exists (ClientHandler._communication_socket h). split.
    + by destruct h.
    + apply wrote_refl.
  - rewrite <- cons_seq, !fmap_cons. cbn [for_each concat].
    assert (Hget : py_getitem (chunk_at payload <$> seq 0 (chunk_count (length payload)))
                     (0 + Z.of_nat a) = Some (chunk_at payload a)).
    { rewrite Z.add_0_l, py_getitem_nonneg, list_lookup_fmap, lookup_seq_lt; [done|].
      unfold chunk_count.
      pose proof (Nat.div_mod_eq (length payload + 1023) 1024).
      pose proof (Nat.mod_upper_bound (length payload + 1023) 1024). nia. }
    destruct (communication_tcp_send_ok (chunk_at payload a) 1024 h)
      as (s1 & Hrun1 & Hw1); [done|apply chunk_at_full; lia|].
    destruct (IH (S a) (ClientHandler.set_communication_socket s1 h))
      as (s2 & Hrun & Hw2); [by eapply wrote_alive|lia|lia|].
    erewrite bind_Ok; [|by erewrite bind_or_raise].
    rewrite Hrun. exists s2. split; [by destruct h|].
    by eapply wrote_trans.
Qed.
End RoundTripFacts.

Section RoundTrip.
Local Open Scope nat_scope.
Local Arguments Nat.div : simpl never.
Local Arguments Nat.mul : simpl never.

Lemma send_serialized_song_ok payload h :
  1 <= length payload ->
  (Z.of_nat (chunk_count (length payload)) < 2 ^ 32)%Z ->
  Socket.alive (ClientHandler._communication_socket h) ->
  exists s' count last_length,
    to_bytes4 (Z.of_nat (chunk_count (length payload))) = Some count
    /\ to_bytes4 (Z.of_nat (length (drop ((chunk_count (length payload) - 1) * 1024) payload)))
       = Some last_length
    /\ ClientHandler.send_serialized_song payload h
       = Ok tt (ClientHandler.set_communication_socket s' h)
    /\ wrote (ClientHandler._communication_socket h) s'
         (chunked payload count last_length).
Proof.
  intros Hne Hsmall Hal.
  pose proof (chunk_count_spec (length payload)) as (Hlo & Hup & Hpos).
  destruct (Hpos Hne) as [Hcnt Hlast]. clear Hpos.
  set (n := chunk_count (length payload)) in *.
  destruct (to_bytes4_is_Some (Z.of_nat n)) as [count Hcount]; [lia|].
  set (last_chunk := drop ((n - 1) * 1024) payload).
  assert (Hlastlen : length last_chunk <= 1024).
  { unfold last_chunk. rewrite length_drop. lia. }
  destruct (to_bytes4_is_Some (Z.of_nat (length last_chunk)))
    as [last_length Hll].
  { change (2 ^ 32)%Z with 4294967296%Z. lia. }
  unfold ClientHandler.send_serialized_song.
  erewrite bind_or_raise_sum by (by apply slice_song_bytes_spec).
  cbv beta iota. fold n. erewrite bind_or_raise by done.
  destruct (communication_tcp_send_ok count 4 h) as (s1 & Hrun1 & Hw1);
    [done|by eapply to_bytes4_length|].
  erewrite bind_Ok by done.
  unfold py_range.
  replace (Z.to_nat (Z.of_nat n - 1 - 0)) with (n - 1) by lia.
  destruct (send_chunks_ok payload (n - 1) 0
              (ClientHandler.set_communication_socket s1 h))
    as (s2 & Hrun2 & Hw2); [by eapply wrote_alive|lia|lia|].
  fold n in Hrun2. erewrite bind_Ok by exact Hrun2.
  rewrite chunks_concat in Hw2 by lia. rewrite Nat.mul_0_l, drop_0 in Hw2.
  assert (Echunk : py_getitem (chunk_at payload <$> seq 0 n) (-1)
                   = Some last_chunk).
  { rewrite py_getitem_last.
    replace n with (S (n - 1)) at 1 by lia.
    rewrite seq_S, fmap_app.
    change (chunk_at payload <$> [0 + (n - 1)]) with [chunk_at payload (0 + (n - 1))].
    rewrite last_snoc. f_equal. unfold chunk_at, last_chunk.
    replace (0 + (n - 1)) with (n - 1) by lia.
    apply take_ge. rewrite length_drop. lia. }
  erewrite bind_or_raise by exact Echunk.
  erewrite bind_or_raise by exact Hll.
  set (h2 := ClientHandler.set_communication_socket s2
               (ClientHandler.set_communication_socket s1 h)).
  assert (Hal2 : Socket.alive (ClientHandler._communication_socket h2))
    by (by eapply wrote_alive; [|eapply wrote_alive]).
  destruct (communication_tcp_send_ok last_length 4 h2) as (s3 & Hrun3 & Hw3);
    [done|by eapply to_bytes4_length|].
  erewrite bind_Ok by exact Hrun3.
  destruct (communication_tcp_send_ok last_chunk (length last_chunk)
              (ClientHandler.set_communication_socket s3 h2))
    as (s4 & -> & Hw4); [by eapply wrote_alive|done|].
  exists s4, count, last_length. split; [done|]. split; [done|].
  split; [by destruct h|].
  unfold chunked. fold n. fold last_chunk.
  eapply wrote_trans; [exact Hw1|]. eapply wrote_trans; [exact Hw2|].
  eapply wrote_trans; [exact Hw3|exact Hw4].
Qed.
End RoundTrip.

Section ReceiveFacts.
Import Controller.
Local Open Scope nat_scope.
Local Arguments Nat.div : simpl never.
Local Arguments Nat.mul : simpl never.

Lemma communication_tcp_recv_prefix data rest c :
  Socket.alive (_controller_client c) ->
  Socket.inbox (_controller_client c) = data ++ rest ->
  exists s', communication_tcp_recv (length data) c = Ok data (mk s')
             /\ Socket.inbox s' = rest /\ Socket.alive s'.
Proof.
  intros Hal Hin. unfold communication_tcp_recv, zoom.
  destruct (tcp_recv_prefix RuntimeError data rest (_controller_client c))
    as (s' & -> & Hi & _ & Hg); [done|done|].
  exists s'. split; [done|]. split; [done|]. by eapply alive_grant.
Qed.

Lemma recv_chunks_ok n :
  forall data rest acc c,
    length data = n * 1024 ->
    Socket.alive (_controller_client c) ->
    Socket.inbox (_controller_client c) = data ++ rest ->
    exists s', recv_chunks n acc c = Ok (acc ++ data) (mk s')
               /\ Socket.inbox s' = rest /\ Socket.alive s'.
Proof.
  induction n as [|n IH]; intros data rest acc c Hlen Hal Hin.
  - destruct data; [|done]. simpl. exists (_controller_client c).
    rewrite app_nil_r. by destruct c.
  - cbn [recv_chunks].
    rewrite <- (take_drop 1024 data), <- app_assoc in Hin.
    destruct (communication_tcp_recv_prefix _ _ c Hal Hin)
      as (s1 & Hrun1 & Hin1 & Hal1).
    rewrite length_take in Hrun1.
    replace (1024 `min` length data) with 1024 in Hrun1 by lia.
    erewrite bind_Ok by exact Hrun1.
    destruct (IH (drop 1024 data) rest (acc ++ take 1024 data) (mk s1))
      as (s2 & -> & Hin2 & Hal2); [rewrite length_drop; lia|done|done|].
    exists s2. split; [|done]. by rewrite <- app_assoc, take_drop.
Qed.

Lemma recv_serialized_song_ok payload count last_length rest c :
  1 <= length payload ->
  to_bytes4 (Z.of_nat (chunk_count (length payload))) = Some count ->
  to_bytes4 (Z.of_nat (length (drop ((chunk_count (length payload) - 1) * 1024) payload)))
    = Some last_length ->
  Socket.alive (_controller_client c) ->
  Socket.inbox (_controller_client c) = chunked payload count last_length ++ rest ->
  exists s', recv_serialized_song c = Ok payload (mk s')
             /\ Socket.inbox s' = rest /\ Socket.alive s'.
Proof.
  intros Hne Hcount Hll Hal Hin.
  pose proof (chunk_count_spec (length payload)) as (Hlo & Hup & Hpos).
  destruct (Hpos Hne) as [Hcnt Hlast]. clear Hpos.
  set (n := chunk_count (length payload)) in *.
  unfold chunked in Hin. fold n in Hin. rewrite <- !app_assoc in Hin.
  unfold recv_serialized_song.
  destruct (communication_tcp_recv_prefix _ _ c Hal Hin)
    as (s1 & Hrun1 & Hin1 & Hal1).
  rewrite (to_bytes4_length _ _ Hcount) in Hrun1.
  erewrite bind_Ok by exact Hrun1.
  rewrite (from_to_bytes4 _ _ Hcount).
  replace (Z.to_nat (Z.of_nat n - 1)) with (n - 1) by lia.
  destruct (recv_chunks_ok (n - 1) (take ((n - 1) * 1024) payload)
              (last_length ++ drop ((n - 1) * 1024) payload ++ rest) [] (mk s1))
    as (s2 & Hrun2 & Hin2 & Hal2); [rewrite length_take; lia|done|done|].
  erewrite bind_Ok by exact Hrun2.
  destruct (communication_tcp_recv_prefix _ _ (mk s2) Hal2 Hin2)
    as (s3 & Hrun3 & Hin3 & Hal3).
  rewrite (to_bytes4_length _ _ Hll) in Hrun3.
  erewrite bind_Ok by exact Hrun3.
  rewrite (from_to_bytes4 _ _ Hll), Nat2Z.id.
  destruct (communication_tcp_recv_prefix _ _ (mk s3) Hal3 Hin3)
    as (s4 & Hrun4 & Hin4 & Hal4).
  erewrite bind_Ok by exact Hrun4.
  exists s4. split; [|done]. unfold ret. by rewrite app_nil_l, take_drop.
Qed.
End ReceiveFacts.

Section ChunkedClaim.
Local Open Scope nat_scope.
Local Arguments Nat.div : simpl never.
Local Arguments Nat.mul : simpl never.

(** Every payload that is not empty and whose chunk count fits the
    4-byte header survives the transfer. *)
Lemma round_trips_nonempty (payload : list byte) :
  1 <= length payload ->
  (Z.of_nat (chunk_count (length payload)) < 2 ^ 32)%Z ->
  round_trips payload.
Proof.
  intros Hne Hsmall h Hal.
  destruct (send_serialized_song_ok payload h Hne Hsmall Hal)
    as (s' & count & last_length & Hcount & Hll & Hrun & Hw).
  eexists _, _. split; [exact Hrun|]. split; [exact Hw|].
  intros c rest Halive Hin.
  destruct (recv_serialized_song_ok payload count last_length rest c
              Hne Hcount Hll Halive Hin) as (s1 & Hrecv & Hrest & _).
  by eexists.
Qed.

(** C2, as the specification words it, fails at length 0: the sender
    slices the empty payload into no chunk, sends the count 0 and raises
    IndexError where it takes the last chunk. *)
Lemma empty_payload_is_not_transferred :
  In (length ([] : list byte)) [0; 1; 1023; 1024; 1025; 2049]
  /\ ~ round_trips []
  /\ exists h',
       ClientHandler.send_serialized_song [] Samples.handler3
       = Raise IndexError h'
       /\ Socket.outbox (ClientHandler._communication_socket h')
          = [x00; x00; x00; x00].
Proof.
  split; [by left|]. split.
  - intros H. destruct (H Samples.handler3) as (h' & wire & Hrun & _).
    + intros c. simpl. lia.
    + vm_compute in Hrun. discriminate Hrun.
  - eexists. split; vm_compute; reflexivity.
Qed.

(** C2, amended.  A payload of length 1, 1023, 1024, 1025 or 2049
    survives the chunked transfer: on connections that stay up the
    sender returns, having written the chunk count, the chunks before
    the last without prefix and the last one after its own length, and
    the receiver, given these bytes, returns the payload. *)
Theorem chunked_transfer_round_trips (payload : list byte) :
  In (length payload) [1; 1023; 1024; 1025; 2049] ->
  round_trips payload.
Proof.
  intros Hlen.
  assert (Hrange : 1 <= length payload <= 2049).
  { simpl in Hlen. destruct Hlen as [<-|[<-|[<-|[<-|[<-|[]]]]]]; lia. }
  apply round_trips_nonempty; [lia|].
  pose proof (chunk_count_spec (length payload)) as (Hlo & _ & _).
  change (2 ^ 32)%Z with 4294967296%Z. lia.
Qed.

Lemma chunked_transfer_round_trips_witness :
  round_trips (replicate 1025 x41).
Proof.
  apply chunked_transfer_round_trips.
  vm_compute. do 3 right. left. reflexivity.
Defined.
End ChunkedClaim.

(** ** Transfers that do not fit the data *)

Section SocketEdges.
Import Socket.
Local Open Scope nat_scope.

Lemma tcp_send_loop_prefix broken data bufsize fuel :
  forall total_sent s,
    alive s -> total_sent <= length data -> bufsize - total_sent <= fuel ->
    exists s' n,
      total_sent <= n <= length data
      /\ wrote s s' (take (n - total_sent) (drop total_sent data))
      /\ (if bufsize <=? length data
          then tcp_send_loop fuel broken data bufsize total_sent s = Ok tt s'
               /\ (total_sent < bufsize -> bufsize <= n)
          else (total_sent < bufsize ->
                tcp_send_loop fuel broken data bufsize total_sent s
                = Raise broken s' /\ n = length data)).
Proof.
  induction fuel as [|fuel IH]; intros total s Hal Hle Hfuel; simpl.
  - destruct (Nat.ltb_spec total bufsize); [lia|].
    exists s, total. split; [lia|]. rewrite Nat.sub_diag. simpl.
    split; [apply wrote_refl|].
    destruct (Nat.leb_spec bufsize (length data)); [split; [done|lia]|lia].
  - destruct (Nat.ltb_spec total bufsize) as [Hlt|Hge].
    2:{ exists s, total. split; [lia|]. rewrite Nat.sub_diag. simpl.
        split; [apply wrote_refl|].
        destruct (Nat.leb_spec bufsize (length data)); [split; [done|lia]|lia]. }
    unfold bind, send.
    set (k := Nat.min (grant s (calls s)) (length (drop total data))).
    set (s1 := mk (outbox s ++ take k (drop total data)) (inbox s)
                  (grant s) (S (calls s))).
    assert (Hk : k <= length data - total).
    { unfold k. rewrite length_drop. lia. }
    destruct (Nat.eqb_spec k 0) as [Hk0|Hk0].
    + (* nothing left to send *)
      assert (Hall : total = length data).
      { unfold k in Hk0. rewrite length_drop in Hk0.
        pose proof (Hal (calls s)). lia. }
      exists s1, total. split; [lia|]. rewrite Nat.sub_diag. simpl.
      split.
      { unfold wrote, s1. simpl. rewrite Hk0. simpl. done. }
      destruct (Nat.leb_spec bufsize (length data)); [lia|]. done.
    + destruct (IH (total + k) s1) as (s' & n & Hn & (Ho & Hi & Hg) & Hrun);
        [done|lia|lia|].
      exists s', n. split; [lia|]. split.
      { unfold wrote. simpl in *. split; [|done].
        rewrite Ho, <- app_assoc. f_equal.
        replace (n - total) with (k + (n - (total + k))) by lia.
        rewrite <- take_take_drop. by rewrite drop_drop. }
      destruct (Nat.leb_spec bufsize (length data)).
      * destruct Hrun as [-> Hn']. split; [done|]. intros _.
        destruct (Nat.ltb_spec (total + k) bufsize); [apply Hn'; lia|lia].
      * intros _. destruct (Nat.ltb_spec (total + k) bufsize) as [Hlt'|Hge'].
        -- by apply Hrun.
        -- lia.
Qed.

Lemma tcp_recv_loop_closed broken bufsize fuel :
  forall chunks bytes_received s,
    alive s ->
    length (inbox s) < bufsize - bytes_received ->
    bufsize - bytes_received <= fuel ->
    exists s',
      tcp_recv_loop fuel broken bufsize chunks bytes_received s
        = Raise broken s'
      /\ inbox s' = [] /\ outbox s' = outbox s /\ grant s' = grant s.
Proof.
  induction fuel as [|fuel IH]; intros chunks got s Hal Hin Hfuel; simpl.
  - lia.
  - destruct (Nat.ltb_spec got bufsize) as [Hlt|]; [|lia].
    unfold bind, recv.
    set (k := Nat.min (grant s (calls s)) (bufsize - got)).
    assert (Hk : 1 <= k <= bufsize - got).
    { unfold k. pose proof (Hal (calls s)). lia. }
    destruct (decide (take k (inbox s) = [])) as [E|E].
    + eexists. split; [done|]. simpl. split; [|done].
      destruct (inbox s) as [|b l] eqn:Ei; [by rewrite drop_nil|].
      destruct k; [lia|done].
    + assert (Hlen : 1 <= length (take k (inbox s))).
      { destruct (take k (inbox s)); [done|simpl; lia]. }
      rewrite length_take in Hlen.
      destruct (IH (chunks ++ take k (inbox s))
                  (got + length (take k (inbox s)))
                  (mk (outbox s) (drop k (inbox s)) (grant s) (S (calls s))))
        as (s' & -> & Hi & Ho & Hg); simpl; [done| | |].
      * rewrite length_drop, length_take. lia.
      * rewrite length_take. lia.
      * exists s'. done.
Qed.
End SocketEdges.

Section SocketExtras.
Import Socket.
Local Open Scope nat_scope.

(** The sending loop on a connection that stays up.  It writes the
    bytes of [data] in order, whatever the sizes of the partial sends.
    When [data] has at least [bufsize] bytes it returns once [bufsize]
    bytes or more are written; [bufsize] does not cut the data.  When
    [data] is shorter than [bufsize] it writes all of it and then takes
    the empty send that follows for a broken connection. *)
Theorem tcp_send_writes_a_prefix (broken : exn) (data : list byte)
    (bufsize : nat) (s : t) :
  alive s ->
  exists s' n,
    n <= length data
    /\ wrote s s' (take n data)
    /\ (if bufsize <=? length data
        then tcp_send broken data bufsize s = Ok tt s'
             /\ bufsize <= n
        else tcp_send broken data bufsize s = Raise broken s'
             /\ n = length data).
Proof.
  intros Hal.
  destruct (tcp_send_loop_prefix broken data bufsize bufsize 0 s)
    as (s' & n & Hn & Hw & Hrun); [done|lia|lia|].
  rewrite Nat.sub_0_r, drop_0 in Hw.
  exists s', n. split; [lia|]. split; [done|]. unfold tcp_send.
  destruct (Nat.leb_spec bufsize (length data)).
  - destruct Hrun as [-> Hn']. split; [done|].
    destruct bufsize; [lia|apply Hn'; lia].
  - apply Hrun. lia.
Qed.

Lemma tcp_send_writes_a_prefix_witness :
  exists s',
    tcp_send RuntimeError [x31; x31; x31] 6 (Samples.socket [])
    = Raise RuntimeError s'
    /\ outbox s' = [x31; x31; x31].
Proof.
  destruct (tcp_send_writes_a_prefix RuntimeError [x31; x31; x31] 6
              (Samples.socket []))
    as (s' & n & _ & (Ho & _) & Hrun & ->).
  - intros c. simpl. lia.
  - exists s'. split; [exact Hrun|]. rewrite Ho. reflexivity.
Defined.

(** The receiving loop on a connection that stays up until the peer
    has sent everything: it returns exactly the next [bufsize] bytes,
    never fewer and never more, when that many are to come; otherwise it
    raises, and the bytes that did arrive are dropped with it. *)
Theorem tcp_recv_all_or_nothing (broken : exn) (bufsize : nat) (s : t) :
  alive s ->
  exists s',
    (if bufsize <=? length (inbox s)
     then tcp_recv broken bufsize s = Ok (take bufsize (inbox s)) s'
          /\ inbox s' = drop bufsize (inbox s)
     else tcp_recv broken bufsize s = Raise broken s'
          /\ inbox s' = [])
    /\ outbox s' = outbox s.
Proof.
  intros Hal. destruct (Nat.leb_spec bufsize (length (inbox s))) as [Hle|Hlt].
  - destruct (tcp_recv_ok broken bufsize s Hal Hle) as (s' & Hrun & Hi & Ho & _).
    exists s'. split; [|done]. split; [done|].
    rewrite <- (take_drop bufsize (inbox s)) in Hi at 1.
    by apply app_inv_head in Hi.
  - destruct (tcp_recv_loop_closed broken bufsize bufsize [] 0 s)
      as (s' & Hrun & Hi & Ho & _); [done|lia|lia|].
    exists s'. done.
Qed.

Lemma tcp_recv_all_or_nothing_witness :
  exists s',
    tcp_recv RuntimeError 4 (Samples.socket [x03; x00; x00]) = Raise RuntimeError s'
    /\ inbox s' = [].
Proof.
  destruct (tcp_recv_all_or_nothing RuntimeError 4
              (Samples.socket [x03; x00; x00])) as (s' & Hrun & _).
  - intros c. simpl. lia.
  - exists s'. exact Hrun.
Defined.
End SocketExtras.

(** ** Transfers that are cut short *)

Section ReaderEdges.
Import MediaPlayer.
Local Open Scope nat_scope.

(** The frames that arrive before an exit tag go to the buffer; the
    tag ends the loop whatever the announced count. *)
Lemma read_frames_exit pkts :
  Forall (fun p => length p = 4096) pkts ->
  forall n mp rest,
    length pkts < n ->
    Socket.alive (_stream_client mp) ->
    Socket.inbox (_stream_client mp)
    = concat (frame <$> pkts) ++ encode "exit" ++ rest ->
    exists mp',
      read_frames n mp = Ok tt mp'
      /\ buffer mp' = buffer mp ++ pkts
      /\ Socket.inbox (_stream_client mp') = rest
      /\ Socket.alive (_stream_client mp')
      /\ Player._song_data_length (_player mp')
         = Player._song_data_length (_player mp).
Proof.
  induction 1 as [|pkt pkts Hlen _ IH]; intros n mp rest Hn Hal Hin.
  - destruct n as [|n]; [lia|]. simpl in *. unfold bind at 1.
    destruct (streaming_tcp_recv_prefix (encode "exit") _ mp Hal Hin)
      as (s1 & Hrun1 & Hin1 & Hal1).
    change (length (encode "exit")) with 4 in Hrun1. rewrite Hrun1.
    destruct (decide (encode "exit" = encode "data")) as [E|_]; [done|].
    destruct (decide (encode "exit" = encode "exit")) as [_|]; [|done].
    eexists. split; [done|]. unfold buffer. simpl. by rewrite app_nil_r.
  - destruct n as [|n]; [simpl in Hn; lia|]. simpl in Hin, Hn. simpl.
    unfold frame at 1 in Hin. rewrite <- !app_assoc in Hin.
    unfold bind at 1.
    destruct (streaming_tcp_recv_prefix (encode "data") _ mp Hal Hin)
      as (s1 & Hrun1 & Hin1 & Hal1).
    change (length (encode "data")) with 4 in Hrun1. rewrite Hrun1.
    destruct (decide (encode "data" = encode "data")) as [_|]; [|done].
    unfold bind at 1.
    destruct (streaming_tcp_recv_prefix pkt _ (set_stream_client s1 mp) Hal1 Hin1)
      as (s2 & Hrun2 & Hin2 & Hal2).
    rewrite Hlen in Hrun2. rewrite Hrun2.
    unfold bind, on_player, zoom, Player.receive_packet, modify. simpl.
    match goal with |- context [read_frames _ ?m] =>
      destruct (IH n m rest) as (mp' & -> & Hbuf & Hrest & Halive & Hlength);
        [lia|done|done|] end.
    exists mp'. split; [done|]. unfold buffer in *. simpl in *.
    rewrite Hbuf, <- app_assoc. done.
Qed.

Lemma read_from_server_exit pkts n mp count rest :
  Forall (fun p => length p = 4096) pkts ->
  length pkts < n ->
  to_bytes4 (Z.of_nat n) = Some count ->
  Socket.alive (_stream_client mp) ->
  Socket.inbox (_stream_client mp)
  = count ++ concat (frame <$> pkts) ++ encode "exit" ++ rest ->
  exists mp',
    _read_from_server mp = Ok tt mp'
    /\ buffer mp' = buffer mp ++ pkts ++ [encode "END_OF_FILE"]
    /\ Player._song_data_length (_player mp') = Z.of_nat n
    /\ Socket.inbox (_stream_client mp') = rest
    /\ _currently_reading mp' = true.
Proof.
  intros Hlen Hn Hcount Hal Hin.
  unfold _read_from_server, finally, try_except. unfold bind at 1.
  unfold modify at 1.
  set (mp0 := set_reading false false mp).
  destruct (streaming_tcp_recv_prefix count _ mp0 Hal Hin)
    as (s1 & Hrun1 & Hin1 & Hal1).
  rewrite (to_bytes4_length _ _ Hcount) in Hrun1.
  unfold bind at 1. rewrite Hrun1.
  rewrite (from_to_bytes4 _ _ Hcount). rewrite Nat2Z.id.
  unfold bind at 1. unfold on_player at 1, zoom, Player.set_song_data_length, modify.
  match goal with |- context [read_frames _ ?m] =>
    destruct (read_frames_exit pkts Hlen n m rest)
      as (mp1 & -> & Hbuf & Hrest & Halive & Hlength); [done|done|done|] end.
  unfold bind, on_player, zoom, Player.receive_packet, modify, gets. simpl.
  eexists. split; [done|]. unfold buffer in *. simpl in *.
  rewrite Hbuf, <- app_assoc. done.
Qed.
End ReaderEdges.

Section StreamingExtras.
Import ClientHandler.
Local Open Scope nat_scope.
Local Arguments Nat.div : simpl never.
Local Arguments Nat.mul : simpl never.
Local Arguments send_packets : simpl never.

(** A transfer, cancelled or not, seen from both ends.  The server
    holds the song as 16-bit stereo audio, the connections stay up, and
    the audio loop first sees the stop flag at its [j]-th read (or never,
    [j] being the frame count).  Then the reader of the client, given
    the reply in full, returns with exactly the first [j] packets and
    the sentinel appended to the buffer, the song length set to the
    announced count, and the connection read up to the end of the reply:
    the exit tag leaves nothing behind for the next transfer. *)
Theorem transfer_reaches_the_buffer (h : t) (song_id : Z) (w : Wave)
    (j : nat) :
  List.find (fun row => (fst row =? song_id)%Z) (songs h) = Some (song_id, w) ->
  framesize w = 4 ->
  (Z.of_nat (length (pcm w) / 4096) < 2 ^ 32)%Z ->
  Socket.alive (_streaming_socket h) ->
  (forall i, i < j -> stop_seen_at h i = false) ->
  (j < length (pcm w) / 4096 /\ stop_seen_at h j = true)
  \/ j = length (pcm w) / 4096 ->
  exists h' reply,
    _send_song_data song_id h = Ok tt h'
    /\ Socket.outbox (_streaming_socket h')
       = Socket.outbox (_streaming_socket h) ++ reply
    /\ forall mp rest,
         Socket.alive (MediaPlayer._stream_client mp) ->
         Socket.inbox (MediaPlayer._stream_client mp) = reply ++ rest ->
         exists mp',
           MediaPlayer._read_from_server mp = Ok tt mp'
           /\ buffer mp'
              = buffer mp ++ take j (full_packets (pcm w))
                ++ [encode "END_OF_FILE"]
           /\ Player._song_data_length (MediaPlayer._player mp')
              = Z.of_nat (length (pcm w) / 4096)
           /\ Socket.inbox (MediaPlayer._stream_client mp') = rest
           /\ MediaPlayer._currently_reading mp' = true.
Proof.
  intros Hfind Hfs Hsmall Hal Hclear Hj.
  destruct (send_song_data_found h song_id w j Hfind Hfs Hsmall Hal Hclear Hj)
    as (h' & count & Hcount & Hrun & ((Hout & _) & _) & _).
  eexists h', _. split; [done|]. split; [exact Hout|].
  intros mp rest Halive Hin.
  assert (Hlens : Forall (fun p => length p = 4096)
                    (take j (full_packets (pcm w)))).
  { apply Forall_take, full_packets_length. }
  assert (Hjlen : length (take j (full_packets (pcm w))) = j).
  { rewrite length_take, length_full_packets. lia. }
  destruct (Nat.ltb_spec j (length (pcm w) / 4096)) as [Hlt|Hge].
  - destruct (read_from_server_exit (take j (full_packets (pcm w)))
                (length (pcm w) / 4096) mp count rest)
      as (mp' & Hr & Hbuf & Hl & Hrest & Hread); try done.
    + by rewrite Hjlen.
    + rewrite Hin, <- !app_assoc. done.
    + by exists mp'.
  - assert (Hjeq : j = length (pcm w) / 4096) by lia.
    destruct (read_from_server_ok (take j (full_packets (pcm w)))
                mp count rest)
      as (mp' & Hr & Hbuf & Hl & Hrest & Hread); try done.
    + by rewrite Hjlen, Hjeq.
    + rewrite Hin, app_nil_r, <- !app_assoc. done.
    + exists mp'. rewrite Hjlen in Hl. rewrite <- Hjeq. done.
Qed.

Lemma transfer_reaches_the_buffer_witness :
  exists h' reply,
    _send_song_data 7 Samples.handler = Ok tt h'
    /\ Socket.outbox (_streaming_socket h') = reply
    /\ exists mp',
         MediaPlayer._read_from_server (Samples.mediaplayer_on reply)
         = Ok tt mp'
         /\ buffer mp' = [replicate 4096 x2a; encode "END_OF_FILE"].
Proof.
  destruct (transfer_reaches_the_buffer Samples.handler 7
              (Samples.wave (Z.to_nat 8200)) 1)
    as (h' & reply & Hrun & Hout & Hread).
  - reflexivity.
  - reflexivity.
  - vm_compute. reflexivity.
  - intros c. simpl. lia.
  - intros i Hi. assert (i = 0) as -> by lia. reflexivity.
  - left. split; [vm_compute; lia|reflexivity].
  - exists h', reply. split; [exact Hrun|]. split; [exact Hout|].
    destruct (Hread (Samples.mediaplayer_on reply) [])
      as (mp' & Hr & Hbuf & _).
    + intros c. simpl. lia.
    + simpl. by rewrite app_nil_r.
    + exists mp'. split; [exact Hr|]. rewrite Hbuf. vm_compute. reflexivity.
Defined.

(** Only audio with four bytes per frame is streamed.  For a file of
    another frame size (and not of exactly 4096 bytes) the first read
    of 1024 frames is not a packet of 4096 bytes, and the reply is the
    frame count alone: [int(getnframes() / 1024)], which need not be
    zero, with no frame after it. *)
Theorem other_frame_sizes_are_not_streamed (h : t) (song_id : Z)
    (w : Wave) :
  List.find (fun row => (fst row =? song_id)%Z) (songs h) = Some (song_id, w) ->
  framesize w <> 4 ->
  length (pcm w) <> 4096 ->
  (Z.of_nat (length (pcm w) / framesize w / 1024) < 2 ^ 32)%Z ->
  Socket.alive (_streaming_socket h) ->
  exists h' count,
    to_bytes4 (Z.of_nat (length (pcm w) / framesize w / 1024)) = Some count
    /\ _send_song_data song_id h = Ok tt h'
    /\ Socket.outbox (_streaming_socket h')
       = Socket.outbox (_streaming_socket h) ++ count
    /\ _stop_send h' = _stop_send h.
Proof.
  intros Hfind Hfs Hlen Hsmall Hal.
  assert (Hn : (0 <= getnframes w < 2 ^ 53)%Z).
  { unfold getnframes. split; [apply Nat2Z.is_nonneg|].
    rewrite (Nat2Z.inj_div _ 1024) in Hsmall.
    change (2 ^ 53)%Z with 9007199254740992%Z.
    change (2 ^ 32)%Z with 4294967296%Z in Hsmall.
    revert Hsmall. generalize (Z.of_nat (length (pcm w) / framesize w)).
    intros z H. change (Z.of_nat 1024) with 1024%Z in H.
    Z.div_mod_to_equations. lia. }
  destruct (truediv_pow2 _ 10 Hn) as (x & Hx & Hval); [lia|].
  assert (Hint : PyFloat.int x
                 = Z.of_nat (length (pcm w) / framesize w / 1024)).
  { rewrite (int_of_quotient x _ (2 ^ 10) (proj1 Hn) eq_refl Hval).
    unfold getnframes. change (2 ^ 10)%Z with (Z.of_nat 1024).
    by rewrite <- Nat2Z.inj_div. }
  destruct (to_bytes4_is_Some
              (Z.of_nat (length (pcm w) / framesize w / 1024)))
    as [count Hcount]; [lia|].
  unfold _send_song_data, _get_song_and_length. unfold_monad. simpl.
  rewrite Hfind. change (Z.of_nat _chunk) with (2 ^ 10)%Z. rewrite Hx.
  simpl. rewrite Hint, Hcount. simpl.
  destruct (streaming_tcp_send_ok count 4 h) as (h1 & -> & Hst1 & Hstop1 & Hr1);
    [done|by eapply to_bytes4_length|].
  unfold readframes, send_packets.
  destruct (Nat.eqb_spec (length (take (_chunk * framesize w) (pcm w)))
              (_chunk * 4)) as [E|_].
  { exfalso. rewrite length_take in E. unfold _chunk in E. lia. }
  exists h1, count. split; [done|]. split; [done|].
  destruct Hst1 as ((Ho & _) & _). done.
Qed.

Lemma other_frame_sizes_are_not_streamed_witness :
  exists h',
    _send_song_data 5
      (mk (Samples.socket []) (Samples.socket []) false
          [(5%Z, mkWave 1 2 (replicate (Z.to_nat 6000) x2a))]
          (fun _ => false) 0)
    = Ok tt h'
    /\ Socket.outbox (_streaming_socket h') = [x02; x00; x00; x00].
Proof.
  destruct (other_frame_sizes_are_not_streamed
              (mk (Samples.socket []) (Samples.socket []) false
                  [(5%Z, mkWave 1 2 (replicate (Z.to_nat 6000) x2a))]
                  (fun _ => false) 0)
              5 (mkWave 1 2 (replicate (Z.to_nat 6000) x2a)))
    as (h' & count & Hcount & Hrun & Hout & _).
  - reflexivity.
  - vm_compute. lia.
  - vm_compute. lia.
  - vm_compute. reflexivity.
  - intros c. simpl. lia.
  - exists h'. split; [exact Hrun|]. rewrite Hout.
    vm_compute in Hcount. injection Hcount as <-. reflexivity.
Defined.
End StreamingExtras.

Section ReaderErrors.
Import MediaPlayer.
Local Open Scope nat_scope.

(** The reader and a connection the server has closed.  When fewer
    than the four bytes of the frame count arrive, the receiving loop
    raises RuntimeError; the reader catches ConnectionResetError only,
    so the error leaves the reader: the reconnect event is not set.  The
    [finally] clause still appends the sentinel and marks the reading as
    ended. *)
Theorem reader_lets_a_closed_connection_through (mp : t) :
  Socket.alive (_stream_client mp) ->
  length (Socket.inbox (_stream_client mp)) < 4 ->
  exists mp',
    _read_from_server mp = Raise RuntimeError mp'
    /\ buffer mp' = buffer mp ++ [encode "END_OF_FILE"]
    /\ _reconnect mp' = _reconnect mp
    /\ _currently_reading mp' = true
    /\ Player._song_data_length (_player mp')
       = Player._song_data_length (_player mp).
Proof.
  intros Hal Hshort.
  destruct (tcp_recv_loop_closed RuntimeError 4 4 [] 0 (_stream_client mp))
    as (s' & Hrun & _); [done|lia|lia|].
  assert (Hrecv : streaming_tcp_recv 4 (set_reading false false mp)
                  = Raise RuntimeError
                      (set_stream_client s' (set_reading false false mp))).
  { unfold streaming_tcp_recv, on_stream_client, zoom, Socket.tcp_recv.
    change (_stream_client (set_reading false false mp))
      with (_stream_client mp).
    by rewrite Hrun. }
  unfold _read_from_server, finally, try_except. unfold bind at 1.
  unfold modify at 1. unfold bind at 1. rewrite Hrecv. simpl.
  eexists. split; [reflexivity|]. done.
Qed.

Lemma reader_lets_a_closed_connection_through_witness :
  exists mp',
    _read_from_server (Samples.mediaplayer_on [x03; x00]) = Raise RuntimeError mp'
    /\ buffer mp' = [encode "END_OF_FILE"].
Proof.
  destruct (reader_lets_a_closed_connection_through
              (Samples.mediaplayer_on [x03; x00])) as (mp' & Hrun & Hbuf & _).
  - intros c. simpl. lia.
  - simpl. lia.
  - exists mp'. split; [exact Hrun|]. rewrite Hbuf. reflexivity.
Defined.
End ReaderErrors.

(** ** The reply to a search *)

Section SearchExtras.
Local Open Scope nat_scope.
Local Arguments Nat.div : simpl never.
Local Arguments Nat.mul : simpl never.

Lemma send_songs_ok results :
  Forall (fun p => 1 <= length p
                   /\ (Z.of_nat (chunk_count (length p)) < 2 ^ 32)%Z) results ->
  forall h,
    Socket.alive (ClientHandler._communication_socket h) ->
    exists s',
      for_each results ClientHandler.send_serialized_song h
      = Ok tt (ClientHandler.set_communication_socket s' h)
      /\ wrote (ClientHandler._communication_socket h) s'
           (concat (song_wire <$> results)).
Proof.
  induction 1 as [|p results [Hp1 Hp2] _ IH]; intros h Hal; simpl.
  - exists (ClientHandler._communication_socket h).
    split; [by destruct h|]. apply wrote_refl.
  - unfold bind at 1.
    destruct (send_serialized_song_ok p h Hp1 Hp2 Hal)
      as (s1 & count & last_length & Hc & Hl & -> & Hw1).
    destruct (IH (ClientHandler.set_communication_socket s1 h))
      as (s2 & -> & Hw2).
    { simpl. by eapply wrote_alive. }
    exists s2. split; [done|].
    unfold song_wire. rewrite Hc, Hl. simpl.
    by eapply wrote_trans.
Qed.

Lemma recv_songs_ok results :
  Forall (fun p => 1 <= length p
                   /\ (Z.of_nat (chunk_count (length p)) < 2 ^ 32)%Z) results ->
  forall acc c rest,
    Socket.alive (Controller._controller_client c) ->
    Socket.inbox (Controller._controller_client c)
    = concat (song_wire <$> results) ++ rest ->
    exists s',
      Controller.recv_songs (length results) acc c
      = Ok (acc ++ results) (Controller.mk s')
      /\ Socket.inbox s' = rest /\ Socket.alive s'.
Proof.
  induction 1 as [|p results [Hp1 Hp2] _ IH]; intros acc c rest Hal Hin; simpl.
  - exists (Controller._controller_client c). rewrite app_nil_r.
    split; [by destruct c|]. done.
  - simpl in Hin. rewrite <- app_assoc in Hin. unfold bind at 1.
    destruct (to_bytes4_is_Some (Z.of_nat (chunk_count (length p))))
      as [count Hc]; [lia|].
    destruct (to_bytes4_is_Some
                (Z.of_nat (length (drop ((chunk_count (length p) - 1) * 1024) p))))
      as [last_length Hl].
    { rewrite length_drop.
      pose proof (chunk_count_spec (length p)) as (? & ? & ?).
      change (2 ^ 32)%Z with 4294967296%Z. lia. }
    unfold song_wire at 1 in Hin. rewrite Hc, Hl in Hin. simpl in Hin.
    destruct (recv_serialized_song_ok p count last_length _ c Hp1 Hc Hl Hal Hin)
      as (s1 & -> & Hin1 & Hal1).
    destruct (IH (acc ++ [p]) (Controller.mk s1) rest Hal1 Hin1)
      as (s2 & -> & Hin2 & Hal2).
    exists s2. by rewrite <- app_assoc.
Qed.

Lemma search_for_song_ok (results : list (list byte)) h :
  Forall (fun p => 1 <= length p
                   /\ (Z.of_nat (chunk_count (length p)) < 2 ^ 32)%Z) results ->
  (Z.of_nat (length results) < 2 ^ 32)%Z ->
  Socket.alive (ClientHandler._communication_socket h) ->
  exists s',
    ClientHandler._search_for_song results h
    = Ok tt (ClientHandler.set_communication_socket s' h)
    /\ wrote (ClientHandler._communication_socket h) s' (search_wire results).
Proof.
  intros Hres Hn Hal.
  destruct (to_bytes4_is_Some (Z.of_nat (length results))) as [count Hc];
    [lia|].
  unfold search_wire. rewrite Hc. simpl default.
  unfold ClientHandler._search_for_song.
  erewrite bind_or_raise by exact Hc.
  unfold bind at 1.
  destruct (communication_tcp_send_ok count 4 h Hal
              (to_bytes4_length _ _ Hc)) as (s1 & -> & Hw1).
  destruct (send_songs_ok results Hres
              (ClientHandler.set_communication_socket s1 h))
    as (s2 & Hrun & Hw2).
  { simpl. by eapply wrote_alive. }
  exists s2. split.
  - rewrite Hrun. by destruct h.
  - simpl in Hw2. by eapply wrote_trans.
Qed.

Lemma recv_search_results_ok (results : list (list byte)) c rest :
  Forall (fun p => 1 <= length p
                   /\ (Z.of_nat (chunk_count (length p)) < 2 ^ 32)%Z) results ->
  (Z.of_nat (length results) < 2 ^ 32)%Z ->
  Socket.alive (Controller._controller_client c) ->
  Socket.inbox (Controller._controller_client c)
  = search_wire results ++ rest ->
  exists s',
    Controller.recv_search_results c = Ok results (Controller.mk s')
    /\ Socket.inbox s' = rest.
Proof.
  intros Hres Hn Halc Hin.
  destruct (to_bytes4_is_Some (Z.of_nat (length results))) as [count Hc];
    [lia|].
  unfold search_wire in Hin. rewrite Hc in Hin. simpl default in Hin.
  rewrite <- app_assoc in Hin.
  unfold Controller.recv_search_results. unfold bind at 1.
  destruct (communication_tcp_recv_prefix count _ c Halc Hin)
    as (s3 & Hr & Hin3 & Hal3).
  rewrite (to_bytes4_length _ _ Hc) in Hr. rewrite Hr.
  rewrite (from_to_bytes4 _ _ Hc), Nat2Z.id.
  destruct results as [|p results].
  - simpl. exists s3. done.
  - destruct (Z.ltb_spec 0 (Z.of_nat (length (p :: results)))) as [_|H0];
      [|simpl in H0; lia].
    destruct (recv_songs_ok (p :: results) Hres [] (Controller.mk s3) rest
                Hal3 Hin3) as (s4 & -> & Hin4 & _).
    exists s4. done.
Qed.

(** The reply to a search, from the handler of the server to the
    controller of the client.  The handler sends the number of songs
    found and then each pickled song in chunks; on connections that
    stay up the controller, given these bytes, returns the same pickled
    songs in the same order and reads no byte beyond the reply.  A
    search that finds nothing is answered by the count 0 alone, and the
    controller returns the empty list.  This holds for pickled songs
    that are not empty, as every pickle is. *)
Theorem search_reply_round_trips (results : list (list byte))
    (h : ClientHandler.t) :
  Forall (fun p => 1 <= length p
                   /\ (Z.of_nat (chunk_count (length p)) < 2 ^ 32)%Z) results ->
  (Z.of_nat (length results) < 2 ^ 32)%Z ->
  Socket.alive (ClientHandler._communication_socket h) ->
  exists h',
    ClientHandler._search_for_song results h = Ok tt h'
    /\ Socket.outbox (ClientHandler._communication_socket h')
       = Socket.outbox (ClientHandler._communication_socket h)
         ++ search_wire results
    /\ forall c rest,
         Socket.alive (Controller._controller_client c) ->
         Socket.inbox (Controller._controller_client c)
         = search_wire results ++ rest ->
         exists c',
           Controller.recv_search_results c = Ok results c'
           /\ Socket.inbox (Controller._controller_client c') = rest.
Proof.
  intros Hres Hn Hal.
  destruct (search_for_song_ok results h Hres Hn Hal)
    as (s' & Hrun & (Hout & _)).
  eexists. split; [exact Hrun|]. split; [exact Hout|].
  intros c rest Halc Hin.
  destruct (recv_search_results_ok results c rest Hres Hn Halc Hin)
    as (s2 & Hr & Hi).
  by exists (Controller.mk s2).
Qed.

Lemma search_reply_round_trips_witness :
  exists h',
    ClientHandler._search_for_song [[x41; x42]; [x43]] Samples.handler3
    = Ok tt h'
    /\ exists c',
         Controller.recv_search_results
           (Controller.mk
              (Samples.socket
                 (Socket.outbox (ClientHandler._communication_socket h'))))
         = Ok [[x41; x42]; [x43]] c'.
Proof.
  destruct (search_reply_round_trips [[x41; x42]; [x43]] Samples.handler3)
    as (h' & Hrun & Hout & Hrecv).
  - repeat constructor; simpl; lia.
  - reflexivity.
  - intros c. simpl. lia.
  - exists h'. split; [exact Hrun|].
    destruct (Hrecv (Controller.mk
                       (Samples.socket
                          (Socket.outbox
                             (ClientHandler._communication_socket h')))) [])
      as (c' & Hc & _).
    + intros c. simpl. lia.
    + rewrite app_nil_r. simpl. rewrite Hout. reflexivity.
    + exists c'. exact Hc.
Defined.
End SearchExtras.

(** ** More on the song queue *)

Section QueueExtras.
Import SongQueue QueueSpec.
Local Open Scope nat_scope.

Lemma for_each_fixed {S X} (xs : list X) (body : X -> M S unit) s :
  (forall x, x ∈ xs -> body x s = Ok tt s) -> for_each xs body s = Ok tt s.
Proof.
  induction xs as [|x xs IH]; intros H; simpl; [done|].
  unfold bind. rewrite H by left. apply IH. intros y Hy. apply H. by right.
Qed.

Lemma same_id_same_position (l : list Song) i j s s' :
  NoDup (song_id <$> l) -> l !! i = Some s -> l !! j = Some s' ->
  song_id s = song_id s' -> i = j.
Proof.
  intros Hnd Hi Hj Hid.
  apply (NoDup_lookup (song_id <$> l) i j (song_id s)); [done|..].
  - by rewrite list_lookup_fmap, Hi.
  - by rewrite list_lookup_fmap, Hj, Hid.
Qed.

Lemma same_ids_same_songs (l l' : list Song) :
  NoDup (song_id <$> l) -> l' ≡ₚ l ->
  (forall j, song_id <$> l' !! j = song_id <$> l !! j) -> l' = l.
Proof.
  intros Hnd Hp Hids. apply list_eq. intros j. specialize (Hids j).
  destruct (l' !! j) as [s'|] eqn:E', (l !! j) as [s|] eqn:E;
    simpl in Hids; try done.
  injection Hids as Hid. f_equal.
  assert (Hin : s' ∈ l) by (rewrite <- Hp; by eapply list_elem_of_lookup_2).
  apply list_elem_of_lookup_1 in Hin as [i Hi].
  assert (i = j) as -> by by eapply same_id_same_position.
  congruence.
Qed.

Lemma py_remove_fresh (eqb : entry -> bool) (l : list entry) e :
  Forall (fun x => eqb x = false) l -> eqb e = true ->
  py_remove eqb (l ++ [e]) = Some l.
Proof.
  induction 1 as [|x l Hx _ IH]; intros He; simpl.
  - by rewrite He.
  - rewrite Hx, IH by done. done.
Qed.

(** [pop_from_queue] does all or nothing.  When it returns, the song
    at the index is gone from the play order and the first entry with
    its identifier is gone from the insertion order.  When it raises,
    the queue is as before: IndexError for an index out of range,
    ValueError when the insertion order has no entry for the song. *)
Theorem pop_from_queue_all_or_nothing (index : Z) (q : t) :
  match pop_from_queue index q with
  | Ok _ q' =>
      exists j s,
        py_index (_queue q) index = Some j
        /\ _queue q !! j = Some s
        /\ _queue q' = delete j (_queue q)
        /\ py_remove (fun e => entry_eq_id e (song_id s)) (_ordered_queue q)
           = Some (_ordered_queue q')
  | Raise e q' =>
      q' = q
      /\ match py_getitem (_queue q) index with
         | None => e = IndexError
         | Some s => e = ValueError /\ EId (song_id s) ∉ _ordered_queue q
         end
  end.
Proof.
  unfold pop_from_queue. unfold_monad. simpl.
  unfold py_getitem, py_pop.
  destruct (py_index (_queue q) index) as [j|] eqn:Ej; simpl; [|done].
  destruct (_queue q !! j) as [s|] eqn:Es; simpl.
  2:{ apply py_index_lt_length in Ej. apply lookup_ge_None in Es. lia. }
  destruct (py_remove _ (_ordered_queue q)) as [o|] eqn:Er; simpl.
  - exists j, s. done.
  - split; [done|]. split; [done|]. intros Hin.
    destruct (py_remove_is_Some (fun e => entry_eq_id e (song_id s))
                (_ordered_queue q) (EId (song_id s)) Hin) as [o Ho].
    + by apply entry_eq_id_true.
    + congruence.
Qed.

(** Appending a song and removing the last song again, as
    [pop_from_queue()] does with its default index, gives back the queue
    when the song's identifier was not in the insertion order before. *)
Theorem pop_undoes_append (s : Song) (q : t) :
  EId (song_id s) ∉ _ordered_queue q ->
  pop_from_queue (-1) (final (append_to_queue s q)) = Ok tt q.
Proof.
  intros Hfresh. destruct q as [l o]. simpl in *.
  unfold pop_from_queue. unfold_monad. simpl.
  rewrite py_getitem_last, last_snoc. simpl.
  rewrite py_remove_fresh.
  - simpl. unfold py_pop, py_index. rewrite length_app. simpl.
    destruct (Z.leb_spec 0 (-1 + Z.of_nat (length l + 1))); [|lia].
    destruct (Z.ltb_spec (-1 + Z.of_nat (length l + 1))
                (Z.of_nat (length l + 1))); [|lia].
    simpl. replace (Z.to_nat (-1 + Z.of_nat (length l + 1))) with (length l)
      by lia.
    rewrite delete_middle. simpl. by rewrite app_nil_r.
  - apply Forall_forall. intros e He.
    destruct (entry_eq_id e (song_id s)) eqn:E; [|done].
    apply entry_eq_id_true in E as ->. done.
  - by apply entry_eq_id_true.
Qed.

Lemma pop_undoes_append_witness :
  pop_from_queue (-1) (final (append_to_queue (Samples.song 4) Samples.queue231))
  = Ok tt Samples.queue231.
Proof.
  apply pop_undoes_append. simpl.
  rewrite !elem_of_cons, elem_of_nil. intros [H|[H|[H|[]]]]; discriminate.
Defined.

Section Fixed.
Variables (q : t) (k m : nat) (c : Song).
Hypothesis Hdistinct : NoDup (song_id <$> _queue q).
Hypothesis Hsame : play_ids q ≡ₚ _ordered_queue q.
Hypothesis Hcur : _queue q !! k = Some c.
Hypothesis Hslot : _ordered_queue q !! m = Some (entry_of c).
Hypothesis Hrestored :
  forall i, i < length (_queue q) -> i <> k -> i <> m -> restored_at q q i.

(** A queue in which every song but the current one is where the
    insertion order puts it is left as it is. *)
Lemma unshuffle_fixed : unshuffle k q = Ok tt q.
Proof.
  unfold unshuffle, bind, gets.
  destruct (Nat.ltb_spec 0 (length (_queue q))) as [_|]; [|done].
  apply for_each_fixed. intros i [_ Hi]%elem_of_seq. simpl in Hi.
  unfold unshuffle_body, bind, gets. simpl.
  destruct (lookup_lt_is_Some_2 (_ordered_queue q) i) as [e He].
  { by rewrite (ordered_length q Hsame). }
  rewrite He. simpl.
  destruct (ordered_index_of_is_Some e (_queue q)) as [oi Hoi].
  { fold (play_ids q). rewrite Hsame. by eapply list_elem_of_lookup_2. }
  rewrite Hoi. simpl.
  apply ordered_index_of_Some in Hoi as (s & Hs & ->).
  destruct (Nat.eqb_spec i k) as [->|Hik]; simpl; [done|].
  destruct (Nat.eqb_spec oi k) as [->|Hok]; simpl; [done|].
  destruct (decide (i = m)) as [->|Him].
  { exfalso. apply Hok. rewrite Hslot in He.
    assert (song_id s = song_id c) by (unfold entry_of in He; congruence).
    by eapply same_id_same_position. }
  pose proof (Hrestored i Hi Hik Him) as Hr. unfold restored_at in Hr.
  rewrite He in Hr.
  destruct (_queue q !! i) as [si|] eqn:Esi; simpl in Hr; [|done].
  assert (song_id s = song_id si) by (unfold entry_of in Hr; congruence).
  assert (oi = i) as -> by by eapply same_id_same_position.
  unfold zoom, swap_items. rewrite Esi.
  rewrite !list_insert_id by (try rewrite list_insert_id; done).
  by destruct q.
Qed.
End Fixed.

(** [unshuffle] is idempotent: on a queue with distinct identifiers
    whose insertion order lists the songs of the play order, a second
    [unshuffle] at the same index changes nothing. *)
Theorem unshuffle_twice (q : t) (k : nat) :
  NoDup (song_id <$> _queue q) ->
  play_ids q ≡ₚ _ordered_queue q ->
  k < length (_queue q) ->
  exists q', unshuffle k q = Ok tt q' /\ unshuffle k q' = Ok tt q'.
Proof.
  intros Hnd Hsame Hk.
  destruct (lookup_lt_is_Some_2 _ _ Hk) as [c Hc].
  assert (Hin : entry_of c ∈ _ordered_queue q).
  { rewrite <- Hsame. unfold play_ids. apply list_elem_of_fmap.
    exists c. split; [done|]. by eapply list_elem_of_lookup_2. }
  apply list_elem_of_lookup_1 in Hin as [m Hm].
  destruct (unshuffle_ok q k m c Hnd Hsame Hc Hm)
    as (q' & Hrun & Hord & Hperm & Hk' & Hdone).
  exists q'. split; [done|].
  assert (Hlen : length (_queue q') = length (_queue q)) by by rewrite Hperm.
  apply (unshuffle_fixed q' k m c).
  - by rewrite Hperm.
  - unfold play_ids. rewrite Hperm, Hord. done.
  - done.
  - by rewrite Hord.
  - intros i Hi Hik Him. unfold restored_at. rewrite Hord.
    apply Hdone; [lia|done..].
Qed.

Lemma unshuffle_twice_witness :
  exists q',
    unshuffle 0 Samples.queue231 = Ok tt q'
    /\ unshuffle 0 q' = Ok tt q'.
Proof.
  apply unshuffle_twice.
  - apply (bool_decide_unpack _). vm_compute. exact I.
  - apply (Permutation_app_comm [EId 2; EId 3] [EId 1]).
  - simpl. lia.
Defined.

(** [unshuffle] undoes [shuffle].  On a queue with distinct
    identifiers that is in insertion order (as after any number of
    [append_to_queue]), [unshuffle] changes nothing; and whatever the
    random choices of [shuffle k], the [unshuffle k] that follows it
    gives back the queue, every song at its place. *)
Theorem unshuffle_undoes_shuffle (q : t) (g : Random) (k : nat) :
  NoDup (song_id <$> _queue q) ->
  play_ids q = _ordered_queue q ->
  k < length (_queue q) ->
  unshuffle k q = Ok tt q
  /\ exists w, shuffle k (q, g) = Ok tt w /\ unshuffle k (fst w) = Ok tt q.
Proof.
  intros Hnd Hord Hk.
  destruct (lookup_lt_is_Some_2 _ _ Hk) as [c Hc].
  assert (Hslot : _ordered_queue q !! k = Some (entry_of c)).
  { rewrite <- Hord. unfold play_ids. by rewrite list_lookup_fmap, Hc. }
  assert (Hsame : play_ids q ≡ₚ _ordered_queue q) by by rewrite Hord.
  split.
  { apply (unshuffle_fixed q k k c); try done.
    intros i _ _ _. unfold restored_at. rewrite <- Hord. unfold play_ids.
    by rewrite list_lookup_fmap. }
  destruct (shuffle_ok q k g Hk) as ([q1 g1] & Hrun & Ho1 & Hp1 & Hk1).
  exists (q1, g1). split; [done|]. simpl in *.
  destruct (unshuffle_ok q1 k k c) as (q2 & Hrun2 & Ho2 & Hp2 & Hk2 & Hdone).
  - by rewrite Hp1.
  - unfold play_ids. rewrite Hp1, Ho1. done.
  - by rewrite Hk1.
  - by rewrite Ho1.
  - rewrite Hrun2. f_equal.
    assert (Hl : _queue q2 = _queue q).
    { apply same_ids_same_songs; [done|by etrans|].
      intros j. destruct (decide (j = k)) as [->|Hjk].
      { by rewrite Hk2, Hc. }
      destruct (decide (j < length (_queue q))) as [Hj|Hj].
      - assert (Hr : restored_at q1 q2 j).
        { apply Hdone; [|done..]. rewrite Hp1. done. }
        unfold restored_at in Hr. rewrite Ho1, <- Hord in Hr.
        unfold play_ids in Hr. rewrite list_lookup_fmap in Hr.
        unfold entry_of in Hr.
        destruct (_queue q2 !! j), (_queue q !! j); simpl in *; congruence.
      - rewrite !lookup_ge_None_2; [done|lia|].
        rewrite Hp2, Hp1. lia. }
    destruct q2 as [l2 o2], q as [l o]. simpl in *. congruence.
Qed.

Lemma unshuffle_undoes_shuffle_witness :
  exists w,
    shuffle 1 (SongQueue.mk [Samples.song 1; Samples.song 2; Samples.song 3]
                 [EId 1; EId 2; EId 3], Samples.random) = Ok tt w
    /\ unshuffle 1 (fst w)
       = Ok tt (SongQueue.mk [Samples.song 1; Samples.song 2; Samples.song 3]
                  [EId 1; EId 2; EId 3]).
Proof.
  apply (unshuffle_undoes_shuffle
           (SongQueue.mk [Samples.song 1; Samples.song 2; Samples.song 3]
              [EId 1; EId 2; EId 3]) Samples.random 1).
  - apply (bool_decide_unpack _). vm_compute. exact I.
  - reflexivity.
  - simpl. lia.
Defined.
End QueueExtras.

(** ** The player thread *)

Section PlayerFloat.
Import PyFloat.
Local Open Scope Q_scope.

(** The quotient of the progress computation neither divides by zero
    nor overflows. *)
Lemma truediv_small a b :
  (0 <= a <= 2 ^ 52)%Z -> (1 <= b)%Z -> exists x, truediv a b = inr x.
Proof.
  intros Ha Hb. unfold truediv.
  destruct (Z.eqb_spec b 0) as [|_]; [lia|].
  assert (Hb0 : 0 < inject_Z b) by (rewrite <- (Zlt_Qlt 0); lia).
  assert (Hq0 : 0 <= inject_Z a / inject_Z b).
  { apply Qle_shift_div_l; [done|]. rewrite Qmult_0_l, <- (Zle_Qle 0). lia. }
  assert (Hqa : inject_Z a / inject_Z b <= inject_Z a).
  { apply Qle_shift_div_r; [done|].
    rewrite <- inject_Z_mult, <- Zle_Qle. nia. }
  rewrite small_not_overflows; [by eexists| |].
  - by apply binary64_nonneg.
  - apply (Qle_trans _ (binary64 (inject_Z a)));
      [apply binary64_mono; [done|exact Hqa]|].
    pose proof (binary64_dyadic a 0) as Hd.
    assert (Hex : binary64 (inject_Z a) == inject_Z a).
    { rewrite (binary64_comp (inject_Z a) (inject_Z a / inject_Z (2 ^ 0))).
      - rewrite Hd by lia. change (inject_Z (2 ^ 0)) with 1. field.
      - change (inject_Z (2 ^ 0)) with 1. field. }
    rewrite Hex. rewrite <- Zle_Qle. lia.
Qed.
End PlayerFloat.

Section PlayerExtras.
Import Player.
Local Opaque _STOP_CONDITION.

Lemma stream_steps_add a b p :
  stream_steps (a + b) p = bind (stream_steps a) (fun _ => stream_steps b) p.
Proof.
  revert p. induction a as [|a IH]; intros p; simpl.
  - done.
  - specialize (IH). unfold bind in *.
    destruct (stream_step p) as [[] p1|e p1]; [|done].
    apply IH.
Qed.

Lemma stream_steps_S k p :
  stream_steps (S k) p = bind stream_step (fun _ => stream_steps k) p.
Proof. done. Qed.

Lemma stream_steps_1 p : stream_steps 1 p = stream_step p.
Proof.
  simpl. unfold bind, ret. by destruct (stream_step p) as [[] p1|e p1].
Qed.

Lemma buffer_lookup (pkts : list (list byte)) i pkt :
  pkts !! i = Some pkt ->
  py_getitem (pkts ++ [_STOP_CONDITION]) (Z.of_nat i) = Some pkt.
Proof.
  intros H. rewrite py_getitem_nonneg. by apply lookup_app_l_Some.
Qed.

Lemma buffer_lookup_end (pkts : list (list byte)) :
  py_getitem (pkts ++ [_STOP_CONDITION]) (Z.of_nat (length pkts))
  = Some _STOP_CONDITION.
Proof.
  rewrite py_getitem_nonneg, lookup_app_r by lia.
  by rewrite Nat.sub_diag.
Qed.

(** One packet: written at the condition, the cursor moved after the
    wait. *)
Lemma play_one pkts i p pkt :
  playing pkts i p -> pkts !! i = Some pkt ->
  Forall (fun pk => pk <> _STOP_CONDITION) pkts ->
  1 <= _last_index p -> Z.of_nat i * 1000 <= 2 ^ 52 ->
  exists p',
    stream_steps 2 p = Ok tt p'
    /\ playing pkts (S i) p'
    /\ device p' = device p ++ [pkt]
    /\ _last_index p' = _last_index p
    /\ _terminate_stream_event p' = _terminate_stream_event p
    /\ _end_of_stream_event p'
       = (if decide (S i = length pkts) then true
          else _end_of_stream_event p).
Proof.
  intros (Hpc & Hstop & Hplay & Hcur & Hdata) Hpkt Hne Hlast Hsmall.
  assert (Hpk : pkt <> _STOP_CONDITION).
  { rewrite Forall_forall in Hne. apply Hne.
    by eapply list_elem_of_lookup_2. }
  destruct (truediv_small (Z.of_nat i * 1000) (_last_index p)) as [x Hx];
    [lia|done|].
  destruct p as [data len cur last stop started cont pp flag eose tse prev
                 ph dev sent].
  simpl in *. subst.
  unfold stream_steps, bind at 1. unfold stream_step at 1.
  unfold bind at 1, gets at 1. cbn [pc _stop id].
  cbn [_song_data _current_index].
  rewrite (buffer_lookup _ _ _ Hpkt).
  destruct (decide (pkt = _STOP_CONDITION)) as [|_]; [done|].
  unfold play_packet. unfold_monad. cbn -[stream_step PyFloat.truediv].
  rewrite Hx. cbn -[stream_step].
  assert (Hnext : exists nxt,
             py_getitem (pkts ++ [_STOP_CONDITION]) (Z.of_nat i + 1)
             = Some nxt
             /\ (nxt = _STOP_CONDITION <-> S i = length pkts)).
  { replace (Z.of_nat i + 1) with (Z.of_nat (S i)) by lia.
    pose proof (lookup_lt_Some _ _ _ Hpkt) as Hi.
    destruct (decide (S i = length pkts)) as [E|E].
    - rewrite E, buffer_lookup_end. by eexists.
    - destruct (lookup_lt_is_Some_2 pkts (S i)) as [nxt Hn]; [lia|].
      rewrite (buffer_lookup _ _ _ Hn). exists nxt. split; [done|].
      split; [|done]. intros ->. rewrite Forall_forall in Hne.
      exfalso. eapply Hne; [|done]. by eapply list_elem_of_lookup_2. }
  destruct Hnext as (nxt & Hnxt & Hiff).
  destruct (PyFloat.round x =? prev);
    unfold stream_step; unfold_monad; cbn; rewrite Hnxt;
    (destruct (decide (nxt = _STOP_CONDITION)) as [E|E];
     [apply Hiff in E|assert (S i <> length pkts) by (by rewrite <- Hiff)];
     destruct (decide (S i = length pkts)); try done;
     eexists; (split; [reflexivity|]); unfold playing; cbn;
     repeat split; try done; lia).
Qed.

Lemma play_rest pkts :
  Forall (fun pk => pk <> _STOP_CONDITION) pkts ->
  Z.of_nat (length pkts) * 1000 <= 2 ^ 52 ->
  forall (k i : nat) p,
    (i + k)%nat = length pkts ->
    playing pkts i p -> 1 <= _last_index p ->
    exists p',
      stream_steps (2 * k) p = Ok tt p'
      /\ playing pkts (length pkts) p'
      /\ device p' = device p ++ drop i pkts
      /\ _terminate_stream_event p' = _terminate_stream_event p
      /\ _end_of_stream_event p'
         = (if decide (k = 0%nat) then _end_of_stream_event p else true).
Proof.
  intros Hne Hsmall. induction k as [|k IH]; intros i p Hik Hp Hlast.
  - exists p. simpl in *. replace i with (length pkts) in * by lia.
    rewrite drop_all, app_nil_r. done.
  - destruct (lookup_lt_is_Some_2 pkts i) as [pkt Hpkt]; [lia|].
    destruct (play_one pkts i p pkt Hp Hpkt Hne Hlast)
      as (p1 & Hrun1 & Hp1 & Hdev1 & Hlast1 & Hterm1 & Hend1); [lia|].
    destruct (IH (S i) p1) as (p2 & Hrun2 & Hp2 & Hdev2 & Hterm2 & Hend2);
      [lia|done|lia|].
    exists p2. split.
    { replace (2 * S k)%nat with (2 + 2 * k)%nat by lia.
      rewrite stream_steps_add. unfold bind. by rewrite Hrun1. }
    split; [done|]. split.
    { rewrite Hdev2, Hdev1, <- app_assoc. f_equal.
      by rewrite (drop_S _ _ _ Hpkt). }
    split; [congruence|].
    rewrite Hend2, Hend1.
    destruct (decide (k = 0%nat)), (decide (S i = length pkts));
      try done; lia.
Qed.

(** A stream from its start to its end.  The player thread waits in
    [stream_loop] with the start flag set, and the buffer holds the
    packets of a song and the sentinel.  Left alone, the thread writes
    every packet to the audio device, in the order of the buffer and
    each one once, sets the end-of-stream event when it reaches the
    sentinel, and then ends the stream: the buffer is cleared, the
    cursor is back at 0 and the terminate event is set.  This takes two
    steps a packet.  The last index is at least 1, that is, the song has
    two frames or more. *)
Theorem stream_plays_the_buffer (p : t) (pkts : list (list byte)) :
  pc p = Idle -> _start_stream_flag p = true ->
  _stream_loop_continue p = true ->
  _song_data p = pkts ++ [_STOP_CONDITION] ->
  Forall (fun pk => pk <> _STOP_CONDITION) pkts ->
  1 <= _last_index p ->
  Z.of_nat (length pkts) < 2 ^ 32 ->
  exists p',
    stream_steps (2 * length pkts + 2) p = Ok tt p'
    /\ device p' = device p ++ pkts
    /\ _song_data p' = []
    /\ _current_index p' = 0
    /\ _terminate_stream_event p' = true
    /\ _stream_has_started p' = false
    /\ _end_of_stream_event p'
       = (if decide (pkts = []) then _end_of_stream_event p else true)
    /\ pc p' = AtLoop.
Proof.
  intros Hpc Hflag Hcont Hdata Hne Hlast Hlen.
  replace (2 * length pkts + 2)%nat with (S (2 * length pkts + 1)) by lia.
  rewrite stream_steps_S.
  destruct p as [data len cur last stop started cont pp flag eose tse prev
                 ph dev sent].
  cbn [pc _start_stream_flag _stream_loop_continue _song_data _last_index
       device _end_of_stream_event] in *.
  subst. unfold bind at 1.
  unfold stream_step at 1. unfold_monad.
  cbn -[stream_steps Nat.mul Nat.add].
  match goal with |- context [stream_steps _ ?q] => set (p0 := q) end.
  rewrite stream_steps_add.
  destruct (play_rest pkts Hne) with (k := length pkts) (i := 0%nat) (p := p0)
    as (p1 & Hrun1 & Hp1 & Hdev1 & Hterm1 & Hend1).
  - change (2 ^ 52) with 4503599627370496.
    change (2 ^ 32) with 4294967296 in Hlen. lia.
  - lia.
  - by repeat split.
  - done.
  - unfold bind at 1. rewrite Hrun1.
    destruct Hp1 as (Hpc1 & Hstop1 & Hplay1 & Hcur1 & Hdata1).
    rewrite stream_steps_1. unfold stream_step. unfold_monad. unfold id.
    rewrite Hpc1, Hstop1, Hdata1, Hcur1, buffer_lookup_end.
    destruct (decide (_STOP_CONDITION = _STOP_CONDITION)) as [_|]; [|done].
    cbn. eexists. split; [reflexivity|]. cbn.
    rewrite Hdev1, Hend1, drop_0. unfold p0. cbn.
    repeat split.
    destruct pkts; simpl; [done|].
    destruct (decide (S (length pkts) = 0%nat)); [lia|done].
Qed.
End PlayerExtras.

Section PlayerControl.
Import Player.
Local Opaque _STOP_CONDITION.

Lemma stream_plays_the_buffer_witness :
  exists p',
    stream_steps 6 (Samples.player_with [[x01]; [x02]]) = Ok tt p'
    /\ device p' = [[x01]; [x02]]
    /\ _end_of_stream_event p' = true.
Proof.
  destruct (stream_plays_the_buffer (Samples.player_with [[x01]; [x02]])
              [[x01]; [x02]])
    as (p' & Hrun & Hdev & _ & _ & _ & _ & Hend & _).
  - reflexivity.
  - reflexivity.
  - reflexivity.
  - reflexivity.
  - repeat constructor; discriminate.
  - vm_compute. discriminate.
  - reflexivity.
  - exists p'. split; [exact Hrun|]. split; [exact Hdev|exact Hend].
Defined.

(** A song of one frame.  The reader sets the song length to the
    announced count, so the last index is 0; the progress computed after
    the first packet is written divides by it.  The step raises
    ZeroDivisionError, which [stream_loop] does not catch: the thread
    of the player ends there, the packet written and the stream not
    ended. *)
Theorem one_frame_song_stops_the_player (p0 : t) (packet : list byte) :
  pc p0 = AtCond -> _stop p0 = false ->
  py_getitem (_song_data p0) (_current_index p0) = Some packet ->
  packet <> _STOP_CONDITION ->
  exists p',
    stream_step (final (set_song_data_length 1 p0))
    = Raise ZeroDivisionError p'
    /\ device p' = device p0 ++ [packet]
    /\ _terminate_stream_event p' = _terminate_stream_event p0
    /\ _song_data p' = _song_data p0.
Proof.
  intros Hpc Hstop Hget Hne.
  destruct p0 as [data len cur last stop started cont pp flag eose tse prev
                  ph dev sent].
  simpl in *. subst. unfold stream_step. unfold_monad. cbn.
  rewrite Hget. destruct (decide (packet = _STOP_CONDITION)); [done|].
  unfold play_packet. unfold_monad. cbn.
  eexists. split; [reflexivity|]. done.
Qed.

Lemma one_frame_song_stops_the_player_witness :
  exists p',
    stream_step
      (final (set_song_data_length 1 (Samples.player_paused [[x01]])))
    = Raise ZeroDivisionError p'
    /\ device p' = [[x01]].
Proof.
  destruct (one_frame_song_stops_the_player
              (Samples.player_paused [[x01]]) [x01])
    as (p' & Hrun & Hdev & _).
  - reflexivity.
  - reflexivity.
  - reflexivity.
  - discriminate.
  - exists p'. split; [exact Hrun|exact Hdev].
Defined.

Lemma final_stream_steps_S k p :
  final (stream_steps (S k) p)
  = match stream_step p with
    | Ok _ p1 => final (stream_steps k p1)
    | Raise _ p1 => p1
    end.
Proof. simpl. unfold bind. by destruct (stream_step p). Qed.

(** What one step does while the music is paused. *)
Lemma stream_step_paused p :
  paused p ->
  let p1 := final (stream_step p) in
  paused p1
  /\ (device p1 = device p
      \/ (match stream_step p with Ok _ _ => pc p1 = AtWait | _ => True end)
         /\ exists packet, device p1 = device p ++ [packet]).
Proof.
  intros [Hpp Hflag].
  destruct p as [data len cur last stop started cont pp flag eose tse prev
                 ph dev sent].
  simpl in *. subst. unfold stream_step. unfold_monad. cbn.
  destruct ph; cbn.
  - destruct cont; cbn; (split; [done|]); by left.
  - split; [done|]. by left.
  - destruct stop; cbn.
    { split; [done|]. by left. }
    destruct (py_getitem data cur) as [packet|]; cbn.
    2:{ split; [done|]. by left. }
    destruct (decide (packet = _STOP_CONDITION)); cbn.
    { split; [done|]. by left. }
    unfold play_packet. unfold_monad. cbn.
    destruct (PyFloat.truediv (cur * 1000) last) as [e|x]; cbn.
    { split; [done|]. right. split; [done|]. by eexists. }
    destruct (PyFloat.round x =? prev); cbn;
      (split; [done|]; right; split; [done|]; by eexists).
  - split; [done|]. by left.
  - split; [done|]. by left.
Qed.

Lemma paused_at_wait k :
  forall p, paused p -> pc p = AtWait ->
            stream_steps k p = Ok tt p.
Proof.
  induction k as [|k IH]; intros p Hp Hpc; [done|].
  rewrite stream_steps_S. unfold bind.
  assert (Hstep : stream_step p = Ok tt p).
  { unfold stream_step. unfold_monad. unfold id. rewrite Hpc.
    destruct Hp as [-> _]. done. }
  rewrite Hstep. by apply IH.
Qed.

(** Pausing.  While the music is paused and no new stream is asked
    for, the thread of the player, however many steps it takes, writes
    at most one more packet to the audio device: the one it was about to
    write when the pause came. *)
Theorem paused_player_writes_at_most_one_packet (p : t) (k : nat) :
  paused p ->
  device (final (stream_steps k p)) = device p
  \/ exists packet,
       device (final (stream_steps k p)) = device p ++ [packet].
Proof.
  revert p. induction k as [|k IH]; intros p Hp; [by left|].
  rewrite final_stream_steps_S.
  pose proof (stream_step_paused p Hp) as [Hp1 Hstep]. cbv zeta in *.
  destruct (stream_step p) as [[] p1|e p1] eqn:E; simpl in *.
  - destruct Hstep as [Hdev|(Hpc1 & packet & Hdev)].
    + rewrite <- Hdev. by apply IH.
    + right. exists packet. by rewrite paused_at_wait.
  - destruct Hstep as [Hdev|(_ & packet & Hdev)];
      [by left|right; by exists packet].
Qed.

Lemma paused_player_writes_at_most_one_packet_witness :
  device (final (stream_steps 9 (Samples.player_paused [[x01]; [x02]; [x03]])))
  = device (Samples.player_paused [[x01]; [x02]; [x03]]) ++ [[x01]].
Proof.
  destruct (paused_player_writes_at_most_one_packet
              (Samples.player_paused [[x01]; [x02]; [x03]]) 9) as [H|[pk H]].
  - split; reflexivity.
  - vm_compute in H. discriminate H.
  - rewrite H. vm_compute in H. injection H as <-. reflexivity.
Defined.

(** Ending a stream.  After [terminate_stream], two steps of the
    player thread end a running stream: no further packet is written,
    the buffer is cleared, the cursor is at 0 and the terminate event is
    set. *)
Theorem terminate_stream_ends_the_stream (p : t) :
  in_stream p ->
  exists p',
    stream_steps 2 (final (terminate_stream p)) = Ok tt p'
    /\ device p' = device p
    /\ _song_data p' = []
    /\ _current_index p' = 0
    /\ _terminate_stream_event p' = true
    /\ _stream_has_started p' = false.
Proof.
  intros Hin.
  destruct p as [data len cur last stop started cont pp flag eose tse prev
                 ph dev sent].
  unfold in_stream in Hin. simpl in Hin.
  destruct Hin as [-> | ->]; simpl; unfold bind;
    unfold stream_step at 1; unfold_monad; cbn.
  - unfold stream_step. unfold_monad. cbn.
    destruct cont; cbn; eexists; (split; [reflexivity|]); done.
  - destruct (py_getitem data (cur + 1)) as [packet|]; cbn.
    + destruct (decide (packet = _STOP_CONDITION)); cbn;
        unfold stream_step; unfold_monad; cbn;
        eexists; (split; [reflexivity|]); done.
    + unfold stream_step; unfold_monad; cbn.
      eexists; (split; [reflexivity|]); done.
Qed.

Lemma terminate_stream_ends_the_stream_witness :
  exists p',
    stream_steps 2
      (final (terminate_stream (Samples.player_paused [[x01]; [x02]])))
    = Ok tt p'
    /\ device p' = [] /\ _terminate_stream_event p' = true.
Proof.
  destruct (terminate_stream_ends_the_stream
              (Samples.player_paused [[x01]; [x02]]))
    as (p' & Hrun & Hdev & _ & _ & Hterm & _).
  - by left.
  - exists p'. split; [exact Hrun|]. split; [exact Hdev|exact Hterm].
Defined.

(** Leaving the application.  After the two requests of
    [MediaPlayer.exit], three steps take the player thread out of
    [stream_loop] from wherever it stands, and it writes no packet on
    the way.  From a running stream it sets the terminate event, for
    which [exit] waits. *)
Theorem exit_stops_the_player_thread (mp : MediaPlayer.t) :
  exists mp1 p',
    MediaPlayer.exit_requests mp = Ok tt mp1
    /\ stream_steps 3 (MediaPlayer._player mp1) = Ok tt p'
    /\ pc p' = Exited
    /\ device p' = device (MediaPlayer._player mp)
    /\ (in_stream (MediaPlayer._player mp) ->
        _terminate_stream_event p' = true).
Proof.
  destruct mp as [p q c i f r rc w].
  destruct p as [data len cur last stop started cont pp flag eose tse prev
                 ph dev sent].
  set (mp0 := MediaPlayer.mk
                (mk data len cur last stop started cont pp flag eose tse
                    prev ph dev sent) q c i f r rc w).
  exists (final (MediaPlayer.exit_requests mp0)),
         (final (stream_steps 3
                   (MediaPlayer._player
                      (final (MediaPlayer.exit_requests mp0))))).
  subst mp0.
  split; [reflexivity|].
  unfold in_stream. cbn [MediaPlayer._player pc].
  destruct ph; cbn.
  - split; [reflexivity|]. split; [done|]. split; [done|].
    intros [|]; done.
  - split; [reflexivity|]. split; [done|]. split; [done|].
    intros [|]; done.
  - split; [reflexivity|]. done.
  - unfold stream_step. unfold_monad. cbn.
    destruct (py_getitem data (cur + 1)) as [packet|]; cbn.
    + destruct (decide (packet = _STOP_CONDITION)); cbn;
        (split; [reflexivity|]); done.
    + split; [reflexivity|]. done.
  - split; [reflexivity|]. split; [done|]. split; [done|].
    intros [|]; done.
Qed.
End PlayerControl.

(** ** The queue operations of the media player *)

Section DisplayFacts.
Import MediaPlayer.

Lemma py_range_length a b : length (py_range a b) = Z.to_nat (b - a).
Proof. unfold py_range. by rewrite length_fmap, length_seq. Qed.

Lemma py_range_lookup a b (j : nat) :
  (j < Z.to_nat (b - a))%nat -> py_range a b !! j = Some (a + Z.of_nat j).
Proof.
  intros Hj. unfold py_range. rewrite list_lookup_fmap.
  rewrite lookup_seq_lt by done. done.
Qed.

Lemma shown_lookup start (l : list Song) (j : nat) :
  0 <= start ->
  shown start l !! j
  = (fun s => (s, start + Z.of_nat j)) <$> l !! (Z.to_nat start + j)%nat.
Proof.
  intros Hs. unfold shown. rewrite lookup_zip_with, lookup_drop.
  destruct (l !! (Z.to_nat start + j)%nat) as [s|] eqn:E; simpl; [|done].
  apply lookup_lt_Some in E.
  rewrite py_range_lookup by lia. done.
Qed.

Lemma shown_length start (l : list Song) :
  0 <= start -> length (shown start l) = (length l - Z.to_nat start)%nat.
Proof.
  intros Hs. unfold shown.
  rewrite length_zip_with, length_drop, py_range_length. lia.
Qed.

Lemma display_range (l : list Song) start :
  0 <= start ->
  mapM (fun song_index =>
          s ← py_getitem l song_index; Some (s, song_index))
       (py_range start (Z.of_nat (length l)))
  = Some (shown start l).
Proof.
  intros Hs. apply mapM_Some. apply Forall2_same_length_lookup_2.
  - rewrite py_range_length, shown_length by done. lia.
  - intros j i y Hi Hy.
    pose proof (lookup_lt_Some _ _ _ Hi) as Hj.
    rewrite py_range_length in Hj.
    rewrite py_range_lookup in Hi by done. injection Hi as <-.
    rewrite shown_lookup in Hy by done.
    replace (start + Z.of_nat j) with (Z.of_nat (Z.to_nat start + j)) by lia.
    rewrite py_getitem_nonneg.
    destruct (l !! (Z.to_nat start + j)%nat) as [s|]; simpl in *; [|done].
    injection Hy as <-. do 2 f_equal. lia.
Qed.

Lemma display_queue_ok b mp :
  0 <= _current_song_index mp ->
  display_queue b mp
  = Ok tt (set_window (shown (queue_start b mp) (songs mp)) mp).
Proof.
  intros Hcur. unfold display_queue. unfold_monad. unfold id.
  rewrite display_range; [done|].
  unfold queue_start. destruct (negb _ || b); lia.
Qed.
End DisplayFacts.

Section MediaPlayerExtras.
Import MediaPlayer.
Import QueueSpec.

(** [display_queue] with a current index that is not negative never
    raises.  It sends the window the songs from the head of the queue
    on (the song after the current one while a stream is running or when
    called by [start_song], the current one otherwise), in the order of
    the play order, each with its index; it changes nothing else. *)
Theorem display_queue_shows_the_rest (self_display : bool) (mp : t) :
  0 <= _current_song_index mp ->
  exists w,
    display_queue self_display mp = Ok tt (set_window w mp)
    /\ length w
       = (length (songs mp) - Z.to_nat (queue_start self_display mp))%nat
    /\ forall j : nat,
         w !! j
         = (fun s => (s, queue_start self_display mp + Z.of_nat j))
             <$> songs mp !! (Z.to_nat (queue_start self_display mp) + j)%nat.
Proof.
  intros Hcur.
  assert (Hs : 0 <= queue_start self_display mp).
  { unfold queue_start. destruct (negb _ || self_display); lia. }
  exists (shown (queue_start self_display mp) (songs mp)).
  split; [by apply display_queue_ok|].
  split; [by apply shown_length|].
  intros j. by apply shown_lookup.
Qed.

Lemma display_queue_shows_the_rest_witness :
  exists w,
    display_queue false (Samples.mediaplayer true)
    = Ok tt (set_window w (Samples.mediaplayer true))
    /\ w !! 0%nat = Some (Samples.song 2, 1).
Proof.
  destruct (display_queue_shows_the_rest false (Samples.mediaplayer true))
    as (w & Hrun & _ & Hw).
  - simpl. lia.
  - exists w. split; [exact Hrun|]. rewrite Hw. reflexivity.
Defined.

(** [remove_from_queue] on a queue whose insertion order lists the
    identifiers of its songs: it returns for every index.  For an index
    in range, counted from the end when negative, the song at the index
    is taken out; for any other index the IndexError is caught and the
    queue stays as it is.  The insertion order still lists the
    identifiers of the songs, the current index is not changed, and the
    window is sent the queue from its head on. *)
Theorem remove_from_queue_returns (song_index : Z) (mp : t) :
  queue_invariant (_queue mp) ->
  0 <= _current_song_index mp ->
  exists mp',
    remove_from_queue song_index mp = Ok tt mp'
    /\ match py_index (songs mp) song_index with
       | Some j => songs mp' = delete j (songs mp)
       | None => _queue mp' = _queue mp
       end
    /\ queue_invariant (_queue mp')
    /\ _current_song_index mp' = _current_song_index mp
    /\ window mp' = shown (queue_start false mp) (songs mp').
Proof.
  intros Hinv Hcur. unfold remove_from_queue, try_except, on_song_queue, zoom.
  unfold bind at 1.
  pose proof (pop_from_queue_all_or_nothing song_index (_queue mp)) as Hpop.
  pose proof (pop_from_queue_invariant song_index (_queue mp) Hinv) as Hinv'.
  destruct (SongQueue.pop_from_queue song_index (_queue mp))
    as [[] q'|e q'] eqn:E; simpl in Hinv'.
  - destruct Hpop as (j & s & Hj & Hs & Hdel & Hrem).
    rewrite display_queue_ok by done.
    eexists. split; [reflexivity|].
    unfold songs at 1 2. rewrite Hj. simpl. done.
  - destruct Hpop as [-> Herr].
    assert (e = IndexError /\ py_index (songs mp) song_index = None)
      as [-> Hnone].
    { unfold py_getitem in Herr. unfold songs.
      destruct (py_index _ song_index) as [j|] eqn:Ej; simpl in Herr.
      - destruct (lookup_lt_is_Some_2 (SongQueue._queue (_queue mp)) j)
          as [s Hs]; [by eapply py_index_lt_length|].
        rewrite Hs in Herr. destruct Herr as [_ Hno]. exfalso. apply Hno.
        unfold queue_invariant in Hinv.
        rewrite <- Hinv. unfold SongQueue.play_ids.
        apply list_elem_of_fmap. exists s. split; [done|].
        by eapply list_elem_of_lookup_2.
      - done. }
    simpl. unfold ret.
    assert (Hsame : set_song_queue (_queue mp) mp = mp) by by destruct mp.
    rewrite Hsame, display_queue_ok by done.
    eexists. split; [reflexivity|]. rewrite Hnone. done.
Qed.

Lemma remove_from_queue_returns_witness :
  exists mp',
    remove_from_queue 5 (Samples.mediaplayer true) = Ok tt mp'
    /\ _queue mp' = _queue (Samples.mediaplayer true).
Proof.
  destruct (remove_from_queue_returns 5 (Samples.mediaplayer true))
    as (mp' & Hrun & Hq & _).
  - apply (Permutation_refl [SongQueue.EId 1; SongQueue.EId 2]).
  - simpl. lia.
  - exists mp'. split; [exact Hrun|exact Hq].
Defined.

(** [delete_queue] keeps the song that is playing.  While a stream is
    running, the queue is reduced to the current song, which becomes
    index 0, and the insertion order to its identifier; otherwise the
    queue is emptied and the current index is left as it was.  In both
    cases the window is sent an empty list. *)
Theorem delete_queue_keeps_the_playing_song (mp : t) :
  0 <= _current_song_index mp ->
  (forall c,
     _currently_streaming mp = false ->
     py_getitem (songs mp) (_current_song_index mp) = Some c ->
     exists mp',
       delete_queue mp = Ok tt mp'
       /\ _queue mp' = SongQueue.mk [c] [SongQueue.EId (song_id c)]
       /\ _current_song_index mp' = 0
       /\ window mp' = [])
  /\ (_currently_streaming mp = true \/ songs mp = [] ->
      exists mp',
        delete_queue mp = Ok tt mp'
        /\ songs mp' = []
        /\ _current_song_index mp' = _current_song_index mp
        /\ window mp' = []).
Proof.
  intros Hcur. split.
  - intros c Hstr Hc. unfold delete_queue. unfold bind at 1, gets at 1.
    unfold id. rewrite Hstr. simpl negb.
    assert (Hne : songs mp <> []).
    { intros E. apply py_getitem_elem in Hc. rewrite E in Hc.
      by apply elem_of_nil in Hc. }
    rewrite bool_decide_eq_false_2 by done. simpl andb. cbv iota.
    erewrite bind_Ok.
    2:{ erewrite bind_or_raise by exact Hc.
        unfold on_song_queue, zoom, SongQueue.clear_queue,
          SongQueue.append_to_queue. unfold_monad. simpl. reflexivity. }
    rewrite display_queue_ok by (simpl; lia).
    eexists. split; [reflexivity|]. split; [done|]. split; [done|].
    unfold shown, queue_start, _currently_streaming in *. simpl.
    rewrite Hstr. reflexivity.
  - intros Hcase. unfold delete_queue. unfold bind at 1, gets at 1.
    unfold id.
    destruct (_currently_streaming mp) eqn:Hstr; simpl negb; simpl andb.
    + destruct (bool_decide (songs mp = [])) eqn:Hb; simpl negb; cbv iota.
      * apply bool_decide_eq_true_1 in Hb.
        unfold bind, ret. rewrite display_queue_ok by done.
        eexists. split; [reflexivity|].
        split; [exact Hb|]. split; [reflexivity|].
        change (shown (queue_start false mp) (songs mp) = []).
        rewrite Hb. unfold shown. by rewrite drop_nil.
      * unfold on_song_queue, zoom, SongQueue.clear_queue, modify.
        unfold bind. rewrite display_queue_ok by done.
        eexists. split; [reflexivity|].
        split; [reflexivity|]. split; [reflexivity|].
        unfold shown. cbn [songs _queue set_song_queue set_window
                             SongQueue._queue SongQueue.empty].
        by rewrite drop_nil.
    + destruct Hcase as [|Hnil]; [done|].
      rewrite bool_decide_eq_true_2 by done. simpl negb. cbv iota.
      unfold bind, ret. rewrite display_queue_ok by done.
      eexists. split; [reflexivity|].
      split; [exact Hnil|]. split; [reflexivity|].
      change (shown (queue_start false mp) (songs mp) = []).
      rewrite Hnil. unfold shown. by rewrite drop_nil.
Qed.

Lemma delete_queue_keeps_the_playing_song_witness :
  exists mp',
    delete_queue (Samples.mediaplayer true) = Ok tt mp'
    /\ _queue mp' = SongQueue.mk [Samples.song 1] [SongQueue.EId 1]
    /\ _current_song_index mp' = 0.
Proof.
  destruct (delete_queue_keeps_the_playing_song (Samples.mediaplayer true))
    as [Hplaying _].
  - simpl. lia.
  - destruct (Hplaying (Samples.song 1)) as (mp' & Hrun & Hq & Hi & _).
    + reflexivity.
    + reflexivity.
    + exists mp'. split; [exact Hrun|]. split; [exact Hq|exact Hi].
Defined.

Lemma append_songs_ok (l : list Song) :
  forall mp,
    for_each l (fun song => on_song_queue (SongQueue.append_to_queue song)) mp
    = Ok tt (set_song_queue
               (SongQueue.mk (songs mp ++ l)
                  (SongQueue._ordered_queue (_queue mp)
                   ++ ((fun s => SongQueue.EId (song_id s)) <$> l)))
               mp).
Proof.
  induction l as [|s l IH]; intros mp; simpl.
  - rewrite !app_nil_r. unfold ret, songs. by destruct mp as [? [] ? ? ? ? ? ?].
  - unfold bind at 1. unfold on_song_queue at 1, zoom,
      SongQueue.append_to_queue. unfold_monad. simpl.
    rewrite IH. unfold songs. simpl. by rewrite <- !app_assoc.
Qed.

Lemma bind_assoc {S A B C} (m : M S A) (f : A -> M S B) (g : B -> M S C) s :
  bind (bind m f) g s = bind m (fun a => bind (f a) g) s.
Proof. unfold bind. by destruct (m s). Qed.

Lemma add_to_queue_ok s mp :
  0 <= _current_song_index mp ->
  add_to_queue s mp
  = Ok tt (set_window
             (shown (queue_start false mp) (songs mp ++ [s]))
             (set_song_queue
                (SongQueue.mk (songs mp ++ [s])
                   (SongQueue._ordered_queue (_queue mp)
                    ++ [SongQueue.EId (song_id s)]))
                mp)).
Proof.
  intros Hcur. unfold add_to_queue.
  erewrite bind_Ok.
  2:{ unfold on_song_queue, zoom, SongQueue.append_to_queue.
      unfold_monad. simpl. reflexivity. }
  rewrite display_queue_ok by (simpl; lia). done.
Qed.

Lemma add_songs_one_by_one (l : list Song) :
  forall mp,
    0 <= _current_song_index mp ->
    bind (for_each l add_to_queue) (fun _ => display_queue false) mp
    = Ok tt (set_window
               (shown (queue_start false mp) (songs mp ++ l))
               (set_song_queue
                  (SongQueue.mk (songs mp ++ l)
                     (SongQueue._ordered_queue (_queue mp)
                      ++ ((fun s => SongQueue.EId (song_id s)) <$> l)))
                  mp)).
Proof.
  induction l as [|s l IH]; intros mp Hcur.
  - simpl. unfold bind, ret. rewrite display_queue_ok by done.
    rewrite !app_nil_r. unfold songs. by destruct mp as [? [] ? ? ? ? ? ?].
  - cbn [for_each]. rewrite bind_assoc.
    erewrite bind_Ok by (by apply add_to_queue_ok).
    rewrite IH by (simpl; lia).
    unfold songs. simpl. rewrite <- !app_assoc. done.
Qed.

(** Adding a playlist to the queue is adding its songs one by one:
    [add_playlist_songs_to_queue] leaves the media player as a sequence
    of [add_to_queue] (and a refresh of the window) does.  The songs are
    appended to the play order in the order of the playlist and their
    identifiers to the insertion order; if the insertion order listed
    the identifiers of the songs before, it does so after. *)
Theorem add_playlist_adds_each_song (playlist_songs : list Song) (mp : t) :
  0 <= _current_song_index mp ->
  exists mp',
    add_playlist_songs_to_queue playlist_songs mp = Ok tt mp'
    /\ bind (for_each playlist_songs add_to_queue)
            (fun _ => display_queue false) mp = Ok tt mp'
    /\ songs mp' = songs mp ++ playlist_songs
    /\ SongQueue._ordered_queue (_queue mp')
       = SongQueue._ordered_queue (_queue mp)
         ++ ((fun s => SongQueue.EId (song_id s)) <$> playlist_songs)
    /\ (queue_invariant (_queue mp) -> queue_invariant (_queue mp'))
    /\ window mp' = shown (queue_start false mp) (songs mp').
Proof.
  intros Hcur.
  rewrite add_songs_one_by_one by done.
  unfold add_playlist_songs_to_queue, bind.
  rewrite append_songs_ok, display_queue_ok by (simpl; lia).
  eexists. split; [reflexivity|]. split; [reflexivity|].
  split; [done|]. split; [done|]. split; [|done].
  unfold queue_invariant, SongQueue.play_ids. simpl. intros Hinv.
  unfold songs. rewrite fmap_app. by rewrite Hinv.
Qed.

Lemma add_playlist_adds_each_song_witness :
  exists mp',
    add_playlist_songs_to_queue [Samples.song 3; Samples.song 4]
      (Samples.mediaplayer true) = Ok tt mp'
    /\ songs mp'
       = [Samples.song 1; Samples.song 2; Samples.song 3; Samples.song 4].
Proof.
  destruct (add_playlist_adds_each_song [Samples.song 3; Samples.song 4]
              (Samples.mediaplayer true)) as (mp' & Hrun & _ & Hsongs & _).
  - simpl. lia.
  - exists mp'. split; [exact Hrun|]. rewrite Hsongs. reflexivity.
Defined.
End MediaPlayerExtras.
(** ** Moving a song up or down: what is exchanged *)

Section MoveClaim.
Import MediaPlayer MoveSpec.

(** The exchange of two entries that the queue has. *)
Lemma exchange_ok (i j : nat) mp a b :
  songs mp !! i = Some a -> songs mp !! j = Some b ->
  exchange (Z.of_nat i) (Z.of_nat j) mp
  = Ok tt (set_songs (<[j := a]> (<[i := b]> (songs mp))) mp).
Proof.
  intros Ha Hb. unfold exchange.
  unfold bind at 1, gets at 1. unfold id.
  rewrite !py_getitem_nonneg, Ha, Hb. cbn [or_raise]. unfold ret at 1.
  unfold bind at 1, ret at 1. unfold bind at 1.
  assert (Hi : (i < length (songs mp))%nat) by (by eapply lookup_lt_Some).
  assert (Hj : (j < length (songs mp))%nat) by (by eapply lookup_lt_Some).
  assert (Hset : forall (l : list Song) (k : nat) x,
            (k < length l)%nat ->
            py_setitem l (Z.of_nat k) x = Some (<[k := x]> l)).
  { intros l k x Hk. unfold py_setitem, py_index.
    destruct (Z.ltb_spec (Z.of_nat k) 0); [lia|].
    destruct (Z.leb_spec 0 (Z.of_nat k)); [|lia].
    destruct (Z.ltb_spec (Z.of_nat k) (Z.of_nat (length l))); [|lia].
    simpl. by rewrite Nat2Z.id. }
  rewrite Hset by done. cbn [or_raise]. unfold ret at 1.
  unfold bind at 1, modify at 1.
  rewrite Hset by (by rewrite length_insert). cbn [or_raise].
  unfold bind, ret, modify. by destruct mp as [p [q o] c i0 f r rc w].
Qed.

(** C5, amended.  The head of the displayed queue is the index after
    the current one while a stream runs and the current index
    otherwise.  [move_up] returns with nothing changed when
    [song_index] is at the head or before it; beyond the head, for an
    index of the queue, it exchanges the entries at [song_index] and
    [song_index - 1] and refreshes the window; it never changes a
    position before the head.  [move_down] compares [song_index] with
    the length of the queue only: it returns with nothing changed from
    the last index on, and for an index from the head on and before the
    last one it exchanges the entries at [song_index] and
    [song_index + 1] and refreshes the window; the positions before the
    head stay as they are when [song_index] is at the head or beyond
    it. *)
Theorem moves_keep_history_from_the_head (mp : t) (song_index : Z) :
  history_kept mp (final (move_up song_index mp))
  /\ (song_index <= queue_start false mp -> move_up song_index mp = Ok tt mp)
  /\ (queue_start false mp <= song_index ->
      history_kept mp (final (move_down song_index mp)))
  /\ (0 <= _current_song_index mp ->
      queue_start false mp < song_index < Z.of_nat (length (songs mp)) ->
      exists mp',
        move_up song_index mp = Ok tt mp'
        /\ moved mp (Z.to_nat song_index) (Z.to_nat (song_index - 1)) mp')
  /\ (Z.of_nat (length (songs mp)) - 1 <= song_index ->
      move_down song_index mp = Ok tt mp)
  /\ (0 <= _current_song_index mp ->
      queue_start false mp <= song_index < Z.of_nat (length (songs mp)) - 1 ->
      exists mp',
        move_down song_index mp = Ok tt mp'
        /\ moved mp (Z.to_nat song_index) (Z.to_nat (song_index + 1)) mp').
Proof.
  assert (Hhead : 0 <= _current_song_index mp -> 0 <= queue_start false mp).
  { unfold queue_start. destruct (negb _ || false); lia. }
  split; [apply move_up_history|].
  split; [apply move_up_guard|]. split; [apply move_down_history|].
  split; [|split].
  - intros Hcur Hrange. specialize (Hhead Hcur).
    destruct (lookup_lt_is_Some_2 (songs mp) (Z.to_nat song_index))
      as [b Hb]; [lia|].
    destruct (lookup_lt_is_Some_2 (songs mp) (Z.to_nat (song_index - 1)))
      as [a Ha]; [lia|].
    eexists. split; [|exists b, a; split; [exact Hb|split; [exact Ha|]];
                       reflexivity].
    unfold move_up. unfold bind at 1, gets at 1. unfold id.
    destruct (Z.ltb_spec (queue_start false mp) song_index); [|lia].
    unfold bind at 1.
    replace song_index with (Z.of_nat (Z.to_nat song_index)) at 1 by lia.
    replace (song_index - 1)
      with (Z.of_nat (Z.to_nat (song_index - 1))) at 1 by lia.
    rewrite (exchange_ok _ _ mp b a Hb Ha).
    rewrite display_queue_ok by done. reflexivity.
  - intros Hlast. unfold move_down. unfold bind at 1, gets at 1. unfold id.
    destruct (Z.ltb_spec song_index (Z.of_nat (length (songs mp)) - 1));
      [lia|done].
  - intros Hcur Hrange. specialize (Hhead Hcur).
    destruct (lookup_lt_is_Some_2 (songs mp) (Z.to_nat song_index))
      as [b Hb]; [lia|].
    destruct (lookup_lt_is_Some_2 (songs mp) (Z.to_nat (song_index + 1)))
      as [a Ha]; [lia|].
    eexists. split; [|exists b, a; split; [exact Hb|split; [exact Ha|]];
                       reflexivity].
    unfold move_down. unfold bind at 1, gets at 1. unfold id.
    destruct (Z.ltb_spec song_index (Z.of_nat (length (songs mp)) - 1));
      [|lia].
    unfold bind at 1.
    replace song_index with (Z.of_nat (Z.to_nat song_index)) at 1 by lia.
    replace (song_index + 1)
      with (Z.of_nat (Z.to_nat (song_index + 1))) at 1 by lia.
    rewrite (exchange_ok _ _ mp b a Hb Ha).
    rewrite display_queue_ok by done. reflexivity.
Qed.

Lemma moves_keep_history_from_the_head_witness :
  (exists mp',
     move_up 1 (Samples.mediaplayer false) = Ok tt mp'
     /\ songs mp' = [Samples.song 2; Samples.song 1])
  /\ move_up 1 (Samples.mediaplayer true) = Ok tt (Samples.mediaplayer true)
  /\ history_kept (Samples.mediaplayer true)
       (final (move_down 1 (Samples.mediaplayer true))).
Proof.
  destruct (moves_keep_history_from_the_head (Samples.mediaplayer false) 1)
    as (_ & _ & _ & Hswap & _).
  destruct (moves_keep_history_from_the_head (Samples.mediaplayer true) 1)
    as (_ & Hguard & Hdown & _).
  split; [|split].
  - destruct Hswap as (mp' & Hrun & (a & b & Ha & Hb & Hmp)).
    + vm_compute. discriminate.
    + vm_compute. split; reflexivity.
    + exists mp'. split; [exact Hrun|].
      vm_compute in Ha, Hb. injection Ha as <-. injection Hb as <-.
      rewrite Hmp. reflexivity.
  - apply Hguard. vm_compute. discriminate.
  - apply Hdown. vm_compute. discriminate.
Defined.
End MoveClaim.

(** ** Times as text *)

Section TimeFacts.
Import PyFloat.
Local Open Scope Q_scope.

Lemma binary64_int z :
  (0 <= z < 2 ^ 53)%Z -> binary64 (inject_Z z) == inject_Z z.
Proof.
  intros Hz. pose proof (binary64_dyadic z 0 Hz ltac:(lia)) as Hd.
  rewrite (binary64_comp (inject_Z z) (inject_Z z / inject_Z (2 ^ 0))).
  - rewrite Hd. change (inject_Z (2 ^ 0)) with 1. field.
  - change (inject_Z (2 ^ 0)) with 1. field.
Qed.

Lemma Qfloor_between y q :
  inject_Z q <= y -> y < inject_Z (q + 1) -> Qfloor y = q.
Proof.
  intros Hlo Hhi.
  assert (H1 : (q <= Qfloor y)%Z).
  { rewrite <- (Qfloor_Z q). by apply Qfloor_resp_le. }
  assert (H2 : (Qfloor y < q + 1)%Z).
  { rewrite Zlt_Qlt. eapply Qle_lt_trans; [apply Qfloor_le|done]. }
  lia.
Qed.

Lemma pow2_m53 : pow2 (-53) == 1 # 9007199254740992.
Proof. reflexivity. Qed.

(** The float quotient of two ints, rounded and then truncated, is
    their integer quotient as long as the dividend is below 2^53. *)
Lemma quotient_bounds a b :
  (0 <= a < 2 ^ 53)%Z -> (1 <= b)%Z ->
  inject_Z (a / b) <= binary64 (inject_Z a / inject_Z b)
  /\ binary64 (inject_Z a / inject_Z b) < inject_Z (a / b + 1).
Proof.
  intros Ha Hb.
  assert (Hb0 : 0 < inject_Z b) by (rewrite <- (Zlt_Qlt 0); lia).
  set (x := inject_Z a / inject_Z b).
  assert (Hq : (0 <= a / b <= a)%Z).
  { split; [apply Z.div_pos; lia|]. apply Z.div_le_upper_bound; nia. }
  assert (Hx0 : 0 <= x).
  { apply Qle_shift_div_l; [done|]. rewrite Qmult_0_l, <- (Zle_Qle 0). lia. }
  split.
  - apply Qle_trans with (binary64 (inject_Z (a / b))).
    + apply Qle_lteq. right. symmetry. apply binary64_int. lia.
    + apply binary64_mono.
      * rewrite <- (Zle_Qle 0). lia.
      * apply Qle_shift_div_l; [done|].
        rewrite <- inject_Z_mult, <- Zle_Qle.
        pose proof (Z.mul_div_le a b). lia.
  - destruct (binary64_error x Hx0) as [_ Hup].
    eapply Qle_lt_trans; [exact Hup|].
    assert (Hxe : x + x * pow2 (-53)
                  == (inject_Z a + inject_Z a * pow2 (-53)) / inject_Z b).
    { unfold x. field. intros H. rewrite H in Hb0. by apply Qlt_irrefl in Hb0. }
    eapply Qle_lt_trans; [apply Qle_lteq; right; exact Hxe|].
    apply Qlt_shift_div_r; [done|].
    rewrite <- inject_Z_mult.
    assert (Hint : inject_Z (a + 1) <= inject_Z ((a / b + 1) * b)).
    { rewrite <- Zle_Qle. pose proof (Z.mod_pos_bound a b).
      pose proof (Z.div_mod a b). nia. }
    eapply Qlt_le_trans; [|exact Hint].
    rewrite inject_Z_plus.
    assert (Ha' : inject_Z a <= inject_Z (2 ^ 53 - 1))
      by (rewrite <- Zle_Qle; lia).
    change (inject_Z (2 ^ 53 - 1)) with (9007199254740991 # 1) in Ha'.
    change (inject_Z 1) with 1.
    assert (He : inject_Z a * pow2 (-53) < 1).
    { apply Qle_lt_trans with ((9007199254740991 # 1) * pow2 (-53)).
      - apply Qmult_le_compat_r; [done|]. apply Qlt_le_weak, pow2_pos.
      - reflexivity. }
    lra.
Qed.

Lemma int_truediv a b :
  (0 <= a < 2 ^ 53)%Z -> (1 <= b)%Z ->
  exists x, truediv a b = inr x /\ int x = (a / b)%Z.
Proof.
  intros Ha Hb. destruct (quotient_bounds a b Ha Hb) as [Hlo Hhi].
  assert (Hq : (0 <= a / b <= a)%Z).
  { split; [apply Z.div_pos; lia|]. apply Z.div_le_upper_bound; nia. }
  unfold truediv. destruct (Z.eqb_spec b 0) as [|_]; [lia|].
  assert (H0 : 0 <= binary64 (inject_Z a / inject_Z b)).
  { eapply Qle_trans; [|exact Hlo]. rewrite <- (Zle_Qle 0). lia. }
  rewrite small_not_overflows; [|done|].
  - eexists. split; [done|]. unfold int.
    apply Qle_bool_iff in H0. rewrite H0. by apply Qfloor_between.
  - apply Qlt_le_weak. eapply Qlt_le_trans; [exact Hhi|].
    rewrite <- Zle_Qle. lia.
Qed.
End TimeFacts.

Section TimeExtras.
Local Open Scope Z_scope.

(** [Song._seconds_to_string] on a duration of [0 <= seconds < 2^53]:
    the minutes are the integer quotient by 60, which the float
    division and the truncation of the code compute exactly, and the
    seconds the remainder; each is written in decimal with at least two
    digits.  So 60 seconds read 01:00. *)
Theorem seconds_to_string_minutes_and_seconds (seconds : Z) :
  0 <= seconds < 2 ^ 53 ->
  SongMethods._seconds_to_string seconds
  = inr (String.append (format_02d (seconds / 60))
           (String.append ":" (format_02d (seconds mod 60)))).
Proof.
  intros Hs. unfold SongMethods._seconds_to_string.
  destruct (int_truediv seconds 60 Hs) as (x & -> & ->); [lia|]. done.
Qed.

Lemma seconds_to_string_minutes_and_seconds_witness :
  SongMethods._seconds_to_string 60 = inr "01:00"%string.
Proof.
  rewrite (seconds_to_string_minutes_and_seconds 60).
  - reflexivity.
  - vm_compute. split; [discriminate|reflexivity].
Defined.
End TimeExtras.

Section ProgressTimeExtras.
Import PyFloat.
Local Open Scope Q_scope.

Lemma int_comp x y : x == y -> int x = int y.
Proof.
  intros H. unfold int.
  assert (Hb : Qle_bool 0 x = Qle_bool 0 y).
  { destruct (Qle_bool 0 x) eqn:Ex, (Qle_bool 0 y) eqn:Ey; try done.
    - apply Qle_bool_iff in Ex. rewrite H in Ex.
      apply Qle_bool_iff in Ex. congruence.
    - apply Qle_bool_iff in Ey. rewrite <- H in Ey.
      apply Qle_bool_iff in Ey. congruence. }
  rewrite Hb. destruct (Qle_bool 0 y).
  - by apply Qfloor_comp.
  - unfold Qceiling. f_equal. apply Qfloor_comp. by rewrite H.
Qed.

Lemma int_Z z : int (inject_Z z) = z.
Proof.
  unfold int. destruct (Qle_bool 0 (inject_Z z)).
  - apply Qfloor_Z.
  - apply Qceiling_Z.
Qed.

(** The remainder by 60 of a float that holds a natural number. *)
Lemma rem_60 c d :
  (0 <= d)%Z -> c == inject_Z d -> int (rem c 60) = (d mod 60)%Z.
Proof.
  intros Hd Hc. unfold rem.
  assert (Hq : int (c / 60) = (d / 60)%Z).
  { apply int_of_quotient; [done|done|]. rewrite Hc. reflexivity. }
  rewrite Hq.
  assert (Hm : c - 60 * inject_Z (d / 60) == inject_Z (d mod 60)).
  { rewrite Hc. rewrite Z.mod_eq by done.
    unfold Z.sub. rewrite inject_Z_plus, inject_Z_opp, inject_Z_mult.
    change (inject_Z 60) with 60. ring. }
  set (m := c - 60 * inject_Z (d / 60)) in *.
  assert (Hm0 : Qle_bool 0 m = true).
  { apply Qle_bool_iff. rewrite Hm, <- (Zle_Qle 0).
    apply Z.mod_pos_bound. done. }
  rewrite Hm0. change (Qle_bool 0 60) with true. simpl.
  rewrite andb_false_r.
  rewrite (int_comp _ _ Hm). apply int_Z.
Qed.

Local Open Scope Z_scope.

(** The time shown beside the progress bar.  For the current song,
    with a duration of [0 <= d < 2^53] seconds, [_send_progress] hands
    the window the text 00:00 at progress 0 and, at progress 1000, the
    very text that [Song] computed for the duration of the song. *)
Theorem progress_time_at_the_ends (mp : MediaPlayer.t) (s : Song) :
  py_getitem (MediaPlayer.songs mp) (MediaPlayer._current_song_index mp)
  = Some s ->
  0 <= duration s < 2 ^ 53 ->
  MediaPlayer._send_progress 0 mp = Ok (0, "00:00"%string) mp
  /\ exists text,
       SongMethods.duration_string s = inr text
       /\ MediaPlayer._send_progress 1000 mp = Ok (1000, text) mp.
Proof.
  intros Hs Hd.
  destruct (of_int_exact (duration s) Hd) as (d' & Hof & Hd').
  split.
  - unfold MediaPlayer._send_progress.
    unfold bind at 1, gets at 1. unfold id.
    erewrite bind_or_raise by exact Hs.
    erewrite bind_or_raise_sum by (vm_compute; reflexivity).
    erewrite bind_or_raise_sum by exact Hof.
    assert (Hz : mul d' 0%Q = 0%Q).
    { unfold mul. apply binary64_zero. ring. }
    rewrite Hz. reflexivity.
  - unfold SongMethods.duration_string.
    rewrite seconds_to_string_minutes_and_seconds by done.
    eexists. split; [reflexivity|].
    unfold MediaPlayer._send_progress.
    unfold bind at 1, gets at 1. unfold id.
    erewrite bind_or_raise by exact Hs.
    erewrite bind_or_raise_sum by (vm_compute; reflexivity).
    erewrite bind_or_raise_sum by exact Hof.
    match goal with |- context [mul d' ?r] => set (ratio := r) end.
    assert (Hr : (ratio == 1)%Q) by reflexivity.
    assert (Hc : mul d' ratio = binary64 (inject_Z (duration s))).
    { unfold mul. apply binary64_comp. rewrite Hr, Hd'. ring. }
    rewrite Hc.
    assert (Hcv : (binary64 (inject_Z (duration s)) == inject_Z (duration s))%Q)
      by (by apply binary64_int).
    rewrite small_not_overflows.
    + unfold ret. do 3 f_equal. unfold MediaPlayer._seconds_to_string.
      f_equal.
      * f_equal.
        destruct (int_truediv (duration s) 60 Hd) as (x & Hx & Hi); [lia|].
        rewrite <- Hi. unfold truediv in Hx. simpl in Hx.
        destruct (overflows _) in Hx; [done|]. injection Hx as <-.
        f_equal. apply binary64_comp. rewrite Hcv. reflexivity.
      * do 2 f_equal. apply rem_60; [lia|done].
    + rewrite Hcv, <- (Zle_Qle 0). lia.
    + rewrite Hcv, <- Zle_Qle. lia.
Qed.

Lemma progress_time_at_the_ends_witness :
  MediaPlayer._send_progress 1000
    (MediaPlayer.mk Player.init
       (SongQueue.mk [mkSong 1 EmptyString EmptyString 207 []] [SongQueue.EId 1])
       (Samples.socket []) 0 false true false [])
  = Ok (1000, "03:27"%string)
       (MediaPlayer.mk Player.init
          (SongQueue.mk [mkSong 1 EmptyString EmptyString 207 []]
             [SongQueue.EId 1])
          (Samples.socket []) 0 false true false []).
Proof.
  destruct (progress_time_at_the_ends
              (MediaPlayer.mk Player.init
                 (SongQueue.mk [mkSong 1 EmptyString EmptyString 207 []]
                    [SongQueue.EId 1])
                 (Samples.socket []) 0 false true false [])
              (mkSong 1 EmptyString EmptyString 207 []))
    as (_ & text & Htext & Hrun).
  - reflexivity.
  - vm_compute. split; [discriminate|reflexivity].
  - rewrite Hrun. vm_compute in Htext. injection Htext as <-. reflexivity.
Defined.
End ProgressTimeExtras.

(** ** Choosing the song to play *)

Section SelectionFacts.
Import MediaPlayerControl.

Lemma same_selection_refl a : same_selection a a.
Proof. by repeat split. Qed.

Lemma same_selection_trans a b c :
  same_selection a b -> same_selection b c -> same_selection a c.
Proof.
  intros (H1 & H2 & H3 & H4) (H5 & H6 & H7 & H8).
  repeat split; congruence.
Qed.

Lemma keeps_ret {A} (x : A) : keeps_selection (ret x).
Proof. intros a. apply same_selection_refl. Qed.

Lemma keeps_raise {A} e : keeps_selection (raise e : M t A).
Proof. intros a. apply same_selection_refl. Qed.

Lemma keeps_gets {A} (f : t -> A) : keeps_selection (gets f).
Proof. intros a. apply same_selection_refl. Qed.

Lemma keeps_or_raise {A} e (o : option A) : keeps_selection (or_raise e o).
Proof. destruct o; [apply keeps_ret|apply keeps_raise]. Qed.

Lemma keeps_bind {A B} (m : M t A) (f : A -> M t B) :
  keeps_selection m -> (forall x, keeps_selection (f x)) ->
  keeps_selection (bind m f).
Proof.
  intros Hm Hf a. unfold bind. specialize (Hm a).
  destruct (m a) as [x a1|e a1]; simpl in *; [|done].
  eapply same_selection_trans; [exact Hm|apply Hf].
Qed.

Lemma keeps_try (c : exn -> bool) (m h : M t unit) :
  keeps_selection m -> keeps_selection h -> keeps_selection (try_except c m h).
Proof.
  intros Hm Hh a. unfold try_except. specialize (Hm a).
  destruct (m a) as [x a1|e a1]; simpl in *; [done|].
  destruct (c e); [|done].
  eapply same_selection_trans; [exact Hm|apply Hh].
Qed.

Lemma keeps_modify (f : t -> t) :
  (forall a, same_selection a (f a)) -> keeps_selection (modify f).
Proof. intros H a. apply H. Qed.

(** What changes neither the queue nor the current index of the media
    player. *)
Lemma keeps_on_mediaplayer {A} (m : M MediaPlayer.t A) :
  (forall mp, MediaPlayer.songs (final (m mp)) = MediaPlayer.songs mp
              /\ MediaPlayer._current_song_index (final (m mp))
                 = MediaPlayer._current_song_index mp) ->
  keeps_selection (on_mediaplayer m).
Proof.
  intros H a. unfold on_mediaplayer, zoom.
  destruct (H (mediaplayer a)) as [H1 H2].
  destruct (m (mediaplayer a)) as [x mp|e mp]; simpl in *;
    by repeat split.
Qed.

Lemma keeps_on_player {A} (m : M Player.t A) :
  keeps_selection (on_mediaplayer (MediaPlayer.on_player m)).
Proof.
  apply keeps_on_mediaplayer. intros mp.
  unfold MediaPlayer.on_player, zoom.
  by destruct (m (MediaPlayer._player mp)).
Qed.

Lemma keeps_streaming_tcp_send data n :
  keeps_selection (on_mediaplayer (MediaPlayer.streaming_tcp_send data n)).
Proof.
  apply keeps_on_mediaplayer. intros mp.
  unfold MediaPlayer.streaming_tcp_send, MediaPlayer.on_stream_client, zoom.
  by destruct (Socket.tcp_send _ _ _ _).
Qed.

Lemma keeps_display_queue b :
  keeps_selection (on_mediaplayer (MediaPlayer.display_queue b)).
Proof.
  apply keeps_on_mediaplayer. intros mp.
  unfold MediaPlayer.display_queue. unfold_monad. simpl.
  by destruct (mapM _ _).
Qed.

Lemma keeps_terminate_read : keeps_selection _terminate_read.
Proof.
  intros a. unfold _terminate_read. unfold_monad. simpl.
  destruct (negb _); by repeat split.
Qed.

Lemma keeps_current_song_update : keeps_selection _current_song_update.
Proof.
  intros a. unfold _current_song_update. unfold_monad. simpl.
  destruct (py_getitem _ _); by repeat split.
Qed.

Lemma keeps_request_song : keeps_selection request_song.
Proof.
  unfold request_song. apply keeps_try.
  - apply keeps_bind; [apply keeps_gets|]. intros a1.
    apply keeps_bind; [apply keeps_or_raise|]. intros song.
    apply keeps_bind; [apply keeps_or_raise|]. intros bytes.
    apply keeps_bind; [apply keeps_streaming_tcp_send|]. intros _.
    apply keeps_bind.
    { apply keeps_on_mediaplayer. intros mp. done. }
    intros _.
    apply keeps_bind; [apply keeps_on_player|]. intros _.
    apply keeps_bind; [apply keeps_current_song_update|]. intros _.
    apply keeps_display_queue.
  - apply keeps_on_mediaplayer. intros mp. done.
Qed.

Lemma keeps_run {A} (m : M t A) :
  keeps_selection m -> keeps_selection_waiting (run m).
Proof. intros H a. apply H. Qed.

Lemma keeps_bind_wait {A A'} (m : MB t A) (f : A -> MB t A') :
  keeps_selection_waiting m -> (forall x, keeps_selection_waiting (f x)) ->
  keeps_selection_waiting (bind_wait m f).
Proof.
  intros Hm Hf a. unfold bind_wait. specialize (Hm a).
  destruct (m a) as [[x a1|e a1]|a1]; simpl in *; [|done..].
  eapply same_selection_trans; [exact Hm|apply Hf].
Qed.

Lemma keeps_wait event others :
  wait_keeps others -> keeps_selection_waiting (wait event others).
Proof.
  intros H a. unfold wait.
  destruct (H a) as (H1 & H2 & H3 & _ & _ & _ & H4).
  destruct (event (others a)); by repeat split.
Qed.

Section Waits.
Variables wait_reading wait_streaming : t -> t.
Hypothesis Hreading : wait_keeps wait_reading.
Hypothesis Hstreaming : wait_keeps wait_streaming.

Lemma keeps_start_song :
  keeps_selection_waiting (start_song wait_reading wait_streaming).
Proof.
  unfold start_song.
  apply keeps_bind_wait; [apply keeps_run, keeps_gets|]. intros a.
  destruct (_ && _); [|apply keeps_run, keeps_ret].
  apply keeps_bind_wait; [apply keeps_run, keeps_terminate_read|].
  intros _.
  apply keeps_bind_wait; [by apply keeps_wait|]. intros _.
  apply keeps_bind_wait; [apply keeps_run, keeps_on_player|]. intros _.
  apply keeps_bind_wait; [by apply keeps_wait|]. intros _.
  apply keeps_run, keeps_request_song.
Qed.
End Waits.
End SelectionFacts.

Section StartSongFacts.
Import MediaPlayerControl.


Lemma same_session_refl a : same_session a a.
Proof. by repeat split. Qed.

Lemma same_session_trans a b c :
  same_session a b -> same_session b c -> same_session a c.
Proof.
  intros (H1 & H2 & H3 & H4 & H5 & H6 & H7)
         (K1 & K2 & K3 & K4 & K5 & K6 & K7).
  repeat split; congruence.
Qed.

(** The request to the reader. *)
Lemma terminate_read_ok a :
  exists a1, _terminate_read a = Ok tt a1 /\ same_session a a1.
Proof.
  unfold _terminate_read. unfold_monad. unfold id.
  destruct (negb _); eexists; (split; [reflexivity|]); by repeat split.
Qed.


Section Waits.
Variables wait_reading wait_streaming : t -> t.
Hypothesis Hreading : wait_keeps wait_reading.
Hypothesis Hstreaming : wait_keeps wait_streaming.

(** The two waits of [start_song]: the states in which they are left,
    and what [start_song] does from there. *)
Lemma start_song_waits a :
  songs a <> [] -> connected a = true ->
  exists a1 a3,
    same_session a (wait_reading a1)
    /\ same_session a (wait_streaming a3)
    /\ start_song wait_reading wait_streaming a
       = (if currently_reading (wait_reading a1)
          then if currently_streaming (wait_streaming a3)
               then Ends (request_song (wait_streaming a3))
               else Blocks (wait_streaming a3)
          else Blocks (wait_reading a1)).
Proof.
  intros Hne Hconn.
  destruct (terminate_read_ok a) as (a1 & Hrun1 & H1).
  pose proof (Hreading a1) as H2. change (same_session a1 (wait_reading a1)) in H2.
  pose (a3 := set_mediaplayer
                (MediaPlayer.set_player
                   (final (Player.terminate_stream
                             (MediaPlayer._player
                                (mediaplayer (wait_reading a1)))))
                   (mediaplayer (wait_reading a1))) (wait_reading a1)).
  assert (H3 : same_session (wait_reading a1) a3) by (by repeat split).
  pose proof (Hstreaming a3) as H4.
  change (same_session a3 (wait_streaming a3)) in H4.
  exists a1, a3. split; [by eapply same_session_trans|].
  split.
  { eapply same_session_trans; [|exact H4].
    eapply same_session_trans; [|exact H3].
    by eapply same_session_trans. }
  unfold start_song. unfold bind_wait at 1, run at 1, gets at 1. unfold id.
  rewrite bool_decide_eq_false_2, Hconn by done. cbn [negb andb].
  unfold bind_wait at 1, run at 1. rewrite Hrun1.
  unfold bind_wait at 1, wait at 1.
  destruct (currently_reading (wait_reading a1)); [|done].
  unfold bind_wait at 1, run at 1.
  change (on_mediaplayer (MediaPlayer.on_player Player.terminate_stream)
            (wait_reading a1)) with (Ok tt a3).
  cbv iota beta.
  unfold bind_wait, wait, run.
  by destruct (currently_streaming (wait_streaming a3)).
Qed.



(** [start_song] ends when the two events get set. *)
Lemma start_song_ends a :
  sets_event currently_reading wait_reading ->
  sets_event currently_streaming wait_streaming ->
  exists o, start_song wait_reading wait_streaming a = Ends o.
Proof.
  intros Hsr Hss.
  destruct (decide (songs a = [])) as [E|Hne];
    [|destruct (connected a) eqn:Hconn].
  - unfold start_song. unfold bind_wait at 1, run at 1, gets at 1.
    unfold id. rewrite bool_decide_eq_true_2 by done. by eexists.
  - destruct (start_song_waits a Hne Hconn) as (a1 & a3 & _ & _ & ->).
    rewrite Hsr, Hss. by eexists.
  - unfold start_song. unfold bind_wait at 1, run at 1, gets at 1.
    unfold id. rewrite Hconn, andb_false_r. by eexists.
Qed.
End Waits.
End StartSongFacts.
Section SelectionExtras.
Import MediaPlayerControl.

(** [next_song] on a queue with the current index in range, the other
    threads leaving the selection and the repeat button alone.
    [start_song] waits for the reader and for the player; [a'] is the
    state in which [next_song] ends or, if an event it waits for is
    never set, blocks.  In [a'] the queue is not changed.  With
    [repeat_one] the index stays.  Otherwise, with repeat off the index
    moves on by one and stays on the last song; with repeat on it moves
    on by one and from the last song back to the first; and from
    repeat-one a click on next first turns the repeat state and the
    repeat button to repeat on.  The new index is in range.
    [next_song] ends when the reader and the player set their
    events. *)
Theorem next_song_moves_the_index
    (wait_reading wait_streaming : t -> t) (repeat_one : bool) (a : t) :
  wait_keeps wait_reading -> wait_keeps wait_streaming ->
  0 <= _current_song_index a < Z.of_nat (length (songs a)) ->
  let a' := left_in (next_song wait_reading wait_streaming repeat_one a) in
  let n := Z.of_nat (length (songs a)) in
  songs a' = songs a
  /\ _current_song_index a'
     = (if repeat_one then _current_song_index a
        else if _repeat_state a =? 0
             then Z.min (_current_song_index a + 1) (n - 1)
        else if (_repeat_state a =? 1) || (_repeat_state a =? 2)
             then (_current_song_index a + 1) mod n
        else _current_song_index a)
  /\ 0 <= _current_song_index a' < n
  /\ _repeat_state a'
     = (if (_repeat_state a =? 2) && negb repeat_one then 1
        else _repeat_state a)
  /\ repeat_button a'
     = (if (_repeat_state a =? 2) && negb repeat_one then 1
        else repeat_button a)
  /\ (sets_event currently_reading wait_reading ->
      sets_event currently_streaming wait_streaming ->
      exists o, next_song wait_reading wait_streaming repeat_one a = Ends o).
Proof.
  intros Hr Hs Hcur a' n.
  assert (Hstart := keeps_start_song wait_reading wait_streaming Hr Hs).
  assert (Hne : songs a <> []).
  { intros E. rewrite E in Hcur. simpl in Hcur. lia. }
  assert (Hrun :
    (exists a1,
       next_song wait_reading wait_streaming repeat_one a
       = start_song wait_reading wait_streaming a1
       /\ songs a1 = songs a
       /\ _current_song_index a1
          = (if repeat_one then _current_song_index a
             else if _repeat_state a =? 0
                  then Z.min (_current_song_index a + 1) (n - 1)
             else (_current_song_index a + 1) mod n)
       /\ _repeat_state a1
          = (if (_repeat_state a =? 2) && negb repeat_one then 1
             else _repeat_state a)
       /\ repeat_button a1
          = (if (_repeat_state a =? 2) && negb repeat_one then 1
             else repeat_button a)
       /\ (repeat_one = true \/ _repeat_state a = 0 \/ _repeat_state a = 1
           \/ _repeat_state a = 2))
    \/ (next_song wait_reading wait_streaming repeat_one a = Ends (Ok tt a)
        /\ repeat_one = false /\ _repeat_state a <> 0
        /\ _repeat_state a <> 1 /\ _repeat_state a <> 2)).
  { unfold next_song. unfold bind_wait at 1, run at 1, gets at 1. unfold id.
    rewrite bool_decide_eq_false_2 by done. simpl negb. cbv iota.
    destruct a as [mp rs conn btn treq upd].
    unfold songs, _current_song_index in *. simpl in Hcur, Hne. subst n.
    cbn [mediaplayer _repeat_state repeat_button].
    destruct repeat_one.
    - left. rewrite andb_false_r. eexists. split; [reflexivity|].
      simpl. split; [done|]. split; [done|]. split; [done|].
      split; [done|]. by left.
    - rewrite andb_true_r.
      destruct (Z.eqb_spec rs 2) as [->|Hrs2].
      + left. unfold update_repeat_state, button_set_state, set_index,
          on_mediaplayer, zoom. unfold bind_wait, run. unfold_monad. simpl.
        destruct (Z.eqb_spec (MediaPlayer._current_song_index mp)
                    (Z.of_nat (length (MediaPlayer.songs mp)) - 1)) as [E|E];
          (eexists; split; [reflexivity|]); simpl;
          (split; [done|]);
          (split; [|split; [done|split; [done|by do 3 right]]]).
        * rewrite E.
          replace (Z.of_nat (length (MediaPlayer.songs mp)) - 1 + 1)
            with (Z.of_nat (length (MediaPlayer.songs mp))) by lia.
          by rewrite Z.mod_same by lia.
        * rewrite Z.mod_small by lia. done.
      + destruct (Z.eqb_spec rs 0) as [->|Hrs0].
        * left. unfold set_index, on_mediaplayer, zoom.
          unfold bind_wait, run. unfold_monad. simpl.
          destruct (Z.eqb_spec (MediaPlayer._current_song_index mp)
                      (Z.of_nat (length (MediaPlayer.songs mp)) - 1)) as [E|E];
            (eexists; split; [reflexivity|]); simpl;
            (split; [done|]);
            (split; [lia|split; [done|split; [done|by right; left]]]).
        * destruct (Z.eqb_spec rs 1) as [->|Hrs1].
          -- left. unfold set_index, on_mediaplayer, zoom.
             unfold bind_wait, run. unfold_monad. simpl.
             destruct (Z.eqb_spec (MediaPlayer._current_song_index mp)
                         (Z.of_nat (length (MediaPlayer.songs mp)) - 1))
               as [E|E];
               (eexists; split; [reflexivity|]); simpl;
               (split; [done|]);
               (split; [|split; [done|split; [done|by right; right; left]]]).
             ++ rewrite E.
                replace (Z.of_nat (length (MediaPlayer.songs mp)) - 1 + 1)
                  with (Z.of_nat (length (MediaPlayer.songs mp))) by lia.
                by rewrite Z.mod_same by lia.
             ++ rewrite Z.mod_small by lia. done.
          -- right. unfold bind_wait, run. unfold_monad. simpl.
             rewrite bool_decide_eq_false_2 by done. simpl.
             destruct (Z.eqb_spec rs 2); [done|]. simpl.
             destruct (Z.eqb_spec rs 0); [done|].
             destruct (Z.eqb_spec rs 1); [done|]. done. }
  assert (Hgoal :
    songs a' = songs a
    /\ _current_song_index a'
       = (if repeat_one then _current_song_index a
          else if _repeat_state a =? 0
               then Z.min (_current_song_index a + 1) (n - 1)
          else if (_repeat_state a =? 1) || (_repeat_state a =? 2)
               then (_current_song_index a + 1) mod n
          else _current_song_index a)
    /\ _repeat_state a'
       = (if (_repeat_state a =? 2) && negb repeat_one then 1
          else _repeat_state a)
    /\ repeat_button a'
       = (if (_repeat_state a =? 2) && negb repeat_one then 1
          else repeat_button a)).
  { subst a'.
    destruct Hrun as [(a1 & -> & H1 & H2 & H3 & H4 & Hcase)
                     |(-> & -> & H0 & H1 & H2)].
    - destruct (Hstart a1) as (K1 & K2 & K3 & K4).
      rewrite K1, K2, K3, K4, H1, H2, H3, H4.
      split; [done|]. split; [|done].
      destruct repeat_one; [done|].
      destruct (Z.eqb_spec (_repeat_state a) 0); [done|].
      destruct (Z.eqb_spec (_repeat_state a) 1); [done|].
      destruct (Z.eqb_spec (_repeat_state a) 2); [done|].
      destruct Hcase as [|[|[|]]]; done.
    - simpl. split; [done|]. rewrite andb_true_r.
      destruct (Z.eqb_spec (_repeat_state a) 0); [done|].
      destruct (Z.eqb_spec (_repeat_state a) 1); [done|].
      destruct (Z.eqb_spec (_repeat_state a) 2); done. }
  destruct Hgoal as (G1 & G2 & G3 & G4).
  split; [done|]. split; [done|]. split.
  { rewrite G2. destruct repeat_one; [done|].
    destruct (_repeat_state a =? 0); [lia|].
    destruct ((_repeat_state a =? 1) || (_repeat_state a =? 2)); [|done].
    apply Z.mod_pos_bound. lia. }
  split; [done|]. split; [done|].
  intros Hsr Hss.
  destruct Hrun as [(a1 & -> & _)|(-> & _)]; [|by eexists].
  by apply start_song_ends.
Qed.

Lemma next_song_moves_the_index_witness :
  _current_song_index
    (left_in (next_song Samples.no_wait Samples.no_wait false
                (final (set_index 1 (Samples.session true 1)))))
  = 0.
Proof.
  destruct (next_song_moves_the_index Samples.no_wait Samples.no_wait false
              (final (set_index 1 (Samples.session true 1))))
    as (_ & Hi & _).
  - intros a. done.
  - intros a. done.
  - vm_compute. split; [discriminate|reflexivity].
  - rewrite Hi. reflexivity.
Defined.

(** [previous_song], the other threads leaving the selection and the
    repeat button alone; [a'] is the state in which it ends or, if an
    event [start_song] waits for is never set, blocks.  In [a'] the
    queue is not changed; the current index has moved back by one, and
    stayed where it was at the first song or on an empty queue; from
    repeat-one the repeat state and the repeat button are turned to
    repeat on.  An index in range stays in range.  [previous_song] ends
    when the reader and the player set their events. *)
Theorem previous_song_stops_at_the_first
    (wait_reading wait_streaming : t -> t) (a : t) :
  wait_keeps wait_reading -> wait_keeps wait_streaming ->
  let a' := left_in (previous_song wait_reading wait_streaming a) in
  songs a' = songs a
  /\ _current_song_index a'
     = (if bool_decide (songs a = []) then _current_song_index a
        else if _current_song_index a =? 0 then 0
        else _current_song_index a - 1)
  /\ (0 <= _current_song_index a < Z.of_nat (length (songs a)) ->
      0 <= _current_song_index a' < Z.of_nat (length (songs a)))
  /\ _repeat_state a'
     = (if _repeat_state a =? 2 then 1 else _repeat_state a)
  /\ repeat_button a'
     = (if _repeat_state a =? 2 then 1 else repeat_button a)
  /\ (sets_event currently_reading wait_reading ->
      sets_event currently_streaming wait_streaming ->
      exists o, previous_song wait_reading wait_streaming a = Ends o).
Proof.
  intros Hr Hs a'.
  assert (Hstart := keeps_start_song wait_reading wait_streaming Hr Hs).
  assert (Hrun : exists a1,
             previous_song wait_reading wait_streaming a
             = start_song wait_reading wait_streaming a1
             /\ songs a1 = songs a
             /\ _current_song_index a1
                = (if bool_decide (songs a = []) then _current_song_index a
                   else if _current_song_index a =? 0 then 0
                   else _current_song_index a - 1)
             /\ _repeat_state a1
                = (if _repeat_state a =? 2 then 1 else _repeat_state a)
             /\ repeat_button a1
                = (if _repeat_state a =? 2 then 1 else repeat_button a)).
  { unfold previous_song. destruct a as [mp rs conn btn treq upd].
    unfold songs, _current_song_index.
    cbn [mediaplayer _repeat_state repeat_button].
    unfold update_repeat_state, button_set_state, set_index,
      on_mediaplayer, zoom. unfold bind_wait, run.
    unfold_monad. unfold id. simpl.
    destruct (Z.eqb_spec rs 2) as [->|Hrs]; simpl;
      destruct (bool_decide (MediaPlayer.songs mp = [])) eqn:Hb; simpl;
      try (eexists; split; [reflexivity|]; simpl; by rewrite ?Hb);
      destruct (Z.eqb_spec (MediaPlayer._current_song_index mp) 0) as [E|E];
      simpl; eexists; (split; [reflexivity|]); simpl; rewrite ?Hb;
      try done; by rewrite E. }
  destruct Hrun as (a1 & Hrun & H1 & H2 & H3 & H4). subst a'. rewrite Hrun.
  destruct (Hstart a1) as (K1 & K2 & K3 & K4).
  rewrite K1, K2, K3, K4, H1, H2, H3, H4.
  split; [done|]. split; [done|]. split.
  { intros Hcur. destruct (bool_decide (songs a = [])); [done|].
    destruct (Z.eqb_spec (_current_song_index a) 0); lia. }
  split; [done|]. split; [done|].
  intros Hsr Hss. by apply start_song_ends.
Qed.

Lemma previous_song_stops_at_the_first_witness :
  _current_song_index
    (left_in (previous_song Samples.no_wait Samples.no_wait
                (Samples.session true 0)))
  = 0.
Proof.
  destruct (previous_song_stops_at_the_first Samples.no_wait Samples.no_wait
              (Samples.session true 0)) as (_ & Hi & _).
  - intros a. done.
  - intros a. done.
  - rewrite Hi. reflexivity.
Defined.


End SelectionExtras.
(** ** Slicing a pickled song *)

Section SliceExtras.
Local Open Scope nat_scope.
Local Arguments Nat.div : simpl never.
Local Arguments Nat.mul : simpl never.

Lemma chunks_concat_all (payload : list byte) :
  concat (chunk_at payload <$> seq 0 (chunk_count (length payload))) = payload.
Proof.
  pose proof (chunk_count_spec (length payload)) as (Hlo & Hup & Hpos).
  destruct (chunk_count (length payload)) as [|n] eqn:En.
  - simpl. destruct payload; [done|simpl in *; lia].
  - rewrite seq_S, fmap_app, concat_app. simpl. rewrite app_nil_r.
    rewrite chunks_concat by (simpl in *; lia).
    unfold chunk_at. rewrite drop_0.
    rewrite (take_ge (drop _ _)) by (rewrite length_drop; lia).
    apply take_drop.
Qed.

(** [slice_song_bytes] cuts a payload into consecutive chunks: put
    together in order they are the payload; their number is the returned
    count, the length divided by 1024 and rounded up; every chunk but
    the last has 1024 bytes and the last has between 1 and 1024.  An
    empty payload has no chunk. *)
Theorem slices_make_up_the_payload (payload : list byte) :
  (Z.of_nat (chunk_count (length payload)) < 2 ^ 32)%Z ->
  exists data data_length,
    ClientHandler.slice_song_bytes payload = inr (data, data_length)
    /\ concat data = payload
    /\ data_length = Z.of_nat (length data)
    /\ length data = (length payload + 1023) / 1024
    /\ (forall k c, data !! k = Some c ->
          1 <= length c <= 1024
          /\ (k + 1 < length data -> length c = 1024)).
Proof.
  intros Hsmall. rewrite slice_song_bytes_spec by done.
  eexists _, _. split; [reflexivity|].
  split; [apply chunks_concat_all|].
  rewrite length_fmap, length_seq. split; [done|]. split; [done|].
  intros k c Hc. rewrite list_lookup_fmap in Hc.
  destruct (seq 0 _ !! k) as [k'|] eqn:Ek; simpl in Hc; [|done].
  apply lookup_seq in Ek as [-> Hk]. injection Hc as <-.
  unfold chunk_at. rewrite length_take, length_drop.
  unfold chunk_count in *.
  pose proof (Nat.div_mod_eq (length payload + 1023) 1024).
  pose proof (Nat.mod_upper_bound (length payload + 1023) 1024). lia.
Qed.

Lemma slices_make_up_the_payload_witness :
  exists data,
    ClientHandler.slice_song_bytes (replicate 1025 x41) = inr (data, 2%Z)
    /\ concat data = replicate 1025 x41.
Proof.
  destruct (slices_make_up_the_payload (replicate 1025 x41))
    as (data & n & Hrun & Hcat & Hn & Hlen & _).
  - vm_compute. reflexivity.
  - exists data. split; [|exact Hcat].
    rewrite Hrun, Hn, Hlen. reflexivity.
Defined.
End SliceExtras.
(** ** The requests of the control connection *)

Section StrFacts.
Local Open Scope Z_scope.

Lemma Z_of_byte_small z : 0 <= z < 256 -> Z_of_byte (byte_of_Z z) = z.
Proof. intros H. rewrite Z_of_byte_of_Z. by apply Z.mod_small. Qed.

Ltac bools :=
  repeat match goal with
         | H : _ && _ = true |- _ => apply andb_prop in H as [? ?]
         | H : _ && _ = false |- _ => apply andb_false_iff in H
         | H : (_ <=? _) = true |- _ => apply Z.leb_le in H
         | H : (_ <=? _) = false |- _ => apply Z.leb_gt in H
         | H : (_ <? _) = true |- _ => apply Z.ltb_lt in H
         | H : (_ <? _) = false |- _ => apply Z.ltb_ge in H
         end.

Ltac solve_bool :=
  rewrite ?andb_true_iff, ?andb_false_iff, ?Z.leb_le, ?Z.ltb_lt,
    ?Z.leb_gt, ?Z.ltb_ge; lia.

Ltac head_if :=
  match goal with
  | |- (if ?t then _ else _) = _ =>
      first [ replace t with true by (symmetry; solve_bool)
            | replace t with false by (symmetry; solve_bool)
            | match t with
              | context [?a =? ?b] => destruct (Z.eqb_spec a b)
              end ]
  end.

Lemma decode_encode_char c b l :
  Str.encode_char c = Some b ->
  Str.decode (b ++ l) = cons c <$> Str.decode l.
Proof.
  unfold Str.encode_char. intros H.
  repeat match type of H with
         | (if ?t then _ else _) = _ => destruct t eqn:?
         end; try discriminate; injection H as <-; bools.
  - cbn [app Str.decode]. rewrite Z_of_byte_small by lia.
    by head_if.
  - assert (2 <= c / 64 < 32)
      by (split; [apply Z.div_le_lower_bound|apply Z.div_lt_upper_bound]; lia).
    pose proof (Z.mod_pos_bound c 64 ltac:(lia)).
    pose proof (Z.div_mod c 64 ltac:(lia)).
    cbn [app Str.decode]. rewrite !Z_of_byte_small by lia.
    unfold Str.continuation. repeat head_if. do 2 f_equal. lia.
  - assert (0 <= c / 4096 < 16)
      by (split; [apply Z.div_le_lower_bound|apply Z.div_lt_upper_bound]; lia).
    pose proof (Z.mod_pos_bound c 64 ltac:(lia)).
    pose proof (Z.mod_pos_bound (c / 64) 64 ltac:(lia)).
    pose proof (Z.div_mod c 64 ltac:(lia)).
    pose proof (Z.div_mod (c / 64) 64 ltac:(lia)).
    assert (c / 64 / 64 = c / 4096) by (by rewrite Z.div_div by lia).
    cbn [app Str.decode]. rewrite !Z_of_byte_small by lia.
    unfold Str.continuation. repeat head_if; do 2 f_equal; lia.
  - assert (0 <= c / 262144 < 5)
      by (split; [apply Z.div_le_lower_bound|apply Z.div_lt_upper_bound]; lia).
    pose proof (Z.mod_pos_bound c 64 ltac:(lia)).
    pose proof (Z.mod_pos_bound (c / 64) 64 ltac:(lia)).
    pose proof (Z.mod_pos_bound (c / 4096) 64 ltac:(lia)).
    pose proof (Z.div_mod c 64 ltac:(lia)).
    pose proof (Z.div_mod (c / 64) 64 ltac:(lia)).
    pose proof (Z.div_mod (c / 4096) 64 ltac:(lia)).
    assert (c / 64 / 64 = c / 4096) by (by rewrite Z.div_div by lia).
    assert (c / 4096 / 64 = c / 262144) by (by rewrite Z.div_div by lia).
    cbn [app Str.decode]. rewrite !Z_of_byte_small by lia.
    unfold Str.continuation. repeat head_if; do 2 f_equal; lia.
Qed.

(** Decoding undoes encoding. *)
Lemma decode_encode s b : Str.encode s = Some b -> Str.decode b = Some s.
Proof.
  revert b. induction s as [|c s IH]; intros b H; simpl in H.
  - by injection H as <-.
  - destruct (Str.encode_char c) as [bc|] eqn:Ec; [|done].
    destruct (Str.encode s) as [bs|] eqn:Es; [|done].
    injection H as <-. rewrite (decode_encode_char _ _ _ Ec).
    by rewrite (IH bs).
Qed.
End StrFacts.

Section RequestFacts.
Local Open Scope nat_scope.

Lemma encode_app a b ba bb :
  Str.encode a = Some ba -> Str.encode b = Some bb ->
  Str.encode (a ++ b) = Some (ba ++ bb).
Proof.
  revert ba. induction a as [|c a IH]; intros ba Ha Hb; simpl in *.
  - by injection Ha as <-.
  - destruct (Str.encode_char c) as [bc|]; [|done].
    destruct (Str.encode a) as [ba'|]; [|done].
    injection Ha as <-. rewrite (IH ba' eq_refl Hb).
    by rewrite <- app_assoc.
Qed.

Lemma join_empty words : Str.join [] words = concat words.
Proof.
  induction words as [|w [|w' words] IH]; [done|simpl; by rewrite app_nil_r|].
  change (Str.join [] (w :: w' :: words)) with (w ++ [] ++ Str.join [] (w' :: words)).
  by rewrite IH.
Qed.

Lemma split_words_concat s :
  forall word,
    concat (Str.split_words word s)
    = word ++ filter (fun c => negb (Str.isspace c)) s.
Proof.
  induction s as [|c s IH]; intros word; cbn [Str.split_words].
  - change (filter _ []) with (@nil Z). rewrite app_nil_r.
    destruct (decide (word = [])) as [->|]; simpl; by rewrite ?app_nil_r.
  - rewrite filter_cons. destruct (Str.isspace c); simpl.
    + destruct (decide (word = [])) as [->|]; simpl; by rewrite IH.
    + rewrite IH. by rewrite <- app_assoc.
Qed.

(** ["".join(s.split())] is [s] without its whitespace. *)
Lemma join_split_whitespace s :
  Str.join [] (Str.split_whitespace s)
  = filter (fun c => negb (Str.isspace c)) s.
Proof. rewrite join_empty. apply split_words_concat. Qed.

Lemma split_is_cons sep s : exists w ws, Str.split sep s = w :: ws.
Proof.
  induction s as [|c s (w & ws & IH)]; simpl; [by eexists _, _|].
  destruct (c =? sep)%Z; [by eexists _, _|]. rewrite IH. by eexists _, _.
Qed.

Lemma split_word sep word tail :
  sep ∉ word -> (tail = [] \/ exists t, tail = sep :: t) ->
  exists ws, Str.split sep (word ++ tail) = word :: ws
             /\ (tail = [] -> ws = []).
Proof.
  intros Hw Ht. induction word as [|c word IH]; simpl.
  - destruct Ht as [->|(t & ->)]; simpl; [by exists []|].
    rewrite Z.eqb_refl. eexists. split; [done|]. done.
  - apply not_elem_of_cons in Hw as [Hc Hw].
    destruct (Z.eqb_spec c sep) as [->|_]; [done|].
    destruct (IH Hw) as (ws & -> & Hws). by exists ws.
Qed.

Lemma controller_tcp_send_ok data n c :
  Socket.alive (Controller._controller_client c) -> length data = n ->
  exists s', ControllerRequests.communication_tcp_send data n c
             = Ok tt (Controller.mk s')
             /\ wrote (Controller._controller_client c) s' data.
Proof.
  intros Hal Hlen. unfold ControllerRequests.communication_tcp_send, zoom.
  destruct (tcp_send_ok RuntimeError data n (Controller._controller_client c))
    as (s' & -> & Hw); [done|done|].
  by exists s'.
Qed.

Lemma handler_tcp_recv_prefix data rest h :
  Socket.alive (ClientHandler._communication_socket h) ->
  Socket.inbox (ClientHandler._communication_socket h) = data ++ rest ->
  exists s',
    ClientHandlerRequests.communication_tcp_recv (length data) h
    = Ok data (ClientHandler.set_communication_socket s' h)
    /\ Socket.inbox s' = rest
    /\ Socket.outbox s'
       = Socket.outbox (ClientHandler._communication_socket h)
    /\ Socket.alive s'.
Proof.
  intros Hal Hin. unfold ClientHandlerRequests.communication_tcp_recv, zoom.
  destruct (tcp_recv_prefix ConnectionResetError data rest
              (ClientHandler._communication_socket h))
    as (s' & -> & Hi & Ho & Hg); [done|done|].
  exists s'. split; [done|]. split; [done|]. split; [done|].
  by eapply alive_grant.
Qed.

(** A request on the wire: its length in four bytes, then its bytes. *)
Lemma send_request_ok (request_bytes : list byte) c :
  Socket.alive (Controller._controller_client c) ->
  (Z.of_nat (length request_bytes) < 2 ^ 32)%Z ->
  exists length_bytes s',
    to_bytes4 (Z.of_nat (length request_bytes)) = Some length_bytes
    /\ bind (ControllerRequests.communication_tcp_send length_bytes 4)
         (fun _ => ControllerRequests.communication_tcp_send request_bytes
                     (length request_bytes)) c
       = Ok tt (Controller.mk s')
    /\ wrote (Controller._controller_client c) s'
         (length_bytes ++ request_bytes).
Proof.
  intros Hal Hlen.
  destruct (to_bytes4_is_Some (Z.of_nat (length request_bytes)))
    as [length_bytes Hl]; [lia|].
  destruct (controller_tcp_send_ok length_bytes 4 c Hal
              (to_bytes4_length _ _ Hl)) as (s1 & H1 & Hw1).
  destruct (controller_tcp_send_ok request_bytes (length request_bytes)
              (Controller.mk s1)) as (s2 & H2 & Hw2);
    [simpl; by eapply wrote_alive|done|].
  exists length_bytes, s2. split; [done|]. split.
  - unfold bind. by rewrite H1, H2.
  - by eapply wrote_trans.
Qed.

Lemma recv_request_ok {Row} (fetch : list Z -> M ClientHandler.t (list Row))
    pickle_song (request : list Z) request_bytes length_bytes rest h :
  Str.encode request = Some request_bytes ->
  to_bytes4 (Z.of_nat (length request_bytes)) = Some length_bytes ->
  Socket.alive (ClientHandler._communication_socket h) ->
  Socket.inbox (ClientHandler._communication_socket h)
  = (length_bytes ++ request_bytes) ++ rest ->
  exists s',
    ClientHandlerRequests.communication_pass Row fetch pickle_song h
    = ClientHandlerRequests._execute_request Row fetch pickle_song request
        (ClientHandler.set_communication_socket s' h)
    /\ Socket.inbox s' = rest
    /\ Socket.outbox s'
       = Socket.outbox (ClientHandler._communication_socket h)
    /\ Socket.alive s'.
Proof.
  intros He Hl Hal Hin. rewrite <- app_assoc in Hin.
  unfold ClientHandlerRequests.communication_pass.
  destruct (handler_tcp_recv_prefix length_bytes _ h Hal Hin)
    as (s1 & H1 & Hi1 & Ho1 & Hal1).
  rewrite (to_bytes4_length _ _ Hl) in H1.
  destruct (handler_tcp_recv_prefix request_bytes rest
              (ClientHandler.set_communication_socket s1 h))
    as (s2 & H2 & Hi2 & Ho2 & Hal2); [done|done|].
  exists s2. split; [|by rewrite Ho2].
  unfold bind at 1. rewrite H1.
  rewrite (from_to_bytes4 _ _ Hl), Nat2Z.id.
  unfold bind at 1. rewrite H2.
  erewrite bind_or_raise by (by apply decode_encode).
  by destruct h.
Qed.
End RequestFacts.

Section OutboxFacts.
Lemma final_bind_proj {S A B X} (proj : S -> X) (m : M S A) (f : A -> M S B) :
  (forall s, proj (final (m s)) = proj s) ->
  (forall x s, proj (final (f x s)) = proj s) ->
  forall s, proj (final (bind m f s)) = proj s.
Proof.
  intros Hm Hf s. unfold bind. specialize (Hm s).
  destruct (m s) as [x s1|e s1]; simpl in *; [|done].
  by rewrite Hf.
Qed.

Lemma tcp_recv_loop_outbox broken bufsize fuel :
  forall chunks got s,
    Socket.outbox (final (Socket.tcp_recv_loop fuel broken bufsize chunks got s))
    = Socket.outbox s.
Proof.
  induction fuel as [|fuel IH]; intros chunks got s; simpl.
  - by destruct (_ <? _)%nat.
  - destruct (_ <? _)%nat; [|done].
    unfold bind, Socket.recv.
    destruct (decide _); [done|]. by rewrite IH.
Qed.

Lemma controller_recv_outbox n c :
  Socket.outbox (Controller._controller_client
                   (final (Controller.communication_tcp_recv n c)))
  = Socket.outbox (Controller._controller_client c).
Proof.
  unfold Controller.communication_tcp_recv, zoom, Socket.tcp_recv.
  pose proof (tcp_recv_loop_outbox RuntimeError n n [] 0%nat
                (Controller._controller_client c)) as H.
  by destruct (Socket.tcp_recv_loop _ _ _ _ _ _).
Qed.

Lemma recv_search_results_outbox c :
  Socket.outbox (Controller._controller_client
                   (final (Controller.recv_search_results c)))
  = Socket.outbox (Controller._controller_client c).
Proof.
  set (proj := fun c => Socket.outbox (Controller._controller_client c)).
  assert (Hchunks : forall n acc c,
            proj (final (Controller.recv_chunks n acc c)) = proj c).
  { induction n as [|n IH]; intros acc c0; simpl; [done|].
    apply (final_bind_proj proj); [apply controller_recv_outbox|].
    intros x s. apply IH. }
  assert (Hsong : forall c, proj (final (Controller.recv_serialized_song c))
                            = proj c).
  { unfold Controller.recv_serialized_song.
    apply (final_bind_proj proj); [apply controller_recv_outbox|]. intros x.
    apply (final_bind_proj proj); [apply Hchunks|]. intros y.
    apply (final_bind_proj proj); [apply controller_recv_outbox|]. intros z.
    apply (final_bind_proj proj); [apply controller_recv_outbox|]. done. }
  assert (Hsongs : forall n acc c,
            proj (final (Controller.recv_songs n acc c)) = proj c).
  { induction n as [|n IH]; intros acc c0; simpl; [done|].
    apply (final_bind_proj proj); [apply Hsong|].
    intros x s. apply IH. }
  revert c. unfold Controller.recv_search_results.
  apply (final_bind_proj proj); [apply controller_recv_outbox|].
  intros x s. destruct (_ <? _)%Z; [apply Hsongs|done].
Qed.
End OutboxFacts.

Section SplitFacts.
Lemma split_no_sep sep (word : list Z) :
  sep ∉ word -> Str.split sep word = [word].
Proof.
  induction word as [|c word IH]; intros Hw; simpl; [done|].
  apply not_elem_of_cons in Hw as [Hc Hw].
  destruct (Z.eqb_spec c sep) as [->|_]; [done|]. by rewrite IH.
Qed.

Lemma split_app_sep sep (word s : list Z) :
  sep ∉ word -> Str.split sep (word ++ sep :: s) = word :: Str.split sep s.
Proof.
  induction word as [|c word IH]; intros Hw; simpl.
  - by rewrite Z.eqb_refl.
  - apply not_elem_of_cons in Hw as [Hc Hw].
    destruct (Z.eqb_spec c sep) as [->|_]; [done|]. by rewrite IH.
Qed.

(** The first part of a split. *)
Lemma split_first sep (word tail : list Z) :
  sep ∉ word -> (tail = [] \/ exists t, tail = sep :: t) ->
  exists ws, Str.split sep (word ++ tail) = word :: ws.
Proof.
  intros Hw [->|(t & ->)].
  - rewrite app_nil_r, split_no_sep by done. by exists [].
  - rewrite split_app_sep by done. by eexists.
Qed.
End SplitFacts.

Section ExecuteFacts.
Context {Row : Type}.
Variable fetch : list Z -> M ClientHandler.t (list Row).
Variable pickle_song : Row -> M ClientHandler.t (list byte).

Lemma execute_terminate h :
  ClientHandlerRequests._execute_request Row fetch pickle_song
    (Str.lit "TERMINATE_SONG_DATA_RECV@") h
  = Ok tt (ClientHandler.set_stop_send true h).
Proof. reflexivity. Qed.

Lemma execute_search (word tail : list Z) h :
  64 ∉ word -> (tail = [] \/ exists t, tail = 64 :: t) ->
  ClientHandlerRequests._execute_request Row fetch pickle_song
    (Str.lit "SEARCH@" ++ word ++ tail) h
  = ClientHandlerRequests._search_for_song Row fetch pickle_song word h.
Proof.
  intros Hw Ht. unfold ClientHandlerRequests._execute_request.
  change (Str.lit "SEARCH@" ++ word ++ tail)
    with (Str.lit "SEARCH" ++ 64 :: (word ++ tail)).
  rewrite split_app_sep.
  2:{ change (Str.lit "SEARCH") with [83; 69; 65; 82; 67; 72].
      intros H. repeat (apply elem_of_cons in H as [H|H]; [discriminate|]).
      by apply elem_of_nil in H. }
  destruct (split_first 64 word tail Hw Ht) as (ws & ->).
  unfold bind at 1. simpl or_raise. unfold ret at 1.
  rewrite decide_False by (intros E; vm_compute in E; discriminate).
  rewrite decide_True by done.
  change 1%Z with (Z.of_nat 1). rewrite py_getitem_nonneg.
  reflexivity.
Qed.

Lemma bind_run {S A B} (m : M S A) (f : A -> M S B) s :
  bind m f s
  = match m s with Ok a s' => f a s' | Raise e s' => Raise e s' end.
Proof. reflexivity. Qed.

Lemma pickled_songs (rows : list Row) (results : list (list byte)) :
  Forall2 (fun row p => forall h, pickle_song row h = Ok p h) rows results ->
  forall h,
    for_each rows (fun row =>
      bind (pickle_song row) ClientHandler.send_serialized_song) h
    = for_each results ClientHandler.send_serialized_song h.
Proof.
  induction 1 as [|row p rows results Hp _ IH]; intros h; simpl; [done|].
  rewrite !bind_run, Hp.
  destruct (ClientHandler.send_serialized_song p h); [apply IH|done].
Qed.
(** With the catalogue read, [_search_for_song] is the sending of the
    pickled songs. *)
Lemma search_for_song_pickled (word : list Z) (rows : list Row)
    (results : list (list byte)) h :
  word <> [] ->
  (forall h, fetch word h = Ok rows h) ->
  Forall2 (fun row p => forall h, pickle_song row h = Ok p h) rows results ->
  ClientHandlerRequests._search_for_song Row fetch pickle_song word h
  = ClientHandler._search_for_song results h.
Proof.
  intros Hne Hfetch Hpickle.
  unfold ClientHandlerRequests._search_for_song,
    ClientHandler._search_for_song.
  rewrite decide_False by done.
  rewrite bind_run, Hfetch, (Forall2_length _ _ _ Hpickle).
  destruct (to_bytes4 (Z.of_nat (length results))) as [count|];
    [|reflexivity].
  cbn [or_raise]. rewrite !(bind_run (ret count)). cbn [ret].
  rewrite !(bind_run (ClientHandler.communication_tcp_send count 4)).
  destruct (ClientHandler.communication_tcp_send count 4 h);
    [|reflexivity].
  by apply pickled_songs.
Qed.

(** The search request on its way: written by the controller, which
    then waits for the reply, and read by one pass of the control loop,
    which searches for the part of the key before its first at-sign. *)
Lemma search_request_ok
    (search_string word tail : list Z) (key_bytes : list byte) :
  filter (fun ch => negb (Str.isspace ch)) search_string = word ++ tail ->
  word ++ tail <> [] ->
  64 ∉ word -> (tail = [] \/ exists t, tail = 64 :: t) ->
  Str.encode (word ++ tail) = Some key_bytes ->
  Z.of_nat (length key_bytes) + 7 < 2 ^ 32 ->
  exists request,
    (forall c,
       Socket.alive (Controller._controller_client c) ->
       exists s1,
         ControllerRequests._search_request_handler search_string c
         = Controller.recv_search_results (Controller.mk s1)
         /\ wrote (Controller._controller_client c) s1 request)
    /\ forall h rest,
         Socket.alive (ClientHandler._communication_socket h) ->
         Socket.inbox (ClientHandler._communication_socket h)
         = request ++ rest ->
         exists s',
           ClientHandlerRequests.communication_pass Row fetch pickle_song h
           = ClientHandlerRequests._search_for_song Row fetch pickle_song
               word (ClientHandler.set_communication_socket s' h)
           /\ Socket.inbox s' = rest
           /\ Socket.outbox s'
              = Socket.outbox (ClientHandler._communication_socket h)
           /\ Socket.alive s'.
Proof.
  intros Hkey Hne Hw Ht He Hlen.
  assert (Hreq : Str.encode (Str.lit "SEARCH@" ++ word ++ tail)
                 = Some (encode "SEARCH@" ++ key_bytes)).
  { by apply encode_app. }
  assert (Hlen' : (Z.of_nat (length (encode "SEARCH@" ++ key_bytes)) < 2 ^ 32)).
  { rewrite length_app. change (length (encode "SEARCH@")) with 7%nat. lia. }
  destruct (to_bytes4_is_Some
              (Z.of_nat (length (encode "SEARCH@" ++ key_bytes))))
    as [length_bytes Hl]; [lia|].
  exists (length_bytes ++ encode "SEARCH@" ++ key_bytes). split.
  - intros c Hal.
    destruct (send_request_ok _ c Hal Hlen')
      as (length_bytes' & s1 & Hl' & Hsend & Hwr).
    rewrite Hl in Hl'. injection Hl' as <-.
    exists s1. split; [|done].
    unfold ControllerRequests._search_request_handler.
    rewrite join_split_whitespace, Hkey.
    rewrite decide_False by done.
    erewrite bind_or_raise by exact Hreq.
    erewrite bind_or_raise by exact Hl.
    unfold bind in Hsend |- *.
    destruct (ControllerRequests.communication_tcp_send length_bytes 4 c)
      as [[] c1|]; [|done].
    by rewrite Hsend.
  - intros h rest Halh Hin.
    destruct (recv_request_ok fetch pickle_song _ _ _ rest h Hreq Hl Halh Hin)
      as (s' & Hrun & Hi & Ho & Hal').
    rewrite execute_search in Hrun by done.
    by exists s'.
Qed.
End ExecuteFacts.


Section RequestExtras.
Local Open Scope Z_scope.

(** The request to stop a stream, from the controller of the client to
    the handler of the server.  On connections that stay up the
    controller writes the request (its length in four bytes, then
    TERMINATE_SONG_DATA_RECV@), and one pass of the control loop of the
    handler, given these bytes, reads exactly them, sets [_stop_send]
    and sends nothing. *)
Theorem stop_request_sets_the_stop_flag {Row : Type}
    (fetch : list Z -> M ClientHandler.t (list Row))
    (pickle_song : Row -> M ClientHandler.t (list byte))
    (c : Controller.t) :
  Socket.alive (Controller._controller_client c) ->
  exists c' request,
    ControllerRequests._terminate_song_data_recv_request_handler c = Ok tt c'
    /\ wrote (Controller._controller_client c)
         (Controller._controller_client c') request
    /\ forall h rest,
         Socket.alive (ClientHandler._communication_socket h) ->
         Socket.inbox (ClientHandler._communication_socket h)
         = request ++ rest ->
         exists h',
           ClientHandlerRequests.communication_pass Row fetch pickle_song h
           = Ok tt h'
           /\ ClientHandler._stop_send h' = true
           /\ Socket.inbox (ClientHandler._communication_socket h') = rest
           /\ Socket.outbox (ClientHandler._communication_socket h')
              = Socket.outbox (ClientHandler._communication_socket h)
           /\ ClientHandler._streaming_socket h'
              = ClientHandler._streaming_socket h.
Proof.
  intros Hal.
  unfold ControllerRequests._terminate_song_data_recv_request_handler.
  destruct (Str.encode (Str.lit "TERMINATE_SONG_DATA_RECV@"))
    as [request_bytes|] eqn:He; [|by vm_compute in He].
  assert (Hlen : length request_bytes = 25%nat).
  { vm_compute in He. by injection He as <-. }
  destruct (send_request_ok request_bytes c Hal)
    as (length_bytes & s' & Hl & Hsend & Hw); [rewrite Hlen; done|].
  exists (Controller.mk s'), (length_bytes ++ request_bytes).
  split; [|split; [done|]].
  - cbn [or_raise]. unfold bind at 1, ret.
    erewrite bind_or_raise by exact Hl. exact Hsend.
  - intros h rest Halh Hin.
    destruct (recv_request_ok fetch pickle_song _ _ _ rest h He Hl Halh Hin)
      as (s1 & -> & Hi & Ho & _).
    rewrite execute_terminate. eexists. split; [done|]. by destruct h.
Qed.

Lemma stop_request_sets_the_stop_flag_witness :
  exists c' h',
    ControllerRequests._terminate_song_data_recv_request_handler
      (Controller.mk (Samples.socket [])) = Ok tt c'
    /\ ClientHandlerRequests.communication_pass unit
         (fun _ => ret []) (fun _ => ret [])
         (ClientHandler.set_communication_socket
            (Samples.socket
               (Socket.outbox (Controller._controller_client c')))
            Samples.handler)
       = Ok tt h'
    /\ ClientHandler._stop_send h' = true.
Proof.
  destruct (stop_request_sets_the_stop_flag (Row := unit)
              (fun _ => ret []) (fun _ => ret [])
              (Controller.mk (Samples.socket [])))
    as (c' & request & Hrun & (Hout & _) & Hpass).
  - intros n. simpl. lia.
  - destruct (Hpass (ClientHandler.set_communication_socket
                       (Samples.socket
                          (Socket.outbox (Controller._controller_client c')))
                       Samples.handler) [])
      as (h' & Hh & Hstop & _).
    + intros n. simpl. lia.
    + simpl. rewrite Hout. simpl. by rewrite app_nil_r.
    + exists c', h'. split; [exact Hrun|]. split; [exact Hh|exact Hstop].
Defined.

(** A search string that starts with an at-sign (whitespace apart) gets
    no reply.  On connections that stay up the controller writes the
    request and goes on to wait for the reply, while the pass of the
    control loop of the handler that reads the request returns without
    sending a byte: it takes the part of the key before the first
    at-sign, which is empty, for the search string. *)
Theorem search_for_an_at_sign_gets_no_reply {Row : Type}
    (fetch : list Z -> M ClientHandler.t (list Row))
    (pickle_song : Row -> M ClientHandler.t (list byte))
    (search_string t : list Z) (key_bytes : list byte) :
  filter (fun ch => negb (Str.isspace ch)) search_string = 64 :: t ->
  Str.encode (64 :: t) = Some key_bytes ->
  Z.of_nat (length key_bytes) + 7 < 2 ^ 32 ->
  exists request,
    (forall c,
       Socket.alive (Controller._controller_client c) ->
       exists s1,
         ControllerRequests._search_request_handler search_string c
         = Controller.recv_search_results (Controller.mk s1)
         /\ wrote (Controller._controller_client c) s1 request)
    /\ forall h rest,
         Socket.alive (ClientHandler._communication_socket h) ->
         Socket.inbox (ClientHandler._communication_socket h)
         = request ++ rest ->
         exists h',
           ClientHandlerRequests.communication_pass Row fetch pickle_song h
           = Ok tt h'
           /\ Socket.inbox (ClientHandler._communication_socket h') = rest
           /\ Socket.outbox (ClientHandler._communication_socket h')
              = Socket.outbox (ClientHandler._communication_socket h)
           /\ Socket.outbox (ClientHandler._streaming_socket h')
              = Socket.outbox (ClientHandler._streaming_socket h).
Proof.
  intros Hkey He Hlen.
  destruct (search_request_ok fetch pickle_song search_string [] (64 :: t) key_bytes)
    as (request & Hclient & Hserver);
    [done|done|apply not_elem_of_nil|right; by eexists|done|done|].
  exists request. split; [done|].
  intros h rest Hal Hin.
  destruct (Hserver h rest Hal Hin) as (s' & -> & Hi & Ho & _).
  eexists. split; [reflexivity|]. by destruct h.
Qed.

Lemma search_for_an_at_sign_gets_no_reply_witness :
  exists request h',
    Socket.outbox
      (Controller._controller_client
         (final (ControllerRequests._search_request_handler
                   (Str.lit " @") (Controller.mk (Samples.socket [])))))
    = request
    /\ ClientHandlerRequests.communication_pass unit
         (fun _ => ret []) (fun _ => ret [])
         (ClientHandler.set_communication_socket (Samples.socket request)
            Samples.handler)
       = Ok tt h'
    /\ Socket.outbox (ClientHandler._communication_socket h') = [].
Proof.
  destruct (search_for_an_at_sign_gets_no_reply (Row := unit)
              (fun _ => ret []) (fun _ => ret []) (Str.lit " @") []
              (encode "@"))
    as (request & Hclient & Hserver).
  - reflexivity.
  - reflexivity.
  - vm_compute. reflexivity.
  - destruct (Hserver (ClientHandler.set_communication_socket
                         (Samples.socket request) Samples.handler) [])
      as (h' & Hrun & _ & Hout & _).
    + intros n. simpl. lia.
    + simpl. by rewrite app_nil_r.
    + destruct (Hclient (Controller.mk (Samples.socket [])))
        as (s1 & Hc & (Hw & _)); [intros n; simpl; lia|].
      exists request, h'. split; [|by split].
      rewrite Hc, recv_search_results_outbox. simpl. by rewrite Hw.
Defined.

(** A search, end to end.  The key is the search string without its
    whitespace; the handler searches for the part of the key before
    its first at-sign, [word], which is not empty here.  The catalogue
    finds [rows] for it and pickles them to [results] (pickles are not
    empty).  On connections that stay up, one pass of the control loop
    given the request reads exactly it and writes the reply, and the
    controller given the reply returns these [results], in order, having
    written the request and read the reply and no more. *)
Theorem search_shows_what_the_catalogue_finds {Row : Type}
    (fetch : list Z -> M ClientHandler.t (list Row))
    (pickle_song : Row -> M ClientHandler.t (list byte))
    (search_string word tail : list Z) (key_bytes : list byte)
    (rows : list Row) (results : list (list byte)) :
  filter (fun ch => negb (Str.isspace ch)) search_string = word ++ tail ->
  word <> [] ->
  64 ∉ word -> (tail = [] \/ exists t, tail = 64 :: t) ->
  Str.encode (word ++ tail) = Some key_bytes ->
  Z.of_nat (length key_bytes) + 7 < 2 ^ 32 ->
  (forall h, fetch word h = Ok rows h) ->
  Forall2 (fun row p => forall h, pickle_song row h = Ok p h) rows results ->
  Forall (fun p => (1 <= length p)%nat
                   /\ Z.of_nat (chunk_count (length p)) < 2 ^ 32) results ->
  Z.of_nat (length results) < 2 ^ 32 ->
  exists request reply,
    (forall h rest,
       Socket.alive (ClientHandler._communication_socket h) ->
       Socket.inbox (ClientHandler._communication_socket h)
       = request ++ rest ->
       exists h',
         ClientHandlerRequests.communication_pass Row fetch pickle_song h
         = Ok tt h'
         /\ Socket.inbox (ClientHandler._communication_socket h') = rest
         /\ Socket.outbox (ClientHandler._communication_socket h')
            = Socket.outbox (ClientHandler._communication_socket h) ++ reply)
    /\ forall c rest,
         Socket.alive (Controller._controller_client c) ->
         Socket.inbox (Controller._controller_client c) = reply ++ rest ->
         exists c',
           ControllerRequests._search_request_handler search_string c
           = Ok results c'
           /\ Socket.inbox (Controller._controller_client c') = rest
           /\ Socket.outbox (Controller._controller_client c')
              = Socket.outbox (Controller._controller_client c) ++ request.
Proof.
  intros Hkey Hne Hw Ht He Hlen Hfetch Hpickle Hres Hn.
  destruct (search_request_ok fetch pickle_song search_string word tail key_bytes)
    as (request & Hclient & Hserver); [done| |done|done|done|done|].
  { intros E. by apply app_eq_nil in E as [-> _]. }
  exists request, (search_wire results). split.
  - intros h rest Hal Hin.
    destruct (Hserver h rest Hal Hin) as (s' & -> & Hi & Ho & Hal').
    rewrite (search_for_song_pickled fetch pickle_song word rows results)
      by done.
    destruct (search_for_song_ok results
                (ClientHandler.set_communication_socket s' h) Hres Hn Hal')
      as (s2 & -> & (Hw2 & Hi2 & _)).
    eexists. split; [reflexivity|]. simpl in *.
    by rewrite Hi2, Hw2, Ho.
  - intros c rest Hal Hin.
    destruct (Hclient c Hal) as (s1 & -> & (Hw1 & Hi1 & Hg1)).
    destruct (recv_search_results_ok results (Controller.mk s1) rest)
      as (s' & Hrun & Hi'); [done|done| | |].
    { simpl. by eapply alive_grant. }
    { simpl. by rewrite Hi1. }
    pose proof (recv_search_results_outbox (Controller.mk s1)) as Hout.
    rewrite Hrun in Hout |- *. simpl in Hout.
    exists (Controller.mk s'). split; [done|]. split; [done|].
    simpl. by rewrite Hout.
Qed.

Lemma search_shows_what_the_catalogue_finds_witness :
  exists request reply,
    (exists h',
       ClientHandlerRequests.communication_pass (list byte)
         (fun _ => ret [[x41; x42]; [x43]]) ret
         (ClientHandler.set_communication_socket (Samples.socket request)
            Samples.handler)
       = Ok tt h'
       /\ Socket.outbox (ClientHandler._communication_socket h') = reply)
    /\ exists c',
         ControllerRequests._search_request_handler (Str.lit "a b")
           (Controller.mk (Samples.socket reply))
         = Ok [[x41; x42]; [x43]] c'.
Proof.
  destruct (search_shows_what_the_catalogue_finds (Row := list byte)
              (fun _ => ret [[x41; x42]; [x43]]) ret
              (Str.lit "a b") (Str.lit "ab") [] (encode "ab")
              [[x41; x42]; [x43]] [[x41; x42]; [x43]])
    as (request & reply & Hserver & Hclient).
  - reflexivity.
  - discriminate.
  - intros H. repeat (apply elem_of_cons in H as [H|H]; [discriminate|]).
    by apply elem_of_nil in H.
  - by left.
  - reflexivity.
  - vm_compute. reflexivity.
  - done.
  - repeat constructor.
  - repeat constructor; simpl; lia.
  - reflexivity.
  - exists request, reply. split.
    + destruct (Hserver (ClientHandler.set_communication_socket
                           (Samples.socket request) Samples.handler) [])
        as (h' & Hrun & _ & Hout); [intros n; simpl; lia| |].
      * simpl. by rewrite app_nil_r.
      * exists h'. split; [exact Hrun|]. exact Hout.
    + destruct (Hclient (Controller.mk (Samples.socket reply)) [])
        as (c' & Hrun & _); [intros n; simpl; lia| |].
      * simpl. by rewrite app_nil_r.
      * exists c'. exact Hrun.
Defined.
End RequestExtras.
